(** * Langkit: compiled-type model, precise-type inference, diagnostics and
      the collection-operation compiler.

    A shallow embedding of the parts of [langkit.diagnostics],
    [langkit.compiled_types] and [langkit.expressions.collections] that the
    specification's properties talk about.  Python objects are identified by
    an object identity (a natural number); module-level and class-level
    mutable state is threaded explicitly through a small state-and-exception
    monad. *)

From stdpp Require Import base option list strings gmap.
From Stdlib Require Import Lia.

(** ** Python calls: a state-and-exception monad *)

(** The exceptions the modelled code can raise. *)
Inductive Exn :=
| DiagnosticError
| AssertionError
| KeyError
| AttributeError.

(** A call either returns a value or raises; in both cases the mutations it
    performed on the state remain. *)
Inductive outcome (A : Type) :=
| Returns (a : A)
| Raises (e : Exn).
Arguments Returns {A} a.
Arguments Raises {A} e.

Definition M (S A : Type) : Type := S -> outcome A * S.

Definition ret {S A} (a : A) : M S A := fun s => (Returns a, s).
Definition raise {S A} (e : Exn) : M S A := fun s => (Raises e, s).
Definition bind {S A B} (m : M S A) (k : A -> M S B) : M S B :=
  fun s => match m s with
           | (Returns a, s') => k a s'
           | (Raises e, s') => (Raises e, s')
           end.
Definition get_state {S} : M S S := fun s => (Returns s, s).
Definition modify {S} (f : S -> S) : M S unit := fun s => (Returns tt, f s).

Notation "'let*' x := m 'in' k" := (bind m (fun x => k))
  (at level 10, x pattern, m at level 100, k at level 200,
   format "'[v' 'let*'  x  :=  m  'in' '/' k ']'").
Notation "m ;; k" := (bind m (fun _ => k))
  (at level 100, k at level 200, right associativity).

(** [for x in xs: body x] *)
Definition for_each {S A} (xs : list A) (body : A -> M S unit) : M S unit :=
  (fix loop (xs : list A) : M S unit :=
     match xs with
     | [] => ret tt
     | x :: xs' => body x ;; loop xs'
     end) xs.

(** [acc = init; for x in xs: acc = body(acc, x)] *)
Definition fold_m {S A B} (xs : list A) (acc : B) (body : B -> A -> M S B)
  : M S B :=
  (fix loop (xs : list A) (acc : B) : M S B :=
     match xs with
     | [] => ret acc
     | x :: xs' => let* acc' := body acc x in loop xs' acc'
     end) xs acc.

Definition returned {A S} (r : outcome A * S) : Prop :=
  match r.1 with Returns _ => True | Raises _ => False end.

Definition raised {A S} (r : outcome A * S) : Prop :=
  match r.1 with Returns _ => False | Raises _ => True end.

(** ** langkit.diagnostics *)

Module Diag.

(** [class Severity(enum.IntEnum)] *)
Inductive Severity := warning | error | non_blocking_error.

(** The state [check_source_language] reads and writes: the class attribute
    [Diagnostics.has_pending_error], whether the current compile context has
    an emitter ([get_context(or_none=True)] is not [None] and its [emitter]
    is not [None]), and the diagnostics printed so far (severity and
    message; the layout of the printed text is left out). *)
Record World := mkWorld {
  has_pending_error : bool;
  ctx_emitter : bool;
  printed : list (Severity * string)
}.

Definition print_diag (sev : Severity) (message : string) (w : World) : World :=
  mkWorld (has_pending_error w) (ctx_emitter w) (printed w ++ [(sev, message)]).

Definition set_pending (b : bool) (w : World) : World :=
  mkWorld b (ctx_emitter w) (printed w).

(** [check_source_language(predicate, message, severity=Severity.error,
    do_raise=True, ok_for_codegen=False)] *)
Definition check_source_language (predicate : bool) (message : string)
    (severity : Severity) (do_raise ok_for_codegen : bool) : M World unit :=
  fun w =>
    if negb ok_for_codegen && ctx_emitter w then (Raises AssertionError, w)
    else if negb predicate then
      let w1 := print_diag severity message w in
      match severity with
      | error => if do_raise then (Raises DiagnosticError, w1)
                 else (Returns tt, w1)
      | non_blocking_error => (Returns tt, set_pending true w1)
      | warning => (Returns tt, w1)
      end
    else (Returns tt, w).

(** [check_multiple(predicates_and_messages, severity=Severity.error)] *)
Definition check_multiple (predicates_and_messages : list (bool * string))
    (severity : Severity) : M World unit :=
  for_each predicates_and_messages
    (fun pm => check_source_language pm.1 pm.2 severity true false).

(** [errors_checkpoint()] *)
Definition errors_checkpoint : M World unit :=
  fun w =>
    if has_pending_error w then (Raises DiagnosticError, set_pending false w)
    else (Returns tt, w).

(** What a compilation does to the diagnostics state, one call at a time. *)
Inductive event :=
| Check (predicate : bool) (message : string) (severity : Severity)
        (do_raise ok_for_codegen : bool)
| Checkpoint.

Definition exec (e : event) : M World unit :=
  match e with
  | Check p m sev dr ok => check_source_language p m sev dr ok
  | Checkpoint => errors_checkpoint
  end.

(** The state after a sequence of calls, whether or not they raised (the
    flag is a class attribute: it survives an exception). *)
Definition run (evs : list event) (w : World) : World :=
  foldl (fun w e => (exec e w).2) w evs.

(** A call that records a non-blocking error: a false predicate checked at
    non-blocking-error severity, in a context where the function's assertion
    on the compile context holds ([emitting]: the context has an emitter). *)
Definition records_non_blocking (emitting : bool) (e : event) : bool :=
  match e with
  | Check false _ non_blocking_error _ ok => ok || negb emitting
  | _ => false
  end.

(** Messages of the failed predicates, in order. *)
Definition failed_messages (pms : list (bool * string)) : list string :=
  snd <$> filter (fun pm => pm.1 = false) pms.

End Diag.

(** ** langkit.compiled_types: the node hierarchy and its kind ranges *)

Module Hierarchy.

(** An [ASTNodeType], with the attributes [concrete_subclasses] reads: the
    object's identity, [name.base_name], [abstract], and the list
    [subclasses] in the order the subclasses were created.  The [base] link
    is the inverse of [subclasses]: a function that needs the inheritance
    chain of a node takes the list of its ancestors, root first. *)
#[local] Unset Elimination Schemes.
Inductive ASTNodeType := mkNode {
  ident : nat;
  base_name : string;
  abstract : bool;
  subclasses : list ASTNodeType
}.
#[local] Set Elimination Schemes.

(** [get_inheritance_chain]: the ancestors, root-most first, then the node. *)
Definition get_inheritance_chain (ancestors : list ASTNodeType)
    (self : ASTNodeType) : list ASTNodeType :=
  ancestors ++ [self].

(** [hierarchical_name]:
    ['.'.join(node.name.base_name for node in self.get_inheritance_chain())] *)
Definition hierarchical_name (ancestors : list ASTNodeType)
    (self : ASTNodeType) : string :=
  String.concat "." (base_name <$> get_inheritance_chain ancestors self).

(** Python's [sorted(xs, key=key)] on string keys: a stable sort. *)
Fixpoint insert_by {A} (key : A -> string) (x : A) (l : list A) : list A :=
  match l with
  | [] => [x]
  | y :: l' => if String.leb (key x) (key y) then x :: y :: l'
               else y :: insert_by key x l'
  end.

Definition sorted {A} (l : list A) (key : A -> string) : list A :=
  foldr (insert_by key) [] l.

Fixpoint height (n : ASTNodeType) : nat :=
  S (foldr (fun c h => Nat.max (height c) h) 0 (subclasses n)).

(** The body of [concrete_subclasses]; the recursion follows [subclasses],
    so a fuel larger than the height of the hierarchy below [self] never runs
    out (lemma [concrete_subclasses_eq]). *)
Fixpoint concrete_subclasses_body (fuel : nat) (ancestors : list ASTNodeType)
    (self : ASTNodeType) : list ASTNodeType :=
  match fuel with
  | 0 => []
  | S fuel' =>
      let result := if abstract self then [] else [self] in
      let chain := get_inheritance_chain ancestors self in
      let sorted_direct_subclasses :=
        sorted (subclasses self) (fun subcls => hierarchical_name chain subcls) in
      result ++ mjoin (concrete_subclasses_body fuel' chain
                         <$> sorted_direct_subclasses)
  end.

(** [ASTNodeType.concrete_subclasses] *)
Definition concrete_subclasses (ancestors : list ASTNodeType)
    (self : ASTNodeType) : list ASTNodeType :=
  concrete_subclasses_body (height self) ancestors self.

(** [ASTNodeType.ada_kind_range_bounds]: the two node types whose kind
    enumerators ([ada_kind_name]) bound the range. *)
Definition ada_kind_range_bounds (ancestors : list ASTNodeType)
    (self : ASTNodeType) : ASTNodeType * ASTNodeType :=
  let subclasses := concrete_subclasses ancestors self in
  match subclasses with
  | first :: _ => (first, default first (last subclasses))
  | [] => (self, self)
  end.

(** [in_hierarchy root ancestors n]: [n] is [root] or one of its direct or
    indirect subclasses, and [ancestors] is the chain from [root] down to
    the base of [n]. *)
Inductive in_hierarchy (root : ASTNodeType) :
    list ASTNodeType -> ASTNodeType -> Prop :=
| in_hierarchy_root : in_hierarchy root [] root
| in_hierarchy_subclass ancestors n c :
    in_hierarchy root ancestors n ->
    c ∈ subclasses n ->
    in_hierarchy root (ancestors ++ [n]) c.

(** [x] is [n] or a direct or indirect subclass of [n]. *)
Definition derives_from (x n : ASTNodeType) : Prop :=
  exists chain, in_hierarchy n chain x.

(** Every node type of the hierarchy, base before subclasses. *)
Fixpoint all_nodes (n : ASTNodeType) : list ASTNodeType :=
  n :: mjoin (all_nodes <$> subclasses n).

(** The node-kind enumeration lists the concrete node types in the order of
    [concrete_subclasses] of the root; the kind of a node type is its
    position there. *)
Fixpoint position (i : nat) (l : list nat) : option nat :=
  match l with
  | [] => None
  | j :: l' => if decide (i = j) then Some 0 else S <$> position i l'
  end.

Definition kind (root x : ASTNodeType) : option nat :=
  position (ident x) (ident <$> concrete_subclasses [] root).

(** [x]'s kind lies in the range whose bounds are the kinds of [first] and
    [last]. *)
Definition in_kind_range (root : ASTNodeType)
    (bounds : ASTNodeType * ASTNodeType) (x : ASTNodeType) : Prop :=
  exists f l k,
    kind root bounds.1 = Some f /\ kind root bounds.2 = Some l /\
    kind root x = Some k /\ f <= k <= l.

End Hierarchy.

(** ** langkit.compiled_types: the type repository and derived types *)

Module Repo.

(** Object identity of a Python object ([is]; the default [==] and [hash] of
    [CompiledType], which defines neither [__eq__] nor [__hash__]). *)
Definition ident := nat.

(** [names.Name] is not under src/: a name is represented by its camel-case
    rendering, and [+] on names by concatenation. *)
Definition Name := string.

(** The classes of the compiled types that are modelled. *)
Inductive type_class :=
| cls_CompiledType | cls_ArrayType | cls_StructType | cls_EntityType
| cls_ASTNodeType.

Definition isinstance_BaseStructType (c : type_class) : bool :=
  match c with
  | cls_StructType | cls_EntityType | cls_ASTNodeType => true
  | _ => false
  end.

Definition isinstance_ASTNodeType (c : type_class) : bool :=
  match c with cls_ASTNodeType => true | _ => false end.

(** The attributes of a [CompiledType] instance that the modelled methods
    read or write.  [name] and [dsl_name] hold the values of the properties of
    these names. *)
Record Obj := mkObj {
  cls : type_class;
  name : Name;
  dsl_name : string;
  _element_type : option ident;
  is_list_type : bool;
  is_entity_type : bool;
  _fields : gmap string ident;
  kwless_raw_name : Name;
  _base : option ident;
  is_root_node : bool;
  is_generic_list_type : bool;
  abstract : bool;
  has_abstract_list : bool;
  subclasses : list ident;
  generic_list_type : option ident
}.

(** [class CompiledTypeRepo]: its class attributes.  [type_dict] is a
    reference to a dictionary object: [TypeRepo.__getattr__] captures the
    dictionary itself in the closure it returns, while [reset] binds the
    attribute to a new dictionary. *)
Record CompiledTypeRepo := mkRepo {
  type_dict : ident;
  enum_types : list ident;
  astnode_types : list ident;
  struct_types : list ident;
  pending_list_types : list ident;
  array_types : gset ident;
  root_grammar_class : option ident;
  env_metadata : option ident;
  entity_info : option ident
}.

(** Modelled from the spec: [langkit.utils.memoized] is not under src/.
    The specification states that the derived types are memoized, one
    instance per receiver ("requesting it twice for the same [T] returns the
    same instance"): each memoized property has a cache from the identity of
    the receiver to the instance its first call returned. *)
Record Memo := mkMemo {
  memo_array : gmap ident ident;
  memo_list : gmap ident ident;
  memo_entity : gmap ident ident
}.

Record World := mkWorld {
  repo : CompiledTypeRepo;
  dicts : gmap ident (gmap string ident);
  objects : gmap ident Obj;
  next_ident : ident;
  memo : Memo;
  (** [get_context(True)]: [None] while there is no compile context,
      otherwise its [list_types] set. *)
  ctx_list_types : option (gset ident);
  diag : Diag.World
}.

Definition set_repo (f : CompiledTypeRepo -> CompiledTypeRepo) (w : World) :=
  mkWorld (f (repo w)) (dicts w) (objects w) (next_ident w) (memo w)
          (ctx_list_types w) (diag w).
Definition set_dicts (f : gmap ident (gmap string ident) -> _) (w : World) :=
  mkWorld (repo w) (f (dicts w)) (objects w) (next_ident w) (memo w)
          (ctx_list_types w) (diag w).
Definition set_objects (f : gmap ident Obj -> gmap ident Obj) (w : World) :=
  mkWorld (repo w) (dicts w) (f (objects w)) (next_ident w) (memo w)
          (ctx_list_types w) (diag w).
Definition set_next_ident (n : ident) (w : World) :=
  mkWorld (repo w) (dicts w) (objects w) n (memo w)
          (ctx_list_types w) (diag w).
Definition set_memo (f : Memo -> Memo) (w : World) :=
  mkWorld (repo w) (dicts w) (objects w) (next_ident w) (f (memo w))
          (ctx_list_types w) (diag w).
Definition set_ctx_list_types (f : gset ident -> gset ident) (w : World) :=
  mkWorld (repo w) (dicts w) (objects w) (next_ident w) (memo w)
          (f <$> ctx_list_types w) (diag w).
Definition set_diag (d : Diag.World) (w : World) :=
  mkWorld (repo w) (dicts w) (objects w) (next_ident w) (memo w)
          (ctx_list_types w) d.

(** Running a diagnostics call in the larger state. *)
Definition lift_diag {A} (m : M Diag.World A) : M World A :=
  fun w => let r := m (diag w) in (r.1, set_diag r.2 w).

(** A new Python object: a fresh identity. *)
Definition alloc : M World ident :=
  fun w => (Returns (next_ident w), set_next_ident (S (next_ident w)) w).

(** Reading attributes of an object. *)
Definition get_obj (t : ident) : M World Obj :=
  fun w => match objects w !! t with
           | Some o => (Returns o, w)
           | None => (Raises AttributeError, w)
           end.

Definition update_obj (t : ident) (f : Obj -> Obj) : M World unit :=
  modify (set_objects (alter f t)).

Definition set_fields (fs : gmap string ident) (o : Obj) : Obj :=
  mkObj (cls o) (name o) (dsl_name o) (_element_type o) (is_list_type o) (is_entity_type o)
        fs (kwless_raw_name o) (_base o) (is_root_node o)
        (is_generic_list_type o) (abstract o) (has_abstract_list o)
        (subclasses o) (generic_list_type o).
Definition set_entity (astnode : ident) (dsl : string) (o : Obj) : Obj :=
  mkObj (cls o) (name o) dsl (Some astnode) (is_list_type o) true
        (_fields o) (kwless_raw_name o) (_base o) (is_root_node o)
        (is_generic_list_type o) (abstract o) (has_abstract_list o)
        (subclasses o) (generic_list_type o).
Definition set_subclasses (l : list ident) (o : Obj) : Obj :=
  mkObj (cls o) (name o) (dsl_name o) (_element_type o) (is_list_type o) (is_entity_type o)
        (_fields o) (kwless_raw_name o) (_base o) (is_root_node o)
        (is_generic_list_type o) (abstract o) (has_abstract_list o)
        l (generic_list_type o).
Definition set_generic_list_type (g : option ident) (o : Obj) : Obj :=
  mkObj (cls o) (name o) (dsl_name o) (_element_type o) (is_list_type o) (is_entity_type o)
        (_fields o) (kwless_raw_name o) (_base o) (is_root_node o)
        (is_generic_list_type o) (abstract o) (has_abstract_list o)
        (subclasses o) g.

(** [CompiledTypeRepo.reset()] *)
Definition reset : M World unit :=
  let* d := alloc in
  modify (set_dicts (insert d ∅));;
  modify (set_repo (fun _ => mkRepo d [] [] [] [] ∅ None None None)).

(** Python's [a or b] on strings that may be [None]. *)
Definition py_or (a : option string) (b : string) : string :=
  match a with
  | Some s => if decide (s = EmptyString) then b else s
  | None => b
  end.

(** [CompiledType.__init__]: the attributes are stored and the instance is
    registered; the last statement that matters here is
    [CompiledTypeRepo.type_dict[type_repo_name] = self], with
    [type_repo_name = type_repo_name or dsl_name or name.camel].  [o] carries
    the attribute values the subclass constructors pass or set. *)
Definition CompiledType_init (self : ident) (o : Obj)
    (type_repo_name dsl_name : option string) : M World unit :=
  modify (set_objects (insert self o));;
  let type_repo_name := py_or type_repo_name (py_or dsl_name (name o)) in
  let* w := get_state in
  modify (set_dicts (alter (insert type_repo_name self) (type_dict (repo w)))).

(** A direct instantiation [CompiledType(name, ..., element_type=...,
    type_repo_name=..., dsl_name=...)], as [create_builtin_types] performs. *)
Definition plain_obj (c : type_class) (nm : Name) (dsl : string)
    (elt : option ident) : Obj :=
  mkObj c nm dsl elt false false ∅ nm None false false false false [] None.

Definition CompiledType_new (nm : Name) (element_type : option ident)
    (type_repo_name dsl_name : option string) : M World ident :=
  let* self := alloc in
  CompiledType_init self
    (plain_obj cls_CompiledType nm (py_or dsl_name nm) element_type)
    type_repo_name dsl_name;;
  ret self.

(** [ArrayType.__init__(self, name, element_type)]; the stored [name] is the
    value of [ArrayType.name]: [element_type.name + 'Array_Access'], and likewise [dsl_name].  (The
    final [exposed] flag of arrays of characters is not modelled.) *)
Definition ArrayType_new (nm : Name) (element_type : ident) : M World ident :=
  let* elt := get_obj element_type in
  let* self := alloc in
  CompiledType_init self
    (plain_obj cls_ArrayType (name elt +:+ "ArrayAccess")
               (dsl_name elt +:+ ".array") (Some element_type))
    (Some nm) None;;
  modify (set_repo (fun r =>
    mkRepo (type_dict r) (enum_types r) (astnode_types r) (struct_types r)
           (pending_list_types r) ({[self]} ∪ array_types r)
           (root_grammar_class r) (env_metadata r) (entity_info r)));;
  ret self.

(** Modelled from the spec: the wrapper [langkit.utils.memoized] puts around
    a property.  A cached instance is returned as it is; otherwise the
    property's body runs and its result is cached for the receiver. *)
Definition memoized (cache : Memo -> gmap ident ident)
    (store : ident -> ident -> Memo -> Memo)
    (body : ident -> M World ident) (self : ident) : M World ident :=
  let* w := get_state in
  match cache (memo w) !! self with
  | Some result => ret result
  | None =>
      let* result := body self in
      modify (set_memo (store self result));;
      ret result
  end.

Definition store_array (self r : ident) (m : Memo) : Memo :=
  mkMemo (<[self := r]> (memo_array m)) (memo_list m) (memo_entity m).
Definition store_list (self r : ident) (m : Memo) : Memo :=
  mkMemo (memo_array m) (<[self := r]> (memo_list m)) (memo_entity m).
Definition store_entity (self r : ident) (m : Memo) : Memo :=
  mkMemo (memo_array m) (memo_list m) (<[self := r]> (memo_entity m)).

(** [CompiledType.array] *)
Definition array : ident -> M World ident :=
  memoized memo_array store_array
    (fun self =>
       let* o := get_obj self in
       ArrayType_new (name o +:+ "ArrayType") self).


Definition append_struct_types (self : ident) (r : CompiledTypeRepo) :=
  mkRepo (type_dict r) (enum_types r) (astnode_types r)
         (struct_types r ++ [self]) (pending_list_types r) (array_types r)
         (root_grammar_class r) (env_metadata r) (entity_info r).
Definition append_astnode_types (self : ident) (r : CompiledTypeRepo) :=
  mkRepo (type_dict r) (enum_types r) (astnode_types r ++ [self])
         (struct_types r) (pending_list_types r) (array_types r)
         (root_grammar_class r) (env_metadata r) (entity_info r).
Definition append_pending_list_types (self : ident) (r : CompiledTypeRepo) :=
  mkRepo (type_dict r) (enum_types r) (astnode_types r)
         (struct_types r) (pending_list_types r ++ [self]) (array_types r)
         (root_grammar_class r) (env_metadata r) (entity_info r).
Definition set_root_grammar_class (self : ident) (r : CompiledTypeRepo) :=
  mkRepo (type_dict r) (enum_types r) (astnode_types r)
         (struct_types r) (pending_list_types r) (array_types r)
         (Some self) (env_metadata r) (entity_info r).
Definition set_entity_info (self : ident) (r : CompiledTypeRepo) :=
  mkRepo (type_dict r) (enum_types r) (astnode_types r)
         (struct_types r) (pending_list_types r) (array_types r)
         (root_grammar_class r) (env_metadata r) (Some self).

(** [CompiledType._init_fields]: [self._fields[f_v._name.lower] = f_v] for
    each field, in order. *)
Definition _init_fields (self : ident) (fields : list (string * ident))
  : M World unit :=
  for_each fields (fun f =>
    update_obj self (fun o => set_fields (<[f.1 := f.2]> (_fields o)) o)).

Section Constructors.

(** [langkit.common.is_keyword] is not under src/. *)
Variable is_keyword : Name -> bool.

Definition kwless (nm : Name) : Name :=
  if is_keyword nm then nm +:+ "Node" else nm.

(** [StructType.__init__(self, name, location, doc, fields, **kwargs)],
    through [BaseStructType.__init__]: the instance is registered under
    [name.camel]. *)
Definition StructType_init (self : ident) (c : type_class) (nm : Name)
    (fields : list (string * ident)) : M World unit :=
  let internal_name := kwless ("Internal" +:+ nm) in
  CompiledType_init self (plain_obj c internal_name nm None)
                    (Some nm) (Some nm);;
  _init_fields self fields;;
  modify (set_repo (append_struct_types self)).

(** [ASTNodeType.entity_info(self)]: the manual memoization of the entity
    info struct in [CompiledTypeRepo.entity_info].  The three [BuiltinField]
    objects are created before the struct. *)
Definition entity_info_ (self : ident) : M World ident :=
  let* w := get_state in
  match entity_info (repo w) with
  | Some info => ret info
  | None =>
      let* md := alloc in
      let* rebindings := alloc in
      let* from_rebound := alloc in
      let* info := alloc in
      StructType_init info cls_StructType "EntityInfo"
        [("md", md); ("rebindings", rebindings);
         ("from_rebound", from_rebound)];;
      modify (set_repo (set_entity_info info));;
      ret info
  end.

(** [EntityType.__init__(self, astnode)] *)
Definition EntityType_new (astnode : ident) : M World ident :=
  let* self := alloc in
  let* node := get_obj astnode in
  let nm := if is_root_node node then "Entity"
            else "Entity" +:+ kwless_raw_name node in
  let* node_field := alloc in
  let* info := entity_info_ astnode in
  let* info_field := alloc in
  StructType_init self cls_EntityType nm
    [("node", node_field); ("info", info_field)];;
  update_obj self (set_entity astnode (dsl_name node +:+ ".entity"));;
  ret self.

(** [ASTNodeType.entity] *)
Definition entity : ident -> M World ident :=
  memoized memo_entity store_entity EntityType_new.

(** A field passed to [ASTNodeType.__init__]: the field object and what the
    check on user fields reads of it. *)
Record FieldDecl := mkFieldDecl {
  fd_obj : ident;
  fd_is_user_field : bool;
  fd_is_builtin : bool;
  fd_is_private : bool
}.

(** The arguments of [ASTNodeType.__init__] that are modelled;
    [generic_list_type_name] stands for [annotations.generic_list_type]. *)
Record NodeArgs := mkNodeArgs {
  a_name : Name;
  a_base : option ident;
  a_fields : list (string * FieldDecl);
  a_element_type : option ident;
  a_is_generic_list_type : bool;
  a_is_abstract : bool;
  a_has_abstract_list : bool;
  a_dsl_name : option string;
  a_generic_list_type_name : option Name
}.

(** [ASTNodeType.builtin_properties()]: the built-in fields of the root. *)
Variable builtin_properties : list (string * FieldDecl).

(** [ASTNodeType.__init__].  [new_node] is the constructor itself, for the
    one nested instantiation: the root node creates its generic list type,
    whose [base] is not [None].  The association of overriding parse fields
    (modelled in [Precise]), the processing of annotations and the
    environment specification are left out. *)
Definition ASTNodeType_init (new_node : NodeArgs -> M World ident)
    (args : NodeArgs) : M World ident :=
  let* self := alloc in
  let raw_name := a_name args in
  let kwless_raw_name := kwless raw_name in
  let nm := "Bare" +:+ kwless_raw_name in
  let is_root := bool_decide (a_base args = None) in
  let* base_attrs :=
    match a_base args with
    | Some b => let* o := get_obj b in ret (Some o)
    | None => ret None
    end in
  let is_root_list :=
    match base_attrs with Some b => is_generic_list_type b | None => false end in
  let is_list :=
    match base_attrs with
    | Some b => is_root_list || is_list_type b
    | None => false
    end in
  let* typing :=
    if is_root_list then
      match a_element_type args with
      | None => raise AttributeError
      | Some e =>
          let* eo := get_obj e in
          if isinstance_ASTNodeType (cls eo)
          then ret (Some e, a_is_abstract args || has_abstract_list eo)
          else raise AssertionError
      end
    else
      match a_element_type args with
      | Some _ => raise AssertionError
      | None =>
          ret (if is_list
               then match base_attrs with
                    | Some b => _element_type b
                    | None => None
                    end
               else None,
               a_is_abstract args)
      end in
  let '(element_type, is_abstract) := typing in
  CompiledType_init self
    (mkObj cls_ASTNodeType (kwless nm) (py_or (a_dsl_name args) raw_name)
           element_type is_list false ∅
           kwless_raw_name (a_base args) is_root
           (a_is_generic_list_type args)
           (is_abstract || is_root || a_is_generic_list_type args)
           (a_has_abstract_list args) [] None)
    (Some raw_name) (Some (py_or (a_dsl_name args) raw_name));;
  (if is_root then modify (set_repo (set_root_grammar_class self))
   else ret tt);;
  modify (set_repo (append_astnode_types self));;
  let fields := if is_root then builtin_properties ++ a_fields args
                else a_fields args in
  _init_fields self ((fun f => (f.1, fd_obj f.2)) <$> fields);;
  for_each fields (fun f =>
    lift_diag (Diag.check_source_language
      (negb (fd_is_user_field f.2) || fd_is_builtin f.2 || fd_is_private f.2)
      "UserField on nodes must be private" Diag.error true false));;
  match a_base args with
  | Some b =>
      update_obj b (fun o => set_subclasses (subclasses o ++ [self]) o)
  | None =>
      let generic_list_type_name :=
        match a_generic_list_type_name args with
        | Some n => n
        | None => kwless_raw_name +:+ "BaseList"
        end in
      let* g := new_node (mkNodeArgs generic_list_type_name (Some self) []
                                     None true true false None None) in
      update_obj self (set_generic_list_type (Some g))
  end;;
  let* entity_type := entity self in
  ret self.

Definition ASTNodeType_new : NodeArgs -> M World ident :=
  ASTNodeType_init (ASTNodeType_init (fun _ => raise AssertionError)).

(** [ASTNodeType.list] *)
Definition list_ : ident -> M World ident :=
  memoized memo_list store_list
    (fun self =>
       let* o := get_obj self in
       let* w := get_state in
       let* root :=
         match root_grammar_class (repo w) with
         | Some r => get_obj r
         | None => raise AttributeError
         end in
       let* result :=
         ASTNodeType_new
           (mkNodeArgs (kwless_raw_name o +:+ "List") (generic_list_type root)
                       [] (Some self) false false false
                       (Some (dsl_name o +:+ ".list")) None) in
       let* r := get_obj result in
       let* w := get_state in
       match ctx_list_types w, _element_type r with
       | Some _, Some e => modify (set_ctx_list_types (fun s => {[e]} ∪ s))
       | Some _, None => ret tt
       | None, _ => modify (set_repo (append_pending_list_types result))
       end;;
       ret result).

End Constructors.


(** *** [TypeRepo] and deferred references *)

(** What a deferred reference can resolve to: a compiled type, a field or
    property of a struct or node type, the bound method [new] of a type, any
    other Python value, or [None]. *)
Inductive Value :=
| VType (t : ident)
| VField (f : ident)
| VBoundNew (t : ident)
| VOther (v : nat)
| VNone.

(** [class TypeRepo.Defer]: [getter] is a closure, a computation on the state
    of the repository. *)
Record Defer := mkDefer {
  getter : M World Value;
  label : string
}.

(** [Defer.get] *)
Definition Defer_get (self : Defer) : M World Value := getter self.

(** An argument of a call, with the text [str] gives for it. *)
Record Arg := mkArg {
  arg_value : Value;
  arg_str : string
}.

(** The closure [resolve] of [TypeRepo.__getattr__]: a lookup in the
    dictionary [type_dict] the closure captured; a missing name is a
    diagnostic error (the suggested close matches are left out of the
    message). *)
Definition resolve (type_dict : ident) (type_name : string) : M World Value :=
  let* w := get_state in
  match dicts w !! type_dict with
  | None => raise KeyError
  | Some d =>
      match d !! type_name with
      | Some t => ret (VType t)
      | None =>
          lift_diag (Diag.check_source_language false
                       ("Invalid type name: " +:+ type_name)
                       Diag.error true false);;
          ret VNone
      end
  end.

(** What [TypeRepo.__getattr__] returns: the type itself, or a [Defer]. *)
Inductive TypeRef :=
| Resolved (t : ident)
| Deferred (d : Defer).

(** [TypeRepo.__getattr__(self, type_name)] *)
Definition TypeRepo_getattr (type_name : string) : M World TypeRef :=
  let* w := get_state in
  let type_dict := type_dict (repo w) in
  match dicts w !! type_dict with
  | None => raise KeyError
  | Some d =>
      match d !! type_name with
      | None => ret (Deferred (mkDefer (resolve type_dict type_name) type_name))
      | Some result =>
          let* o := get_obj result in
          if isinstance_ASTNodeType (cls o)
          then ret (Deferred (mkDefer (resolve type_dict type_name) type_name))
          else ret (Resolved result)
      end
  end.

Section Deferred.

Variable is_keyword : Name -> bool.
Variable builtin_properties : list (string * FieldDecl).

(** Attribute access and calls on Python values that are not modelled
    (attributes other than [array], [list], [entity], [new] on types that are
    not structs or nodes; calling the value a reference resolved to). *)
Variable py_getattr : Value -> string -> M World Value.
Variable py_call : Value -> list Arg -> list (string * Arg) -> M World Value.

(** [getattr(prefix, name)] *)
Definition getattr (prefix : Value) (name : string) : M World Value :=
  match prefix with
  | VType t =>
      if decide (name = "array") then
        let* a := array t in ret (VType a)
      else if decide (name = "list") then
        let* o := get_obj t in
        if isinstance_ASTNodeType (cls o)
        then let* l := list_ is_keyword builtin_properties t in ret (VType l)
        else raise AttributeError
      else if decide (name = "entity") then
        let* o := get_obj t in
        if isinstance_ASTNodeType (cls o)
        then let* e := entity is_keyword t in ret (VType e)
        else raise AttributeError
      else if decide (name = "new") then ret (VBoundNew t)
      else py_getattr prefix name
  | _ => py_getattr prefix name
  end.

Definition derived_attribute (name : string) : bool :=
  bool_decide (name ∈ ["array"; "list"; "entity"; "new"]).

(** The closure [get] of [Defer.__getattr__] *)
Definition getattr_closure (self : Defer) (name : string) : M World Value :=
  let* prefix := Defer_get self in
  let* struct :=
    match prefix with
    | VType t =>
        let* o := get_obj t in
        ret (if isinstance_BaseStructType (cls o) then Some o else None)
    | _ => ret None
    end in
  match struct with
  | Some o =>
      if derived_attribute name then getattr prefix name
      else
        match _fields o !! name with
        | Some f => ret (VField f)
        | None =>
            lift_diag (Diag.check_source_language false
                         (dsl_name o +:+ " has no '" +:+ name
                                     +:+ "' attribute")
                         Diag.error true false);;
            ret VNone
        end
  | None => getattr prefix name
  end.

(** [Defer.__getattr__(self, name)] *)
Definition Defer_getattr (self : Defer) (name : string) : Defer :=
  mkDefer (getattr_closure self name) (label self +:+ "." +:+ name).

(** [Defer.__call__(self, *args, **kwargs)] *)
Definition Defer_call (self : Defer) (args : list Arg)
    (kwargs : list (string * Arg)) : Defer :=
  let label_args :=
    (arg_str <$> args)
    ++ ((fun kw => kw.1 +:+ "=" +:+ arg_str kw.2) <$> kwargs) in
  mkDefer (let* f := Defer_get self in py_call f args kwargs)
          (label self +:+ "(" +:+ String.concat ", " label_args +:+ ")").

End Deferred.

(** *** Sequences of operations on the repository *)

(** The operations of this module, as the declaration of a language and the
    later passes invoke them, in any order. *)
Inductive op :=
| OpArray (t : ident)
| OpList (t : ident)
| OpEntity (t : ident)
| OpEntityInfo (t : ident)
| OpNewType (nm : Name) (element_type : option ident)
            (type_repo_name dsl_name : option string)
| OpNewStruct (nm : Name) (fields : list (string * ident))
| OpNewNode (args : NodeArgs)
| OpLookup (type_name : string)
| OpResolve (type_dict : ident) (type_name : string)
| OpReset.

Section Operations.

Variable is_keyword : Name -> bool.
Variable builtin_properties : list (string * FieldDecl).

Definition exec (o : op) : M World unit :=
  match o with
  | OpArray t => array t;; ret tt
  | OpList t => list_ is_keyword builtin_properties t;; ret tt
  | OpEntity t => entity is_keyword t;; ret tt
  | OpEntityInfo t => entity_info_ is_keyword t;; ret tt
  | OpNewType nm e trn dsl => CompiledType_new nm e trn dsl;; ret tt
  | OpNewStruct nm fields =>
      let* self := alloc in
      StructType_init is_keyword self cls_StructType nm fields
  | OpNewNode args => ASTNodeType_new is_keyword builtin_properties args;; ret tt
  | OpLookup type_name => TypeRepo_getattr type_name;; ret tt
  | OpResolve td type_name => resolve td type_name;; ret tt
  | OpReset => reset
  end.

(** The state after a sequence of operations, whether they raised or not. *)
Definition run (ops : list op) (w : World) : World :=
  foldl (fun w o => (exec o w).2) w ops.

End Operations.

(** The type registered under a name in the current dictionary
    ([CompiledTypeRepo.type_dict.get(type_name)]). *)
Definition registered (w : World) (type_name : string) : option ident :=
  d ← dicts w !! type_dict (repo w); d !! type_name.

(** The state of a fresh process: an empty repository, no compile context,
    nothing printed. *)
Definition initial : World :=
  mkWorld (mkRepo 0 [] [] [] [] ∅ None None None) {[0 := ∅]} ∅ 1
          (mkMemo ∅ ∅ ∅) None (Diag.mkWorld false false []).

End Repo.

(** ** langkit.compiled_types: precise types of parse fields and list nodes *)

Module Precise.

Definition ident := nat.

Section WithTypeSet.

(** [langkit.utils.types.TypeSet] is not under src/: the type of type sets
    and the three operations the pass uses are parameters.  [TypeSet_of ts]
    is [TypeSet(ts)], [update a b] is the content of [a] after
    [a.update(b)], and [truthy a] is the truth value of [a] in a condition. *)
Context {TypeSet : Type}.
Variable TypeSet_of : list ident -> TypeSet.
Variable update : TypeSet -> TypeSet -> TypeSet.
Variable truthy : TypeSet -> bool.

(** What the pass reads of a parser: [precise_types] and
    [precise_element_types]. *)
Record Parser := mkParser {
  p_precise_types : TypeSet;
  p_precise_element_types : TypeSet
}.

(** What the pass reads of the (resolved) type of a field. *)
Record FieldType := mkFieldType {
  ty_ident : ident;
  is_list_type : bool;
  element_type : option ident
}.

(** A parse field ([class Field]) with the fields that override it: the
    [overriding] setter appends each overriding field to the
    [_concrete_fields] of the one abstract field it overrides, so the fields
    form a forest.  [f_type] is [None] while the field has no type. *)
#[local] Unset Elimination Schemes.
Inductive Field := mkField {
  f_ident : ident;
  f_type : option FieldType;
  null : bool;
  abstract : bool;
  struct_synthetic : bool;
  _overriding_computed : bool;
  parsers_from_transform : list Parser;
  _concrete_fields : list Field
}.

(** An [ASTNodeType], with what [compute_precise_fields_types] reads:
    [list_element_parsers] is [None] for the nodes that are not lists;
    [parse_fields] is [get_parse_fields(include_inherited=False)]. *)
Inductive ASTNodeType := mkNode {
  n_ident : ident;
  is_list : bool;
  subclasses : list ASTNodeType;
  list_element_parsers : option (list Parser);
  parse_fields : list Field
}.
#[local] Set Elimination Schemes.

(** The caches the pass fills: [Field._precise_types] and
    [Field._precise_element_types] by field, and
    [ASTNodeType.precise_list_element_types] by node (a missing key is
    [None]); and the number of [TypeSet] objects constructed so far. *)
Record State := mkState {
  _precise_types : gmap ident TypeSet;
  _precise_element_types : gmap ident TypeSet;
  precise_list_element_types : gmap ident TypeSet;
  typesets_created : nat
}.

(** [TypeSet(types)]: a new object. *)
Definition new_TypeSet (types : list ident) : M State TypeSet :=
  fun st =>
    (Returns (TypeSet_of types),
     mkState (_precise_types st) (_precise_element_types st)
             (precise_list_element_types st) (S (typesets_created st))).

(** [Field.precise_types] *)
Definition precise_types (self : Field) : M State TypeSet :=
  fun st =>
    match _precise_types st !! f_ident self with
    | Some ts => (Returns ts, st)
    | None => (Raises AssertionError, st)
    end.

(** [Field.precise_element_types] *)
Definition precise_element_types (self : Field) : M State TypeSet :=
  fun st =>
    match f_type self with
    | None => (Raises AttributeError, st)
    | Some ty =>
        if is_list_type ty then
          match _precise_element_types st !! f_ident self with
          | Some ts => (Returns ts, st)
          | None => (Raises AssertionError, st)
          end
        else (Raises AssertionError, st)
    end.

(** [self._precise_types = types; self._precise_element_types = etypes] *)
Definition assign_precise_types (self : ident) (types : TypeSet)
    (etypes : option TypeSet) : M State unit :=
  modify (fun st =>
    mkState (<[self := types]> (_precise_types st))
            (match etypes with
             | Some e => <[self := e]> (_precise_element_types st)
             | None => delete self (_precise_element_types st)
             end)
            (precise_list_element_types st) (typesets_created st)).

(** [types = TypeSet([self.type])] and, for a list,
    [etypes = TypeSet([self.type.element_type])]. *)
Definition declared_type_sets (ty : FieldType)
  : M State (TypeSet * option TypeSet) :=
  let* types := new_TypeSet [ty_ident ty] in
  if is_list_type ty then
    match element_type ty with
    | None => raise AssertionError
    | Some e => let* etypes := new_TypeSet [e] in ret (types, Some etypes)
    end
  else ret (types, None).

(** [types = TypeSet()] and, for a list, [etypes = TypeSet()]. *)
Definition empty_type_sets (ty : FieldType)
  : M State (TypeSet * option TypeSet) :=
  let* types := new_TypeSet [] in
  if is_list_type ty then
    let* etypes := new_TypeSet [] in ret (types, Some etypes)
  else ret (types, None).

(** [Field._compute_precise_types] *)
Fixpoint _compute_precise_types (self : Field) {struct self} : M State unit :=
  match self with
  | mkField self_ident type null abstract synthetic overriding_computed
            parsers_from_transform concrete_fields =>
  match type with
  | None => raise AttributeError
  | Some ty =>
      let* sets :=
        if null then declared_type_sets ty
        else if abstract then
          let* sets := empty_type_sets ty in
          if negb overriding_computed then raise AssertionError
          else
            fold_m concrete_fields sets (fun sets f =>
              _compute_precise_types f;;
              let* ft := precise_types f in
              match sets.2 with
              | Some etypes =>
                  let* fe := precise_element_types f in
                  ret (update sets.1 ft, Some (update etypes fe))
              | None => ret (update sets.1 ft, None)
              end)
        else if synthetic then declared_type_sets ty
        else
          let* sets := empty_type_sets ty in
          fold_m parsers_from_transform sets (fun sets p =>
            ret (update sets.1 (p_precise_types p),
                 match sets.2 with
                 | Some etypes => Some (update etypes (p_precise_element_types p))
                 | None => None
                 end))
      in
      assign_precise_types self_ident sets.1 sets.2
  end
  end.

(** The node's [precise_list_element_types] attribute and the local [types]
    of [compute_precise_fields_types] are one object: an update of [types] is
    an update of the attribute. *)
Definition set_list_element_types (self : ident) (ts : TypeSet)
  : M State unit :=
  modify (fun st =>
    mkState (_precise_types st) (_precise_element_types st)
            (<[self := ts]> (precise_list_element_types st))
            (typesets_created st)).

(** [types.update(other)] on that object; updating with [None] (the
    attribute of a node whose set was never created) is an error. *)
Definition update_list_element_types (self : ident)
    (other : option TypeSet) : M State unit :=
  let* st := get_state in
  match precise_list_element_types st !! self, other with
  | Some ts, Some o => set_list_element_types self (update ts o)
  | _, _ => raise AttributeError
  end.

(** [ASTNodeType.compute_precise_fields_types] *)
Fixpoint compute_precise_fields_types (self : ASTNodeType) {struct self}
  : M State unit :=
  match self with
  | mkNode self_ident is_list subclasses list_element_parsers parse_fields =>
  if is_list then
    let* st := get_state in
    let computed :=
      match precise_list_element_types st !! self_ident with
      | Some ts => truthy ts
      | None => false
      end in
    if computed then ret tt
    else
      let* types := new_TypeSet [] in
      set_list_element_types self_ident types;;
      for_each subclasses (fun subcls =>
        compute_precise_fields_types subcls;;
        let* st := get_state in
        update_list_element_types self_ident
          (precise_list_element_types st !! n_ident subcls));;
      match list_element_parsers with
      | None => raise AttributeError
      | Some parsers =>
          for_each parsers (fun p =>
            update_list_element_types self_ident (Some (p_precise_types p)))
      end
  else
    for_each parse_fields _compute_precise_types
  end.

(** *** What the pass computes, as functions of the fields and nodes *)

(** The fields whose caches [_compute_precise_types] sets when it is called
    on [f]: [f] itself and, when [f] is abstract, the fields that override
    it, directly or not. *)
Fixpoint all_fields (f : Field) : list Field :=
  match f with
  | mkField _ _ null abstract _ _ _ concrete_fields =>
      f :: (if negb null && abstract
            then mjoin (all_fields <$> concrete_fields) else [])
  end.

(** A node type and its direct and indirect subclasses. *)
Fixpoint all_nodes (n : ASTNodeType) : list ASTNodeType :=
  n :: mjoin (all_nodes <$> subclasses n).

(** The two sets of a field, read off the field: the contents of
    [_precise_types] and [_precise_element_types] after a successful
    [_compute_precise_types]. *)
Definition initial_sets (declared : bool) (ty : FieldType)
  : TypeSet * option TypeSet :=
  (TypeSet_of (if declared then [ty_ident ty] else []),
   if is_list_type ty
   then Some (TypeSet_of (if declared then option_list (element_type ty)
                          else []))
   else None).

Fixpoint sets_of (f : Field) : TypeSet * option TypeSet :=
  match f with
  | mkField _ type null abstract synthetic _ parsers concrete_fields =>
      match type with
      | None => (TypeSet_of [], None)
      | Some ty =>
          if null then initial_sets true ty
          else if abstract then
            foldl (fun sets c =>
                     (update sets.1 (sets_of c).1,
                      match sets.2 with
                      | Some e =>
                          Some (update e (default (TypeSet_of [])
                                                  (sets_of c).2))
                      | None => None
                      end))
                  (initial_sets false ty) concrete_fields
          else if synthetic then initial_sets true ty
          else
            foldl (fun sets p =>
                     (update sets.1 (p_precise_types p),
                      match sets.2 with
                      | Some e => Some (update e (p_precise_element_types p))
                      | None => None
                      end))
                  (initial_sets false ty) parsers
      end
  end.

(** The caches hold the sets of the field [g]. *)
Definition cached (st : State) (g : Field) : Prop :=
  _precise_types st !! f_ident g = Some (sets_of g).1
  /\ _precise_element_types st !! f_ident g = (sets_of g).2.

(** The conditions on a field under which [_compute_precise_types] raises
    nothing: they do not depend on the state. *)
Definition is_list_field (f : Field) : Prop :=
  exists ty, f_type f = Some ty /\ is_list_type ty = true.

Fixpoint computable (f : Field) : Prop :=
  match f with
  | mkField _ type null abstract synthetic overriding_computed _ cs =>
      match type with
      | None => False
      | Some ty =>
          if null || (negb abstract && synthetic)
          then is_list_type ty = true -> is_Some (element_type ty)
          else if abstract then
            overriding_computed = true
            /\ (fix all (cs : list Field) : Prop :=
                  match cs with
                  | [] => True
                  | c :: cs' =>
                      computable c
                      /\ (is_list_type ty = true -> is_list_field c)
                      /\ all cs'
                  end) cs
          else True
      end
  end.

(** Two states with the same caches (they may differ in the number of
    [TypeSet] objects constructed). *)
Definition same_caches (st st' : State) : Prop :=
  _precise_types st' = _precise_types st
  /\ _precise_element_types st' = _precise_element_types st
  /\ precise_list_element_types st' = precise_list_element_types st.

(** [st'] has the caches of [st], except for the fields [ids]. *)
Definition agree_outside (ids : list ident) (st st' : State) : Prop :=
  (forall i, i ∉ ids ->
     _precise_types st' !! i = _precise_types st !! i
     /\ _precise_element_types st' !! i = _precise_element_types st !! i)
  /\ precise_list_element_types st' = precise_list_element_types st.

(** [st'] has the caches of [st], except for the sets of the list nodes
    [ids]. *)
Definition agree_lists_outside (ids : list ident) (st st' : State) : Prop :=
  (forall i, i ∉ ids ->
     precise_list_element_types st' !! i = precise_list_element_types st !! i)
  /\ _precise_types st' = _precise_types st
  /\ _precise_element_types st' = _precise_element_types st.

(** One turn of the loop over the overriding fields, and of the loop over
    the parsers, on the sets themselves. *)
Definition add_field_sets (sets : TypeSet * option TypeSet) (c : Field)
  : TypeSet * option TypeSet :=
  (update sets.1 (sets_of c).1,
   match sets.2 with
   | Some e => Some (update e (default (TypeSet_of []) (sets_of c).2))
   | None => None
   end).

Definition add_parser_sets (sets : TypeSet * option TypeSet) (p : Parser)
  : TypeSet * option TypeSet :=
  (update sets.1 (p_precise_types p),
   match sets.2 with
   | Some e => Some (update e (p_precise_element_types p))
   | None => None
   end).

(** The set of a list node, from the sets of its subclasses in the state and
    its own parsers. *)
Definition list_set (st : State) (subs : list ASTNodeType)
    (parsers : list Parser) : TypeSet :=
  foldl update
    (foldl (fun acc c =>
              update acc (default (TypeSet_of [])
                            (precise_list_element_types st !! n_ident c)))
           (TypeSet_of []) subs)
    (p_precise_types <$> parsers).

(** The set of the list node [n] is computed and, where a further pass would
    compute it again, it is the set that pass would compute. *)
Fixpoint settled (st : State) (n : ASTNodeType) : Prop :=
  match n with
  | mkNode self_ident is_list subs list_element_parsers _ =>
      is_list = true
      /\ exists ts,
          precise_list_element_types st !! self_ident = Some ts
          /\ (truthy ts = true
              \/ exists parsers,
                  list_element_parsers = Some parsers
                  /\ (fix all (l : list ASTNodeType) : Prop :=
                        match l with
                        | [] => True
                        | c :: l' => settled st c /\ all l'
                        end) subs
                  /\ ts = list_set st subs parsers)
  end.

(** The subclasses of a list node are list nodes. *)
Fixpoint list_closed (n : ASTNodeType) : Prop :=
  match n with
  | mkNode _ self_is_list subs _ _ =>
      (fix all (l : list ASTNodeType) : Prop :=
         match l with
         | [] => True
         | c :: l' =>
             (self_is_list = true -> is_list c = true)
             /\ list_closed c /\ all l'
         end) subs
  end.

(** The fields of the forests below the parse fields of a node. *)
Definition node_fields (n : ASTNodeType) : list Field :=
  mjoin (all_fields <$> parse_fields n).

End WithTypeSet.

End Precise.

(** ** langkit.diagnostics: warnings and type checks *)

Module Warnings.

(** The instances of [WarningDescriptor] that [WarningSet] declares: each is
    one object, compared and hashed by identity. *)
Inductive WarningDescriptor :=
| prop_only_entities
| unused_bindings
| unparser_bad_grammar
| unused_node_type
| undocumented_public_properties
| undocumented_nodes
| imprecise_field_type_annotations.

#[global] Instance WarningDescriptor_eq_dec : EqDecision WarningDescriptor.
Proof. solve_decision. Defined.

Definition descriptor_index (w : WarningDescriptor) : nat :=
  match w with
  | prop_only_entities => 0
  | unused_bindings => 1
  | unparser_bad_grammar => 2
  | unused_node_type => 3
  | undocumented_public_properties => 4
  | undocumented_nodes => 5
  | imprecise_field_type_annotations => 6
  end.

(** [WarningSet.available_warnings] *)
Definition available_warnings : list WarningDescriptor :=
  [prop_only_entities; unused_bindings; unparser_bad_grammar;
   unused_node_type; undocumented_public_properties; undocumented_nodes;
   imprecise_field_type_annotations].

#[global] Instance WarningDescriptor_countable : Countable WarningDescriptor.
Proof.
  refine (inj_countable' descriptor_index
            (fun n => default prop_only_entities (available_warnings !! n)) _).
  by intros [].
Defined.

(** [WarningDescriptor.name] *)
Definition name (w : WarningDescriptor) : string :=
  match w with
  | prop_only_entities => "prop-only-entities"
  | unused_bindings => "unused-bindings"
  | unparser_bad_grammar => "unparser-bad-grammar"
  | unused_node_type => "unused-node-type"
  | undocumented_public_properties => "undocumented-public-properties"
  | undocumented_nodes => "undocumented-nodes"
  | imprecise_field_type_annotations => "imprecise-field-type-annotations"
  end.

(** [WarningDescriptor.enabled_by_default] *)
Definition enabled_by_default (w : WarningDescriptor) : bool :=
  match w with
  | unparser_bad_grammar => false
  | _ => true
  end.

(** The [WarningSet] objects, by identity: the [enabled_warnings] set of
    each, and the identity of the next object. *)
Record Heap := mkHeap {
  sets : gmap nat (gset WarningDescriptor);
  next_set : nat
}.

(** A call on warning sets returns a value and the new heap, or raises
    [ValueError] ([None]); the heap a raising call leaves is given by the
    functions below where it matters. *)

(** [WarningSet.lookup(self, name)]: [None] stands for [ValueError]. *)
Definition lookup (nm : string) : option WarningDescriptor :=
  List.find (fun w => bool_decide (name w = nm)) available_warnings.

(** An argument [warning]: a descriptor or the name of one. *)
Definition resolve_warning (warning : WarningDescriptor + string)
  : option WarningDescriptor :=
  match warning with
  | inl w => Some w
  | inr nm => lookup nm
  end.

(** [WarningSet()] *)
Definition WarningSet_new (h : Heap) : nat * Heap :=
  (next_set h,
   mkHeap (<[next_set h :=
              list_to_set (filter (fun w => enabled_by_default w = true)
                                  available_warnings)]> (sets h))
          (S (next_set h))).

(** [WarningSet.enable(self, warning)]: [None] when [lookup] raises. *)
Definition enable (self : nat) (warning : WarningDescriptor + string)
    (h : Heap) : option Heap :=
  w ← resolve_warning warning;
  Some (mkHeap (alter (fun s => {[w]} ∪ s) self (sets h)) (next_set h)).

(** [WarningSet.disable(self, warning)] *)
Definition disable (self : nat) (warning : WarningDescriptor + string)
    (h : Heap) : option Heap :=
  w ← resolve_warning warning;
  Some (mkHeap (alter (fun s => s ∖ {[w]}) self (sets h)) (next_set h)).

(** [WarningSet.clone(self)] *)
Definition clone (self : nat) (h : Heap) : nat * Heap :=
  let '(other, h1) := WarningSet_new h in
  (other,
   mkHeap (<[other := default ∅ (sets h1 !! self)]> (sets h1)) (next_set h1)).

(** [WarningSet.with_enabled(self, warning)]: the new set and the heap, or,
    when [enable] raises, the heap the call leaves (the clone exists). *)
Definition with_enabled (self : nat) (warning : WarningDescriptor + string)
    (h : Heap) : (nat * Heap) + Heap :=
  let '(other, h1) := clone self h in
  match enable other warning h1 with
  | Some h2 => inl (other, h2)
  | None => inr h1
  end.

(** [WarningSet.with_disabled(self, warning)] *)
Definition with_disabled (self : nat) (warning : WarningDescriptor + string)
    (h : Heap) : (nat * Heap) + Heap :=
  let '(other, h1) := clone self h in
  match disable other warning h1 with
  | Some h2 => inl (other, h2)
  | None => inr h1
  end.

(** [WarningSet.__contains__(self, warning)] *)
Definition contains (self : nat) (w : WarningDescriptor) (h : Heap) : bool :=
  bool_decide (w ∈ default ∅ (sets h !! self)).

(** [WarningDescriptor.warn_if(self, predicate, message)]; [warnings] is the
    warning set of the current context ([get_context().warnings]). *)
Definition warn_if (h : Heap) (warnings : nat) (self : WarningDescriptor)
    (predicate : bool) (message : string) : M Diag.World unit :=
  let enabled := contains warnings self h in
  Diag.check_source_language (negb enabled || negb predicate) message
                             Diag.warning true false.

(** [check_type(obj, typ, message=None)]: [is_instance] is the outcome of
    [assert_type(obj, typ)], whose [AssertionError] has the message
    [e_message]; the object is returned when the assertion holds. *)
Definition check_type {A} (obj : A) (is_instance : bool)
    (e_message : string) (message : option string)
  : M Diag.World (option A) :=
  if is_instance then ret (Some obj)
  else
    let msg :=
      match message with
      | Some m => if decide (m = EmptyString) then e_message
                  else e_message +:+ String (Ascii.ascii_of_nat 10) m
      | None => e_message
      end in
    Diag.check_source_language false msg Diag.error true false;;
    ret None.

End Warnings.

(** ** langkit.compiled_types: subtyping and unification *)

Module Subtyping.
Import Repo.

(** [itertools.takewhile] *)
Fixpoint takewhile {A} (p : A -> bool) (l : list A) : list A :=
  match l with
  | [] => []
  | x :: l' => if p x then x :: takewhile p l' else []
  end.

(** The tuples [zip] yields for the lists [ls]: one per position, until an argument is
    exhausted; [n] bounds their number. *)
Fixpoint zip_rows {A} (n : nat) (ls : list (list A)) : list (list A) :=
  match n with
  | 0 => []
  | S n' =>
      match mapM head ls with
      | Some row => row :: zip_rows n' (tail <$> ls)
      | None => []
      end
  end.

(** [zip] applied to the lists [ls]; without arguments it yields nothing. *)
Definition py_zip {A} (ls : list (list A)) : list (list A) :=
  match ls with
  | [] => []
  | l :: _ => zip_rows (length l) ls
  end.

(** [len(set(a)) == 1] for a tuple of objects compared by identity. *)
Definition all_same (a : list ident) : bool :=
  match a with
  | [] => false
  | x :: a' => forallb (fun y => bool_decide (y = x)) a'
  end.

Section Types.

(** The objects of the repository. *)
Variable objs : gmap ident Obj.

(** The loop of [ASTNodeType.get_inheritance_chain]: [result] is the list
    built so far.  [None] when the loop reads the [base] of something that
    is not an object, or when the fuel runs out. *)
Fixpoint chain_loop (fuel : nat) (node : option ident) (result : list ident)
  : option (list ident) :=
  match node with
  | None => Some result
  | Some n =>
      match fuel with
      | 0 => None
      | S fuel' =>
          o ← objs !! n;
          chain_loop fuel' (_base o) (result ++ [n])
      end
  end.

(** [ASTNodeType.get_inheritance_chain]: root-most type first.  A base is
    created before its subclasses, so the identity of [self] bounds the
    number of iterations (lemma [get_inheritance_chain_returns]). *)
Definition get_inheritance_chain (self : ident) : option (list ident) :=
  reverse <$> chain_loop (S self) (Some self) [].

(** [ASTNodeType.common_ancestor], called on [nodes]; [None] when a chain cannot be
    computed or when the chains have no common start ([IndexError]). *)
Definition common_ancestor (nodes : list ident) : option ident :=
  chains ← mapM get_inheritance_chain nodes;
  row ← last (takewhile all_same (py_zip chains));
  head row.

Definition is_ast_node (o : Obj) : bool := isinstance_ASTNodeType (cls o).

(** [CompiledType.matches(self, formal)].  The call on the element types of
    two entity types is the one recursive call; [None] when an attribute is
    missing ([element_type] asserts that there is an element type). *)
Fixpoint matches_body (fuel : nat) (self formal : ident) : option bool :=
  match fuel with
  | 0 => None
  | S fuel' =>
      s ← objs !! self;
      f ← objs !! formal;
      if is_entity_type s && is_entity_type f then
        se ← _element_type s;
        fe ← _element_type f;
        matches_body fuel' se fe
      else if is_ast_node f && is_ast_node s then
        chain ← get_inheritance_chain self;
        Some (bool_decide (formal ∈ chain))
      else Some (bool_decide (self = formal))
  end.

Definition matches (self formal : ident) : option bool :=
  matches_body (S self) self formal.

End Types.

Section Unify.

Variable is_keyword : Name -> bool.

(** [str.format] with the keys [self] and [other]. *)
Variable py_format : string -> string -> string -> string.

Definition from_option {A} (x : option A) : M World A :=
  match x with
  | Some a => ret a
  | None => raise AssertionError
  end.

(** [CompiledType.unify(self, other, error_msg=None)] *)
Definition unify (self other : ident) (error_msg : option string)
  : M World ident :=
  let* s := get_obj self in
  let* o := get_obj other in
  if is_entity_type s && is_entity_type o then
    let* se := from_option (_element_type s) in
    let* oe := from_option (_element_type o) in
    let* w := get_state in
    let* c := from_option (common_ancestor (objects w) [se; oe]) in
    entity is_keyword c
  else if is_ast_node s && is_ast_node o then
    let* w := get_state in
    from_option (common_ancestor (objects w) [self; other])
  else
    let* w := get_state in
    let* m := from_option (matches (objects w) self other) in
    lift_diag (Diag.check_source_language m
      (py_format (py_or error_msg "Mismatching types: {self} and {other}")
                 (dsl_name s) (dsl_name o))
      Diag.error true false);;
    ret self.

End Unify.

(** A type's base and element type were created before the type. *)
Definition links_ok (objs : gmap ident Obj) : Prop :=
  forall t o, objs !! t = Some o ->
    (forall b, _base o = Some b -> b < t /\ is_Some (objs !! b))
    /\ (forall e, _element_type o = Some e -> e < t /\ is_Some (objs !! e)).

(** [y] is [x] or one of its direct or indirect bases. *)
Definition is_ancestor (objs : gmap ident Obj) (x y : ident) : Prop :=
  exists chain, get_inheritance_chain objs x = Some chain /\ y ∈ chain.

(** [links_ok], as a test on a given repository. *)
Definition link_okb (objs : gmap ident Obj) (t : ident) (l : option ident)
  : bool :=
  match l with
  | Some b => bool_decide (b < t) && bool_decide (is_Some (objs !! b))
  | None => true
  end.

Definition links_okb (objs : gmap ident Obj) : bool :=
  bool_decide (map_Forall
    (fun t o => link_okb objs t (_base o) && link_okb objs t (_element_type o)
                = true) objs).

(** A small language: the root [Root], its subclasses [Expr] and [Decl],
    [Add] deriving from [Expr], the built-in type [Int], the array type of
    [Root] and the list type of [Expr]. *)
Definition sample_repository : World :=
  run (fun _ => false) []
    [OpNewNode (mkNodeArgs "Root" None [] None false true false None None);
     OpNewNode (mkNodeArgs "Expr" (Some 1) [] None false true false None None);
     OpNewNode (mkNodeArgs "Add" (Some 13) [] None false false false None None);
     OpNewNode (mkNodeArgs "Decl" (Some 1) [] None false false false None None);
     OpNewType "Int" None None None;
     OpArray 1;
     OpList 13]
    initial.

(** [x] is an instance of [ASTNodeType]. *)
Definition is_node (objs : gmap ident Obj) (x : ident) : Prop :=
  exists o, objs !! x = Some o /\ cls o = cls_ASTNodeType
            /\ is_entity_type o = false.

End Subtyping.

(** ** A small instance of the precise-types pass *)

Module PreciseSample.
Import Precise.

(** Type sets as finite sets of type identities. *)
Definition TypeSet := gset ident.
Definition TypeSet_of (l : list ident) : TypeSet := list_to_set l.
Definition update (a b : TypeSet) : TypeSet := a ∪ b.
Definition truthy (a : TypeSet) : bool := negb (bool_decide (a = ∅)).

Definition node_type : FieldType := mkFieldType 10 false None.

(** An abstract field overridden by two concrete fields, each with one
    parser. *)
Definition concrete_a : @Field TypeSet :=
  mkField 2 (Some node_type) false false false false
          [mkParser ({[5]} : TypeSet) (∅ : TypeSet)] [].
Definition concrete_b : @Field TypeSet :=
  mkField 3 (Some node_type) false false false false
          [mkParser ({[6]} : TypeSet) (∅ : TypeSet)] [].
Definition abstract_field : @Field TypeSet :=
  mkField 1 (Some node_type) false true false true [] [concrete_a; concrete_b].

(** A node with that field, and a list node with one list subclass. *)
Definition plain_node : @ASTNodeType TypeSet :=
  mkNode 20 false [] None [abstract_field].
Definition list_node : @ASTNodeType TypeSet :=
  mkNode 30 true
         [mkNode 31 true [] (Some [mkParser ({[6]} : TypeSet) (∅ : TypeSet)]) []]
         (Some [mkParser ({[5]} : TypeSet) (∅ : TypeSet)]) [].

Definition no_sets : @State TypeSet := mkState ∅ ∅ ∅ 0.

End PreciseSample.

(** ** langkit.expressions.collections *)

Module Collections.
Import Repo.

(** The available quantifier kinds, [Quantifier.ALL] and [Quantifier.ANY]. *)
Inductive quantifier_kind := ALL | ANY.

(** A function given to a collection expression.  Functions are compared by
    identity: the two built-in ones of the module, or a function of the
    user. *)
Inductive ExprFn :=
| collection_expr_identity
| collection_expr_none
| user_function (f : nat).

#[global] Instance ExprFn_eq_dec : EqDecision ExprFn.
Proof. solve_decision. Defined.

(** A scope of local variables ([LocalVars.Scope]) and an abstract variable
    ([AbstractVariable]), by identity. *)
Definition Scope := nat.
Definition Var := nat.

(** The resolved expressions this module builds.  [langkit.expressions.base]
    and [langkit.expressions.envs] are not under src/: an expression of one
    of their classes is the constructor call the module makes, with its
    arguments ([make_as_entity] and [convert_node] are functions of these
    modules: what they return is the call itself); [Constructed] is any
    other resolved expression. *)
#[local] Unset Elimination Schemes.
Inductive ResolvedExpression :=
| Constructed (e : nat)
| CallExpr (result_var_name name : string) (type : TypeRef)
           (exprs : list ResolvedExpression)
| SequenceExpr (pre_expr post_expr : ResolvedExpression)
| NullCheckExpr (expr : ResolvedExpression) (implicit_deref : bool)
| FieldAccessExpr (receiver_expr : ResolvedExpression) (field : string)
                  (type : ident)
| UncheckedCastExpr (expr : ResolvedExpression) (dest_type : ident)
| convert_node (expr : ResolvedExpression) (dest_type : ident)
| make_as_entity (expr entity_info : ResolvedExpression)
| Quantifier_Expr (kind : quantifier_kind)
                  (collection expr : ResolvedExpression)
                  (element_vars :
                     list (ResolvedExpression * option ResolvedExpression))
                  (index_var : option ResolvedExpression)
                  (iter_scope : Scope)
| Map_Expr (element_vars :
              list (ResolvedExpression * option ResolvedExpression))
           (index_var : option ResolvedExpression)
           (collection expr : ResolvedExpression) (iter_scope : Scope)
           (filter : option ResolvedExpression) (do_concat : bool)
           (take_while : option ResolvedExpression) (static_type : ident)
| CollectionSingleton_Expr (expr : ResolvedExpression) (static_type : ident).
#[local] Set Elimination Schemes.

(** [ConstructCommonResult] *)
Record ConstructCommonResult := mkCommon {
  collection_expr : ResolvedExpression;
  element_vars : list (ResolvedExpression * option ResolvedExpression);
  index_var : option ResolvedExpression;
  inner_expr : ResolvedExpression;
  inner_scope : Scope
}.

Section Expressions.

(** The state of the modules that are not under src/ (local variable
    scopes, abstract variables, the compile context), beside the state of
    the type repository. *)
Context {E : Type}.

Record State := mkState {
  world : World;
  others : E
}.

(** A call of [langkit.compiled_types] or [langkit.diagnostics]. *)
Definition lift_world {A} (m : M World A) : M State A :=
  fun s => let r := m (world s) in (r.1, mkState r.2 (others s)).

(** What the module uses of the code that is not under src/. *)
Context {AbstractExpression : Type}.

(** [construct(expr)] and [construct(expr, expected_type)] *)
Variable construct :
  AbstractExpression -> option TypeRef -> M State ResolvedExpression.
(** [construct(var)] for an abstract variable. *)
Variable construct_var : Var -> M State ResolvedExpression.
(** [expr.type] *)
Variable rtype : ResolvedExpression -> ident.
(** [expr.destructure_entity()] *)
Variable destructure_entity :
  ResolvedExpression ->
  M State (ResolvedExpression * ResolvedExpression * ResolvedExpression).
(** [PropertyDef.get_scope()]; entering and leaving the block
    [with scope.new_child() as inner_scope] and the block
    [with scope.use()]. *)
Variable get_scope : M State Scope.
Variable new_child_enter : Scope -> M State Scope.
Variable new_child_exit : Scope -> M State unit.
Variable use_enter : Scope -> M State unit.
Variable use_exit : Scope -> M State unit.
(** [AbstractVariable(name, type=type)], [var.set_type(type)],
    [expr.abstract_var.create_local_variable(scope)] and
    [var.add_to_scope(scope)] *)
Variable AbstractVariable : string -> ident -> M State Var.
Variable set_type : Var -> ident -> M State unit.
Variable create_local_variable : ResolvedExpression -> Scope -> M State unit.
Variable add_to_scope : Var -> Scope -> M State unit.
(** [get_context().generic_list_type] and
    [get_context().root_grammar_class] *)
Variable ctx_generic_list_type : M State ident.
Variable ctx_root_grammar_class : M State ident.
(** [scope.parent], and [ComputingExpr.__init__(result_var_name)], which the
    expression classes of this module call in the parent of the iteration
    scope. *)
Variable scope_parent : Scope -> Scope.
Variable ComputingExpr_init : string -> M State unit.
(** [langkit.common.is_keyword], for the names of entity types. *)
Variable is_keyword : Name -> bool.

(** Python's [with]: the exit runs whether the body returns or raises. *)
Definition with_block {A B} (enter : M State A) (exit : A -> M State unit)
    (body : A -> M State B) : M State B :=
  let* a := enter in
  fun s =>
    match body a s with
    | (Returns b, s') => (exit a;; ret b) s'
    | (Raises e, s') => (exit a;; raise e) s'
    end.

(** Reading the attributes of a type. *)
Definition type_obj (t : ident) : M State Obj := lift_world (get_obj t).

(** [typ.element_type]: asserts that there is one. *)
Definition element_type (o : Obj) : M State ident :=
  match _element_type o with
  | Some e => ret e
  | None => raise AssertionError
  end.

(** [typ.astnode], the attribute of an entity type: [EntityType.__init__]
    stores its argument there and in [_element_type]. *)
Definition astnode (o : Obj) : M State ident :=
  match _element_type o with
  | Some a => ret a
  | None => raise AttributeError
  end.

(** [typ.is_collection] *)
Definition is_collection (o : Obj) : bool :=
  bool_decide (_element_type o <> None).

Definition is_ast_node (o : Obj) : bool := isinstance_ASTNodeType (cls o).
Definition is_array_type (o : Obj) : bool :=
  match cls o with cls_ArrayType => true | _ => false end.

(** [typ.is_root_list_type]: the attribute [ASTNodeType.__init__] sets to
    [not is_root and base.is_generic_list_type]. *)
Definition is_root_list_type (o : Obj) : M State bool :=
  match _base o with
  | Some b => let* bo := type_obj b in ret (is_generic_list_type bo)
  | None => ret false
  end.

(** [check_source_language(predicate, message)] *)
Definition check (predicate : bool) (message : string) : M State unit :=
  lift_world (lift_diag
    (Diag.check_source_language predicate message Diag.error true false)).

(** [T.name], used where a type is expected. *)
Definition T_ (type_name : string) : M State TypeRef :=
  lift_world (TypeRepo_getattr type_name).

(** The loop of [canonicalize_list]:
    [while not dest_type.is_root_list_type: dest_type = dest_type.base].
    A base is created before its subclasses, so the identity of the type
    bounds the number of iterations; without fuel the loop has not ended
    (lemma [root_list_loop_returns] shows that it ends). *)
Fixpoint root_list_loop (fuel : nat) (dest_type : option ident)
  : M State (option ident) :=
  match fuel with
  | 0 => ret None
  | S fuel' =>
      match dest_type with
      | None => raise AttributeError
      | Some d =>
          let* o := type_obj d in
          let* root_list := is_root_list_type o in
          if root_list then ret (Some d)
          else root_list_loop fuel' (_base o)
      end
  end.

(** [canonicalize_list(coll_expr, to_root_list=False)]; the result is [None]
    when the loop has not ended. *)
Definition canonicalize_list (coll_expr : ResolvedExpression)
    (to_root_list : bool) : M State (option (ResolvedExpression * ident)) :=
  let* t := type_obj (rtype coll_expr) in
  let* elt := element_type t in
  if is_ast_node t then
    let* dest_type :=
      if to_root_list
      then root_list_loop (S (rtype coll_expr)) (Some (rtype coll_expr))
      else (let* g := ctx_generic_list_type in ret (Some g)) in
    match dest_type with
    | Some d => ret (Some (convert_node coll_expr d, elt))
    | None => ret None
    end
  else ret (Some (coll_expr, elt)).

(** A collection expression after [prepare]: [self.collection],
    [self.expr], [self.element_var], the name of that variable and
    [self.index_var]. *)
Record CollectionExpression := mkCollection {
  collection : AbstractExpression;
  expr : AbstractExpression;
  element_var : Var;
  element_var_name : string;
  index_var_ : option Var
}.

(** [CollectionExpression.construct_common] *)
Definition construct_common (self : CollectionExpression)
  : M State ConstructCommonResult :=
  let* current_scope := get_scope in
  let* collection_expr := construct (collection self) None in
  let* ct := type_obj (rtype collection_expr) in
  let with_entities := is_entity_type ct in
  let* destructured :=
    if with_entities then
      let* d := destructure_entity collection_expr in
      let '(saved_entity_coll_expr, collection_expr, entity_info) := d in
      ret (SequenceExpr saved_entity_coll_expr collection_expr,
           Some entity_info)
    else ret (collection_expr, None) in
  let '(collection_expr, entity_info) := destructured in
  let* ct := type_obj (rtype collection_expr) in
  check (is_collection ct)
        ("Cannot iterate on " +:+ dsl_name ct
         +:+ ", which is not a collection");;
  let* elt_type := element_type ct in
  let* elt_type :=
    if with_entities then lift_world (entity is_keyword elt_type)
    else ret elt_type in
  set_type (element_var self) elt_type;;
  let* element_expr := construct_var (element_var self) in
  let elt_vars := [element_expr] in
  let elt_var_inits := [] in
  let* entity_step :=
    match entity_info with
    | Some entity_info =>
        let* eo := type_obj elt_type in
        let* node_type := element_type eo in
        let* node_var :=
          AbstractVariable ("Bare" +:+ element_var_name self) node_type in
        let* init := construct_var node_var in
        let* v := construct_var node_var in
        ret (elt_vars ++ [v],
             elt_var_inits ++ [Some (make_as_entity init entity_info)])
    | None => ret (elt_vars, elt_var_inits)
    end in
  let '(elt_vars, elt_var_inits) := entity_step in
  let* list_step :=
    if is_list_type ct then
      let typed_elt_var := List.last elt_vars element_expr in
      let* root := ctx_root_grammar_class in
      let* untyped_elt_var :=
        AbstractVariable ("Untyped" +:+ element_var_name self) root in
      let* init := construct_var untyped_elt_var in
      let* v := construct_var untyped_elt_var in
      ret (elt_vars ++ [v],
           elt_var_inits
           ++ [Some (UncheckedCastExpr init (rtype typed_elt_var))],
           Some typed_elt_var)
    else ret (elt_vars, elt_var_inits, None) in
  let '(elt_vars, elt_var_inits, typed_elt_var) := list_step in
  let* inner :=
    with_block (new_child_enter current_scope) new_child_exit
      (fun inner_scope =>
         let* inner_expr := construct (expr self) None in
         ret (inner_scope, inner_expr)) in
  let '(inner_scope, inner_expr) := inner in
  (if with_entities then create_local_variable element_expr inner_scope
   else ret tt);;
  match typed_elt_var with
  | Some v => create_local_variable v inner_scope
  | None => ret tt
  end;;
  match index_var_ self with
  | Some i => add_to_scope i inner_scope
  | None => ret tt
  end;;
  let elt_var_inits := (elt_var_inits ++ [None]) in
  let* index_expr :=
    match index_var_ self with
    | Some i => let* e := construct_var i in ret (Some e)
    | None => ret None
    end in
  ret (mkCommon collection_expr (zip elt_vars elt_var_inits) index_expr
                inner_expr inner_scope).

(** [CompiledType.matches] against [T.name]: a deferred reference is no
    node type, no entity type and not the type itself. *)
Definition matches_ref (self : ident) (formal : TypeRef) : M State bool :=
  match formal with
  | Resolved t =>
      fun s =>
        match Subtyping.matches (objects (world s)) self t with
        | Some b => (Returns b, s)
        | None => (Raises AttributeError, s)
        end
  | Deferred _ => ret false
  end.

(** [with iter_scope.parent.use(): super().__init__(result_var_name)] *)
Definition init_in_parent (iter_scope : Scope) (result_var_name : string)
  : M State unit :=
  with_block (use_enter (scope_parent iter_scope);;
              ret (scope_parent iter_scope))
             use_exit (fun _ => ComputingExpr_init result_var_name).

(** [Quantifier.Expr.__init__] *)
Definition Quantifier_Expr_new (kind : quantifier_kind)
    (collection expr : ResolvedExpression)
    (element_vars : list (ResolvedExpression * option ResolvedExpression))
    (index_var : option ResolvedExpression) (iter_scope : Scope)
  : M State ResolvedExpression :=
  init_in_parent iter_scope "Quantifier_Result";;
  ret (Quantifier_Expr kind collection expr element_vars index_var
                       iter_scope).

(** [Contains.construct]: [self] is the collection expression
    [Contains.__init__] makes, whose [expr] is [item.equals(self.item)]. *)
Definition Contains_construct (self : CollectionExpression)
  : M State ResolvedExpression :=
  let* r := construct_common self in
  match index_var r with
  | Some _ => raise AssertionError
  | None =>
      Quantifier_Expr_new ANY (collection_expr r) (inner_expr r)
                          (element_vars r) (index_var r) (inner_scope r)
  end.

(** [Quantifier.construct] *)
Definition Quantifier_construct (self : CollectionExpression)
    (kind : quantifier_kind) : M State ResolvedExpression :=
  let* r := construct_common self in
  let* bool_type := T_ "Bool" in
  let* it := type_obj (rtype (inner_expr r)) in
  let* ok := matches_ref (rtype (inner_expr r)) bool_type in
  check ok ("Wrong type for expression in quantifier: expected bool, got "
            +:+ dsl_name it);;
  Quantifier_Expr_new kind (collection_expr r) (inner_expr r)
                      (element_vars r) (index_var r) (inner_scope r).

(** A [Map] expression after [prepare]. *)
Record Map := mkMap {
  base_ : CollectionExpression;
  expr_fn : ExprFn;
  filter_fn : ExprFn;
  do_concat_ : bool;
  take_while_pred : ExprFn;
  filter_expr : option AbstractExpression;
  take_while_expr : option AbstractExpression
}.

(** [Map.Expr.__init__]: the static type is the array type of the element
    type. *)
Definition Map_Expr_new
    (element_vars : list (ResolvedExpression * option ResolvedExpression))
    (index_var : option ResolvedExpression)
    (collection expr : ResolvedExpression) (iter_scope : Scope)
    (filter : option ResolvedExpression) (do_concat : bool)
    (take_while : option ResolvedExpression) : M State ResolvedExpression :=
  let* elt :=
    if do_concat then
      let* t := type_obj (rtype expr) in element_type t
    else ret (rtype expr) in
  let* static_type := lift_world (array elt) in
  init_in_parent iter_scope "Map_Result";;
  ret (Map_Expr element_vars index_var collection expr iter_scope filter
                do_concat take_while static_type).

(** [Map.construct] *)
Definition Map_construct (self : Map) : M State ResolvedExpression :=
  let* r := construct_common (base_ self) in
  let* it := type_obj (rtype (inner_expr r)) in
  check (negb (do_concat_ self) || is_collection it)
        ("Cannot mapcat with expressions returning " +:+ dsl_name it
         +:+ " values (collections expected instead)");;
  let* exprs :=
    with_block (use_enter (inner_scope r);; ret (inner_scope r)) use_exit
      (fun _ =>
         let* filter_expr :=
           match filter_expr self with
           | Some f =>
               let* b := T_ "Bool" in
               let* e := construct f (Some b) in ret (Some e)
           | None => ret None
           end in
         let* take_while_expr :=
           match take_while_expr self with
           | Some f =>
               let* b := T_ "Bool" in
               let* e := construct f (Some b) in ret (Some e)
           | None => ret None
           end in
         ret (filter_expr, take_while_expr)) in
  Map_Expr_new (element_vars r) (index_var r) (collection_expr r)
               (inner_expr r) (inner_scope r) exprs.1 (do_concat_ self)
               exprs.2.

(** [Map.kind] *)
Definition Map_kind (self : Map) : string :=
  if decide (expr_fn self = collection_expr_identity) then
    if decide (filter_fn self = collection_expr_none)
    then "take_while" else "filter"
  else if decide (filter_fn self <> collection_expr_none) then "filter_map"
  else if do_concat_ self then "mapcat" else "map".

(** The arguments the public constructors [filter], [filtermap], [map],
    [mapcat] and [take_while] and the attribute [as_array] pass to [Map]:
    [expr], [filter], [do_concat], [take_while_pred]. *)
Definition Map_args := (ExprFn * ExprFn * bool * ExprFn)%type.
Definition _filter (filter : ExprFn) : Map_args :=
  (collection_expr_identity, filter, false, collection_expr_none).
Definition filtermap (expr filter : ExprFn) : Map_args :=
  (expr, filter, false, collection_expr_none).
Definition map (expr : ExprFn) : Map_args :=
  (expr, collection_expr_none, false, collection_expr_none).
Definition mapcat (expr : ExprFn) : Map_args :=
  (expr, collection_expr_none, true, collection_expr_none).
Definition take_while (take_while_pred : ExprFn) : Map_args :=
  (collection_expr_identity, collection_expr_none, false, take_while_pred).
Definition as_array_args : Map_args :=
  (collection_expr_identity, collection_expr_none, false,
   collection_expr_none).

(** [Map.__init__] with these arguments, for a prepared base. *)
Definition Map_new (args : Map_args) (base : CollectionExpression)
    (filter_expr take_while_expr : option AbstractExpression) : Map :=
  mkMap base args.1.1.1 args.1.1.2 args.1.2 args.2 filter_expr
        take_while_expr.

(** [collection_get(self, collection, index, or_null)] *)
Definition collection_get (collection index or_null : AbstractExpression)
  : M State (option ResolvedExpression) :=
  let* int_type := T_ "Int" in
  let* index_expr := construct index (Some int_type) in
  let* coll_expr := construct collection None in
  let* ct := type_obj (rtype coll_expr) in
  let as_entity := is_entity_type ct in
  let* destructured :=
    if as_entity then
      let* d := destructure_entity coll_expr in
      let '(saved_coll_expr, coll_expr, entity_info) := d in
      ret (coll_expr, Some (saved_coll_expr, entity_info))
    else ret (coll_expr, None) in
  let '(coll_expr, saved) := destructured in
  let* ct := type_obj (rtype coll_expr) in
  check (is_collection ct)
        (".at prefix must be a collection: got " +:+ dsl_name ct
         +:+ " instead");;
  let coll_expr :=
    if is_ast_node ct then NullCheckExpr coll_expr false
    else if is_entity_type ct then NullCheckExpr coll_expr true
    else coll_expr in
  let* canonical := canonicalize_list coll_expr true in
  match canonical with
  | None => ret None
  | Some (coll_expr, elt) =>
      let* or_null := construct or_null None in
      let result :=
        CallExpr "Get_Result" "Get" (Resolved elt)
                 [coll_expr; index_expr; or_null] in
      ret (Some (match saved with
                 | Some (saved_coll_expr, entity_info) =>
                     SequenceExpr saved_coll_expr
                                  (make_as_entity result entity_info)
                 | None => result
                 end))
  end.

(** [length(self, collection)] *)
Definition length (collection : AbstractExpression)
  : M State (option ResolvedExpression) :=
  let* coll_expr := construct collection None in
  let* orig_type := type_obj (rtype coll_expr) in
  let* coll_expr :=
    if is_entity_type orig_type then
      let* astnode := astnode orig_type in
      ret (FieldAccessExpr coll_expr "Node" astnode)
    else ret coll_expr in
  let* ct := type_obj (rtype coll_expr) in
  check (is_collection ct)
        ("Collection expected but got " +:+ dsl_name orig_type
         +:+ " instead");;
  let* canonical := canonicalize_list coll_expr false in
  match canonical with
  | None => ret None
  | Some (coll_expr, _) =>
      let* int_type := T_ "Int" in
      ret (Some (CallExpr "Len" "Length" int_type [coll_expr]))
  end.

(** [CollectionSingleton.construct], with [CollectionSingleton.Expr.__init__] *)
Definition CollectionSingleton_construct (expr : AbstractExpression)
  : M State ResolvedExpression :=
  let* e := construct expr None in
  let* static_type := lift_world (array (rtype e)) in
  ComputingExpr_init "Singleton";;
  ret (CollectionSingleton_Expr e static_type).

(** [Concat.construct] *)
Definition check_array (typ : ident) : M State unit :=
  let* o := type_obj typ in
  check (is_array_type o) ("Expected array type, got " +:+ dsl_name o).

Definition Concat_construct (array_1 array_2 : AbstractExpression)
  : M State ResolvedExpression :=
  let* array_1 := construct array_1 None in
  let* array_2 := construct array_2 None in
  check_array (rtype array_1);;
  check_array (rtype array_2);;
  let* t1 := type_obj (rtype array_1) in
  let* t2 := type_obj (rtype array_2) in
  let* e1 := element_type t1 in
  let* e2 := element_type t2 in
  let* eo1 := type_obj e1 in
  let* eo2 := type_obj e2 in
  lift_world (lift_diag (Diag.check_multiple
    [(bool_decide (rtype array_1 = rtype array_2),
      "Got different array element types in concat: " +:+ dsl_name eo1
      +:+ " and " +:+ dsl_name eo2)]
    Diag.error));;
  ret (CallExpr "Concat_Result" "Concat" (Resolved (rtype array_1))
                [array_1; array_2]).

End Expressions.

(** [d] is a root list type: its base is the generic list type. *)
Definition root_list (objs : gmap ident Obj) (d : ident) : Prop :=
  exists o b bo,
    objs !! d = Some o /\ _base o = Some b /\ objs !! b = Some bo
    /\ is_generic_list_type bo = true.

End Collections.

(** ** A small instance of the collection expressions *)

Module CollectionsSample.
Import Repo Collections.

(** An abstract expression is a number: constructing it gives the resolved
    expression [Constructed] of that number, whose type is the type with
    that identity in [Subtyping.sample_repository]. *)
Definition construct (e : nat) (_ : option TypeRef)
  : M (@State unit) ResolvedExpression :=
  ret (Constructed e).

Definition construct_var (v : Var) : M (@State unit) ResolvedExpression :=
  ret (Constructed v).

(** In the sample repository the entity type of a node type is the object
    created right after it. *)
Fixpoint rtype (e : ResolvedExpression) : ident :=
  match e with
  | Constructed e => e
  | CallExpr _ _ (Resolved t) _ => t
  | CallExpr _ _ (Deferred _) _ => 0
  | SequenceExpr _ post => rtype post
  | NullCheckExpr e _ => rtype e
  | FieldAccessExpr _ _ t => t
  | UncheckedCastExpr _ t => t
  | convert_node _ t => t
  | make_as_entity e _ => S (rtype e)
  | Quantifier_Expr _ _ _ _ _ _ => 0
  | Map_Expr _ _ _ _ _ _ _ _ t => t
  | CollectionSingleton_Expr _ t => t
  end.

Definition destructure_entity (c : ResolvedExpression)
  : M (@State unit)
      (ResolvedExpression * ResolvedExpression * ResolvedExpression) :=
  ret (c, Constructed (pred (rtype c)), Constructed 0).

Definition get_scope : M (@State unit) Scope := ret 0.
Definition new_child_enter (sc : Scope) : M (@State unit) Scope := ret (S sc).
Definition scope_noop (sc : Scope) : M (@State unit) unit := ret tt.
Definition AbstractVariable (_ : string) (t : ident) : M (@State unit) Var :=
  ret t.
Definition set_type (_ : Var) (_ : ident) : M (@State unit) unit := ret tt.
Definition create_local_variable (_ : ResolvedExpression) (_ : Scope)
  : M (@State unit) unit := ret tt.
Definition add_to_scope (_ : Var) (_ : Scope) : M (@State unit) unit := ret tt.
Definition ctx_generic_list_type : M (@State unit) ident := ret 2.
Definition ctx_root_grammar_class : M (@State unit) ident := ret 1.
Definition ComputingExpr_init (_ : string) : M (@State unit) unit := ret tt.
Definition is_keyword (_ : Name) : bool := false.

Definition sample_state : @State unit :=
  mkState Subtyping.sample_repository tt.

(** The attributes of a type of the sample repository. *)
Definition sample_type (t : ident) : Obj :=
  default (plain_obj cls_CompiledType EmptyString EmptyString None)
          (objects Subtyping.sample_repository !! t).

(** The outcome of a call, when it returned. *)
Definition returned_value {A S} (d : A) (r : outcome A * S) : A :=
  match r.1 with Returns a => a | Raises _ => d end.

(** Iterations over the list type of [Expr] (27), its entity type (28) and
    the array type of [Root] (26), with an inner expression of type [Int]
    (25). *)
Definition over_list : @CollectionExpression nat :=
  mkCollection 27 25 13 "item" None.
Definition over_entity : @CollectionExpression nat :=
  mkCollection 28 25 14 "item" None.
Definition over_array : @CollectionExpression nat :=
  mkCollection 26 25 1 "item" None.

Definition sample_construct_common (self : @CollectionExpression nat) :=
  Collections.construct_common construct construct_var rtype
    destructure_entity get_scope new_child_enter scope_noop AbstractVariable
    set_type create_local_variable add_to_scope ctx_root_grammar_class
    is_keyword self.

Definition sample_collection_get (collection index or_null : nat) :=
  Collections.collection_get construct rtype destructure_entity
    ctx_generic_list_type collection index or_null.

Definition sample_length (collection : nat) :=
  Collections.length construct rtype ctx_generic_list_type collection.

Definition sample_Map_construct (m : @Map nat) :=
  Collections.Map_construct construct construct_var rtype destructure_entity
    get_scope new_child_enter scope_noop scope_noop scope_noop
    AbstractVariable set_type create_local_variable add_to_scope
    ctx_root_grammar_class pred ComputingExpr_init is_keyword m.

End CollectionsSample.

(** ** Repositories built by the constructors *)

Module Reachable.
Import Repo Subtyping.

(** Every object that exists was given its identity by an allocation. *)
Definition bounded (w : World) : Prop :=
  forall t, is_Some (objects w !! t) -> t < next_ident w.

Definition heap_ok (w : World) : Prop := links_ok (objects w) /\ bounded w.

(** What a caller can pass: the [element_type] given to [CompiledType] is a
    reference to a type, hence to an object that exists.  (The other
    operations read their receiver before they use it.) *)
Definition op_ok (w : World) (o : op) : bool :=
  match o with
  | OpNewType _ (Some e) _ _ => bool_decide (is_Some (objects w !! e))
  | _ => true
  end.

Section Runs.

Variable is_keyword : Name -> bool.
Variable builtin_properties : list (string * FieldDecl).

Fixpoint ops_ok (w : World) (ops : list op) : bool :=
  match ops with
  | [] => true
  | o :: ops' =>
      op_ok w o && ops_ok (exec is_keyword builtin_properties o w).2 ops'
  end.

End Runs.

End Reachable.

(** * Properties *)

(** ** The monad *)

Lemma bind_returns {S A B} (m : M S A) (k : A -> M S B) s a s' :
  m s = (Returns a, s') -> bind m k s = k a s'.
Proof. intros H. unfold bind. by rewrite H. Qed.

Lemma bind_raises {S A B} (m : M S A) (k : A -> M S B) s e s' :
  m s = (Raises e, s') -> bind m k s = (Raises e, s').
Proof. intros H. unfold bind. by rewrite H. Qed.

Lemma bind_inv_returns {S A B} (m : M S A) (k : A -> M S B) s b s' :
  bind m k s = (Returns b, s') ->
  exists a s1, m s = (Returns a, s1) /\ k a s1 = (Returns b, s').
Proof.
  unfold bind. destruct (m s) as [[a|e] s1]; [|done]. intros H. eauto.
Qed.

(** ** Diagnostics *)

Module DiagProps.
Import Diag.

Lemma check_true_noop msg sev dr ok w :
  ok = true \/ ctx_emitter w = false ->
  check_source_language true msg sev dr ok w = (Returns tt, w).
Proof.
  intros Hpre. unfold check_source_language.
  destruct Hpre as [-> | ->]; simpl; [done|].
  by rewrite andb_false_r.
Qed.

Lemma check_non_blocking_records msg dr ok w :
  ok = true \/ ctx_emitter w = false ->
  check_source_language false msg non_blocking_error dr ok w
  = (Returns tt, set_pending true (print_diag non_blocking_error msg w)).
Proof.
  intros Hpre. unfold check_source_language.
  destruct Hpre as [-> | ->]; simpl; [done|].
  by rewrite andb_false_r.
Qed.

Lemma check_non_blocking_no_diagnostic_error p msg dr ok w :
  (check_source_language p msg non_blocking_error dr ok w).1
  <> Raises DiagnosticError.
Proof.
  unfold check_source_language.
  destruct (negb ok && ctx_emitter w); [done|].
  by destruct p.
Qed.

Lemma check_keeps_emitter p msg sev dr ok w :
  ctx_emitter (check_source_language p msg sev dr ok w).2 = ctx_emitter w.
Proof.
  unfold check_source_language.
  destruct (negb ok && ctx_emitter w); [done|].
  destruct p; simpl; [done|]. destruct sev; simpl; try done.
  by destruct dr.
Qed.

Lemma exec_keeps_emitter e w : ctx_emitter (exec e w).2 = ctx_emitter w.
Proof.
  destruct e; simpl; [apply check_keeps_emitter|].
  unfold errors_checkpoint. by destruct (has_pending_error w).
Qed.

Lemma list_snoc_case {A} (l : list A) : l = [] \/ exists l' x, l = l' ++ [x].
Proof.
  induction l as [|a l [-> | (l' & x & ->)]]; [by left| |]; right.
  - by exists [], a.
  - by exists (a :: l'), x.
Qed.

Lemma run_snoc evs e w : run (evs ++ [e]) w = (exec e (run evs w)).2.
Proof. unfold run. by rewrite foldl_app. Qed.

Lemma run_keeps_emitter evs w : ctx_emitter (run evs w) = ctx_emitter w.
Proof.
  induction evs as [|e evs IH] using rev_ind; [done|].
  by rewrite run_snoc, exec_keeps_emitter.
Qed.

(** The flag after one call, from the flag before it. *)
Lemma exec_pending e w :
  has_pending_error (exec e w).2
  = match e with
    | Checkpoint => false
    | Check p _ sev _ ok =>
        if records_non_blocking (ctx_emitter w) e then true
        else has_pending_error w
    end.
Proof.
  destruct e as [p m sev dr ok|]; simpl.
  - unfold check_source_language.
    destruct ok, (ctx_emitter w), p, sev; simpl; try done; by destruct dr.
  - unfold errors_checkpoint. by destruct (has_pending_error w) eqn:E.
Qed.

Lemma pending_after_run evs w :
  has_pending_error w = false ->
  has_pending_error (run evs w) = true <->
  exists pre e post,
    evs = pre ++ e :: post /\
    records_non_blocking (ctx_emitter w) e = true /\
    Checkpoint ∉ post.
Proof.
  intros Hw. induction evs as [|e evs IH] using rev_ind.
  - simpl. rewrite Hw. split; [done|].
    intros (pre & e & post & Heq & _). by destruct pre.
  - rewrite run_snoc, exec_pending, run_keeps_emitter.
    destruct e as [p m sev dr ok|].
    + destruct (records_non_blocking _ _) eqn:Hrec.
      * split; [|done]. intros _.
        exists evs, (Check p m sev dr ok), []. split_and!; [done|done|].
        apply not_elem_of_nil.
      * rewrite IH. split.
        -- intros (pre & e & post & -> & He & Hpost).
           exists pre, e, (post ++ [Check p m sev dr ok]).
           split_and!; [by rewrite <-app_assoc|done|].
           rewrite elem_of_app, list_elem_of_singleton.
           intros [Hin | Hin]; [by apply Hpost | done].
        -- intros (pre & e & post & Heq & He & Hpost).
           destruct (list_snoc_case post) as [-> | (post' & x & ->)].
           { apply app_inj_tail in Heq as [_ <-]. congruence. }
           rewrite app_comm_cons, app_assoc in Heq.
           apply app_inj_tail in Heq as [-> <-].
           exists pre, e, post'. split_and!; [done|done|].
           intros Hin. apply Hpost. rewrite elem_of_app. by left.
    + split; [done|].
      intros (pre & e & post & Heq & He & Hpost).
      destruct (list_snoc_case post) as [-> | (post' & x & ->)].
      { apply app_inj_tail in Heq as [_ <-]. done. }
      rewrite app_comm_cons, app_assoc in Heq.
      apply app_inj_tail in Heq as [_ <-].
      exfalso. apply Hpost. rewrite elem_of_app, list_elem_of_singleton.
      by right.
Qed.

Lemma check_multiple_non_blocking pms w :
  ctx_emitter w = false ->
  check_multiple pms non_blocking_error w
  = (Returns tt,
     mkWorld (has_pending_error w || bool_decide (failed_messages pms <> []))
             false
             (printed w ++ ((fun m => (non_blocking_error, m)) <$> failed_messages pms))).
Proof.
  unfold check_multiple. revert w.
  induction pms as [|[p m] pms IH]; intros [pend em out] Hem;
    simpl in Hem; subst em.
  - simpl. unfold ret. by rewrite orb_false_r, app_nil_r.
  - simpl for_each. destruct p.
    + erewrite bind_returns; [|by apply check_true_noop; right].
      rewrite IH by done. unfold failed_messages.
      rewrite filter_cons_False by (simpl; done). done.
    + erewrite bind_returns; [|by apply check_non_blocking_records; right].
      rewrite IH by done. unfold failed_messages.
      rewrite filter_cons_True by done. simpl.
      by rewrite orb_true_r, <-app_assoc.
Qed.

(** C9.  A false predicate checked at non-blocking-error severity raises no
    diagnostic error at the check site (the call returns whenever the
    function's own assertion on the compile context holds), prints its
    message and sets [Diagnostics.has_pending_error]; a whole list of such
    checks therefore runs to its end and reports every failed predicate;
    [errors_checkpoint] raises exactly when the flag is set, and leaves it
    cleared; starting with the flag cleared, the checkpoint raises after a
    sequence of calls exactly when a non-blocking error was recorded after
    the last checkpoint of the sequence. *)
Theorem non_blocking_errors_surface_at_checkpoint :
  (forall msg dr ok w,
      ok = true \/ ctx_emitter w = false ->
      check_source_language false msg non_blocking_error dr ok w
      = (Returns tt, set_pending true (print_diag non_blocking_error msg w)))
  /\ (forall p msg dr ok w,
      (check_source_language p msg non_blocking_error dr ok w).1
      <> Raises DiagnosticError)
  /\ (forall pms w,
      ctx_emitter w = false ->
      exists w',
        check_multiple pms non_blocking_error w = (Returns tt, w') /\
        printed w' = printed w
                     ++ ((fun m => (non_blocking_error, m)) <$> failed_messages pms) /\
        has_pending_error w'
        = has_pending_error w || bool_decide (failed_messages pms <> []))
  /\ (forall w,
      (has_pending_error w = true ->
       errors_checkpoint w = (Raises DiagnosticError, set_pending false w)) /\
      (has_pending_error w = false ->
       errors_checkpoint w = (Returns tt, w)))
  /\ (forall evs w,
      has_pending_error w = false ->
      raised (errors_checkpoint (run evs w)) <->
      exists pre e post,
        evs = pre ++ e :: post /\
        records_non_blocking (ctx_emitter w) e = true /\
        Checkpoint ∉ post).
Proof.
  split_and!.
  - intros. by apply check_non_blocking_records.
  - intros. apply check_non_blocking_no_diagnostic_error.
  - intros pms w Hem. eexists. split; [by apply check_multiple_non_blocking|].
    done.
  - intros w. unfold errors_checkpoint. split; intros ->; done.
  - intros evs w Hw. rewrite <-(pending_after_run evs w Hw).
    unfold raised, errors_checkpoint.
    destruct (has_pending_error (run evs w)); simpl; naive_solver.
Qed.

Lemma non_blocking_errors_surface_at_checkpoint_witness :
  check_source_language false "homonym field" non_blocking_error true false
    (mkWorld false false [])
  = (Returns tt, mkWorld true false [(non_blocking_error, "homonym field")])
  /\ raised (errors_checkpoint
               (run [Check false "homonym field" non_blocking_error true false;
                     Check true "fine" error true false]
                    (mkWorld false false []))).
Proof.
  destruct non_blocking_errors_surface_at_checkpoint
    as (Hrec & _ & _ & _ & Htrace).
  split.
  - apply (Hrec "homonym field" true false (mkWorld false false [])).
    right. reflexivity.
  - apply (Htrace _ (mkWorld false false [])); [reflexivity|].
    exists [], (Check false "homonym field" non_blocking_error true false),
      [Check true "fine" error true false].
    split; [reflexivity|]. split; [reflexivity|].
    intros Hin. apply list_elem_of_singleton in Hin. discriminate Hin.
Defined.

End DiagProps.

(** ** The node hierarchy *)

Module HierarchyProps.
Import Hierarchy.

(** Induction on a hierarchy: a property holds of a node type when it holds
    of all its subclasses. *)
Lemma ASTNodeType_ind (P : ASTNodeType -> Prop) :
  (forall i nm a cs, Forall P cs -> P (mkNode i nm a cs)) ->
  forall n, P n.
Proof.
  intros Hnode. fix IH 1. intros [i nm a cs]. apply Hnode.
  induction cs as [|c cs IHcs]; constructor; [apply IH | apply IHcs].
Qed.

Lemma insert_by_perm {A} (key : A -> string) x l :
  insert_by key x l ≡ₚ x :: l.
Proof.
  induction l as [|y l IH]; simpl; [done|].
  destruct (String.leb _ _); [done|]. by rewrite IH, Permutation_swap.
Qed.

Lemma sorted_perm {A} (l : list A) key : sorted l key ≡ₚ l.
Proof.
  induction l as [|x l IH]; simpl; [done|].
  by rewrite insert_by_perm, IH.
Qed.

Lemma elem_of_sorted {A} (l : list A) key x : x ∈ sorted l key <-> x ∈ l.
Proof. by rewrite sorted_perm. Qed.

Lemma height_subclass c n : c ∈ subclasses n -> height c < height n.
Proof.
  destruct n as [i nm a cs]. simpl. intros Hin.
  induction Hin as [c cs | c c' cs _ IH]; simpl; lia.
Qed.

Lemma concrete_subclasses_body_fuel n :
  forall fuel1 fuel2 ancestors,
    height n <= fuel1 -> height n <= fuel2 ->
    concrete_subclasses_body fuel1 ancestors n
    = concrete_subclasses_body fuel2 ancestors n.
Proof.
  induction n as [i nm a cs IH] using ASTNodeType_ind.
  intros [|fuel1] [|fuel2] anc H1 H2; simpl in H1, H2; try lia.
  simpl. f_equal. f_equal.
  apply Forall_fmap_ext_1, Forall_forall. intros c Hc.
  apply elem_of_sorted in Hc.
  rewrite Forall_forall in IH.
  pose proof (height_subclass c (mkNode i nm a cs) Hc) as Hh. simpl in Hh.
  apply IH; [done|lia|lia].
Qed.

(** The recursive equation of [concrete_subclasses], as the source has it. *)
Lemma concrete_subclasses_eq ancestors n :
  concrete_subclasses ancestors n
  = (if abstract n then [] else [n])
    ++ mjoin (concrete_subclasses (get_inheritance_chain ancestors n)
                <$> sorted (subclasses n)
                      (hierarchical_name (get_inheritance_chain ancestors n))).
Proof.
  unfold concrete_subclasses at 1.
  destruct (height n) as [|h] eqn:Hh; [by destruct n|].
  simpl. f_equal. f_equal.
  apply Forall_fmap_ext_1, Forall_forall. intros c Hc.
  apply elem_of_sorted in Hc.
  apply height_subclass in Hc.
  apply concrete_subclasses_body_fuel; lia.
Qed.

Lemma in_hierarchy_prepend n c chain x :
  c ∈ subclasses n -> in_hierarchy c chain x -> in_hierarchy n (n :: chain) x.
Proof.
  intros Hc H. induction H as [|anc m c' _ IH Hc'].
  - by apply (in_hierarchy_subclass n [] n c); [constructor|].
  - by apply (in_hierarchy_subclass n (n :: anc) m c').
Qed.

Lemma in_hierarchy_head n chain x :
  in_hierarchy n chain x ->
  (chain = [] /\ x = n) \/
  exists c chain', c ∈ subclasses n /\ chain = n :: chain' /\
                   in_hierarchy c chain' x.
Proof.
  induction 1 as [|anc m c _ IH Hc]; [by left|right].
  destruct IH as [[-> ->] | (c0 & chain' & Hc0 & -> & Hin)].
  - exists c, []. split_and!; [done|done|constructor].
  - exists c0, (chain' ++ [m]). split_and!; [done|done|].
    by econstructor.
Qed.

Lemma derives_from_refl n : derives_from n n.
Proof. exists []. constructor. Qed.

Lemma derives_from_subclass x c n :
  c ∈ subclasses n -> derives_from x c -> derives_from x n.
Proof. intros Hc [chain H]. exists (n :: chain). by eapply in_hierarchy_prepend. Qed.

Lemma derives_from_trans x m n :
  derives_from x m -> derives_from m n -> derives_from x n.
Proof.
  intros Hx [chain H]. revert x Hx. induction H as [|anc k c _ IH Hc]; [done|].
  intros x Hx. apply IH. by eapply derives_from_subclass.
Qed.

(** [concrete_subclasses] lists exactly the concrete node types that derive
    from the node, whatever their names are. *)
Lemma elem_of_concrete_subclasses n :
  forall ancestors x,
    x ∈ concrete_subclasses ancestors n
    <-> derives_from x n /\ abstract x = false.
Proof.
  induction n as [i nm a cs IH] using ASTNodeType_ind.
  intros anc x. rewrite concrete_subclasses_eq, elem_of_app, list_elem_of_join.
  rewrite Forall_forall in IH. simpl subclasses. split.
  - intros [Hself | (l & Hx & Hl)].
    + simpl in Hself. destruct a; [by apply elem_of_nil in Hself|].
      apply list_elem_of_singleton in Hself as ->.
      split; [apply derives_from_refl | done].
    + apply list_elem_of_fmap in Hl as (c & -> & Hc).
      apply elem_of_sorted in Hc. apply (IH c Hc) in Hx as [Hd Ha].
      split; [|done]. by eapply derives_from_subclass.
  - intros [[chain Hd] Ha].
    apply in_hierarchy_head in Hd as [[_ ->] | (c & chain' & Hc & _ & Hd)].
    + left. simpl in *. subst a. by apply list_elem_of_singleton.
    + right. simpl in Hc.
      exists (concrete_subclasses
                (get_inheritance_chain anc (mkNode i nm a cs)) c).
      split.
      * apply (IH c Hc). split; [by exists chain' | done].
      * apply list_elem_of_fmap. exists c. split; [done|].
        by apply elem_of_sorted.
Qed.

(** The concrete subclasses of a node type of the hierarchy form a segment
    of the concrete subclasses of the root. *)
Lemma concrete_subclasses_segment root ancestors n :
  in_hierarchy root ancestors n ->
  exists pre post,
    concrete_subclasses [] root
    = pre ++ concrete_subclasses ancestors n ++ post.
Proof.
  induction 1 as [|anc m c _ (pre & post & IH) Hc].
  - exists [], []. by rewrite app_nil_r.
  - rewrite IH, (concrete_subclasses_eq anc m).
    eapply elem_of_sorted in Hc.
    apply list_elem_of_split in Hc as (l1 & l2 & ->).
    rewrite fmap_app, join_app. simpl.
    set (chain := get_inheritance_chain anc m).
    exists (pre ++ (if abstract m then [] else [m])
                ++ mjoin (concrete_subclasses chain <$> l1)),
           (mjoin (concrete_subclasses chain <$> l2) ++ post).
    subst chain. unfold get_inheritance_chain. by rewrite <-!app_assoc.
Qed.

Lemma all_nodes_subclass n : forall m c,
  m ∈ all_nodes n -> c ∈ subclasses m -> c ∈ all_nodes n.
Proof.
  induction n as [i nm a cs IH] using ASTNodeType_ind.
  intros m c Hm Hc. rewrite Forall_forall in IH. simpl in *.
  apply elem_of_cons in Hm as [-> | Hm].
  - simpl in Hc. right. apply list_elem_of_join.
    exists (all_nodes c). split; [destruct c; simpl; left|].
    by apply list_elem_of_fmap_2.
  - right. apply list_elem_of_join in Hm as (l & Hm & Hl).
    apply list_elem_of_fmap in Hl as (c' & -> & Hc').
    apply list_elem_of_join. exists (all_nodes c'). split; [by eapply IH|].
    by apply list_elem_of_fmap_2.
Qed.

Lemma in_hierarchy_all_nodes root ancestors n :
  in_hierarchy root ancestors n -> n ∈ all_nodes root.
Proof.
  induction 1 as [|anc m c _ IH Hc]; [destruct root; simpl; left|].
  by eapply all_nodes_subclass.
Qed.

Lemma join_fmap_submseteq {A B} (f g : A -> list B) (l : list A) :
  Forall (fun x => f x ⊆+ g x) l -> mjoin (f <$> l) ⊆+ mjoin (g <$> l).
Proof. induction 1; simpl; [done|]. by apply submseteq_app. Qed.

Lemma concrete_subclasses_submseteq n : forall ancestors,
  concrete_subclasses ancestors n ⊆+ all_nodes n.
Proof.
  induction n as [i nm a cs IH] using ASTNodeType_ind.
  intros anc. rewrite concrete_subclasses_eq. simpl subclasses.
  change (all_nodes (mkNode i nm a cs))
    with ([mkNode i nm a cs] ++ mjoin (all_nodes <$> cs)).
  apply submseteq_app.
  - simpl. destruct a; [apply submseteq_nil_l | done].
  - rewrite sorted_perm. apply join_fmap_submseteq.
    eapply Forall_impl; [exact IH|]. intros c Hc. apply Hc.
Qed.

Lemma NoDup_submseteq_inv {A} (l k : list A) : l ⊆+ k -> NoDup k -> NoDup l.
Proof.
  intros Hsub Hk. apply submseteq_Permutation in Hsub as [k' Hk'].
  rewrite Hk' in Hk. by apply NoDup_app in Hk as [? _].
Qed.

Lemma NoDup_ident_inj (l : list ASTNodeType) x y :
  NoDup (ident <$> l) -> x ∈ l -> y ∈ l -> ident x = ident y -> x = y.
Proof.
  intros Hnd Hx Hy Hid.
  apply list_elem_of_lookup in Hx as [i Hi], Hy as [j Hj].
  assert (i = j) as ->.
  { eapply (NoDup_lookup _ _ _ _ Hnd); rewrite list_lookup_fmap.
    - by rewrite Hi.
    - rewrite Hj. simpl. by rewrite Hid. }
  congruence.
Qed.

Lemma position_lookup i l k : position i l = Some k -> l !! k = Some i.
Proof.
  revert k. induction l as [|j l IH]; intros k; simpl; [done|].
  case_decide as Hij; [intros [= <-]; by subst|].
  destruct (position i l) as [k'|]; simpl; [|done].
  intros [= <-]. by apply IH.
Qed.

Lemma lookup_position i l k :
  NoDup l -> l !! k = Some i -> position i l = Some k.
Proof.
  revert k. induction l as [|j l IH]; intros k Hnd; [done|].
  apply NoDup_cons in Hnd as [Hj Hnd]. destruct k as [|k]; simpl.
  - intros [= ->]. by rewrite decide_True.
  - intros Hk. rewrite decide_False.
    + by rewrite (IH k).
    + intros ->. apply Hj. apply list_elem_of_lookup. eauto.
Qed.

Section KindRange.
Context (root : ASTNodeType).
Hypothesis distinct : NoDup (ident <$> all_nodes root).

Lemma concrete_of_root_NoDup : NoDup (ident <$> concrete_subclasses [] root).
Proof.
  eapply NoDup_submseteq_inv; [|exact distinct].
  apply fmap_submseteq, concrete_subclasses_submseteq.
Qed.

Lemma derives_from_all_nodes x : derives_from x root -> x ∈ all_nodes root.
Proof. intros [chain H]. by eapply in_hierarchy_all_nodes. Qed.

(** A node type of the hierarchy has a kind exactly when it is concrete, and
    its kind is then its position among the concrete node types. *)
Lemma kind_lookup x k :
  derives_from x root ->
  kind root x = Some k <-> concrete_subclasses [] root !! k = Some x.
Proof.
  intros Hx. unfold kind. split.
  - intros Hk%position_lookup. rewrite list_lookup_fmap in Hk.
    destruct (concrete_subclasses [] root !! k) as [y|] eqn:Hy; [|done].
    simpl in Hk. injection Hk as Hid. f_equal.
    apply (NoDup_ident_inj (all_nodes root));
      [done| |by apply derives_from_all_nodes|done].
    apply derives_from_all_nodes.
    eapply (elem_of_concrete_subclasses root [] y).
    apply list_elem_of_lookup. eauto.
  - intros Hk. apply lookup_position; [apply concrete_of_root_NoDup|].
    by rewrite list_lookup_fmap, Hk.
Qed.

Lemma kind_range_of_segment ancestors n x pre post first rest :
  in_hierarchy root ancestors n ->
  derives_from x root ->
  concrete_subclasses [] root
  = pre ++ concrete_subclasses ancestors n ++ post ->
  concrete_subclasses ancestors n = first :: rest ->
  in_kind_range root (ada_kind_range_bounds ancestors n) x
  <-> x ∈ concrete_subclasses ancestors n.
Proof.
  intros Hn Hx Hseg Hcs.
  assert (derives_from n root) as Hnroot by by exists ancestors.
  assert (forall y, y ∈ concrete_subclasses ancestors n -> derives_from y root)
    as Hin_root.
  { intros y [Hy _]%elem_of_concrete_subclasses.
    by eapply derives_from_trans. }
  unfold ada_kind_range_bounds, in_kind_range. rewrite Hcs. simpl fst; simpl snd.
  rewrite <-Hcs.
  set (mid := concrete_subclasses ancestors n) in *.
  assert (0 < length mid) as Hlen by (rewrite Hcs; simpl; lia).
  assert (mid !! 0 = Some first) as Hfirst by by rewrite Hcs.
  assert (mid !! pred (length mid) = Some (default first (last mid)))
    as Hlast.
  { rewrite <-last_lookup. destruct (last mid) eqn:E; [done|].
    apply last_None in E. rewrite E in Hlen. simpl in Hlen. lia. }
  assert (forall j y, mid !! j = Some y ->
                      concrete_subclasses [] root !! (length pre + j) = Some y)
    as Hshift.
  { intros j y Hj. rewrite Hseg, lookup_app_r by lia.
    replace (length pre + j - length pre) with j by lia.
    rewrite lookup_app_l; [done|]. by eapply lookup_lt_Some. }
  split.
  - intros (f & l & k & Hf & Hl & Hk & Hle).
    apply kind_lookup in Hf; [|apply Hin_root, list_elem_of_lookup; eauto].
    apply kind_lookup in Hl; [|apply Hin_root, list_elem_of_lookup; eauto].
    apply kind_lookup in Hk; [|done].
    pose proof concrete_of_root_NoDup as Hnd. apply NoDup_fmap_1 in Hnd.
    assert (f = length pre + 0) as ->
      by (eapply NoDup_lookup; [exact Hnd|exact Hf|by apply Hshift]).
    assert (l = length pre + pred (length mid)) as ->
      by (eapply NoDup_lookup; [exact Hnd|exact Hl|by apply Hshift]).
    rewrite Hseg, lookup_app_r in Hk by lia.
    rewrite lookup_app_l in Hk by lia.
    apply list_elem_of_lookup. eauto.
  - intros Hxin. apply list_elem_of_lookup in Hxin as [j Hj].
    exists (length pre + 0), (length pre + pred (length mid)), (length pre + j).
    split_and!.
    + apply kind_lookup; [apply Hin_root, list_elem_of_lookup; eauto|].
      by apply Hshift.
    + apply kind_lookup; [apply Hin_root, list_elem_of_lookup; eauto|].
      by apply Hshift.
    + apply kind_lookup; [done|]. by apply Hshift.
    + lia.
    + apply lookup_lt_Some in Hj. lia.
Qed.

(** C2.  [concrete_subclasses] takes the node first when it is concrete and
    then recurses into its direct subclasses sorted by hierarchical name;
    and the kinds between the bounds [ada_kind_range_bounds] gives for a node
    type [n] are exactly the kinds of the concrete node types that are [n]
    or derive from it: for a concrete node type [x] of the hierarchy, [x]'s
    kind lies in the range of [n] if and only if [x] is [n] or a direct or
    indirect subclass of [n]. *)
Theorem kind_range_contiguous ancestors n x :
  in_hierarchy root ancestors n ->
  derives_from x root ->
  abstract x = false ->
  concrete_subclasses ancestors n
  = (if abstract n then [] else [n])
    ++ mjoin (concrete_subclasses (get_inheritance_chain ancestors n)
                <$> sorted (subclasses n)
                      (hierarchical_name (get_inheritance_chain ancestors n)))
  /\ (in_kind_range root (ada_kind_range_bounds ancestors n) x
      <-> derives_from x n).
Proof.
  intros Hn Hx Hconcrete. split; [apply concrete_subclasses_eq|].
  assert (x ∈ concrete_subclasses ancestors n <-> derives_from x n) as <-.
  { rewrite elem_of_concrete_subclasses. tauto. }
  destruct (concrete_subclasses ancestors n) as [|first rest] eqn:Hcs.
  - split; [|by intros ?%elem_of_nil].
    unfold ada_kind_range_bounds, in_kind_range. rewrite Hcs. simpl.
    intros (f & _ & _ & Hf & _).
    assert (derives_from n root) as Hnroot by by exists ancestors.
    apply kind_lookup in Hf; [|done].
    assert (n ∈ concrete_subclasses [] root) as Hnin
      by (apply list_elem_of_lookup; eauto).
    apply elem_of_concrete_subclasses in Hnin as [_ Hna].
    assert (n ∈ concrete_subclasses ancestors n) as Hnn.
    { apply elem_of_concrete_subclasses. split; [apply derives_from_refl|done]. }
    rewrite Hcs in Hnn. by apply elem_of_nil in Hnn.
  - destruct (concrete_subclasses_segment root ancestors n Hn)
      as (pre & post & Hseg).
    rewrite <-Hcs. by eapply kind_range_of_segment.
Qed.

End KindRange.

Lemma kind_range_contiguous_witness :
  let lit := mkNode 2 "Lit" false [] in
  let ref := mkNode 3 "Ref" false [] in
  let expr := mkNode 1 "Expr" true [ref; lit] in
  let decl := mkNode 4 "Decl" false [] in
  let root := mkNode 0 "Root" true [expr; decl] in
  in_kind_range root (ada_kind_range_bounds [root] expr) lit
  <-> derives_from lit expr.
Proof.
  intros lit ref expr decl root.
  assert (in_hierarchy root [root] expr) as Hexpr.
  { apply (in_hierarchy_subclass root [] root expr); [constructor|].
    simpl. left. }
  assert (derives_from lit root) as Hlit.
  { exists [root; expr].
    apply (in_hierarchy_subclass root [root] expr lit Hexpr).
    simpl. right. left. }
  apply (kind_range_contiguous root); [|exact Hexpr|exact Hlit|reflexivity].
  apply (bool_decide_unpack (NoDup (ident <$> all_nodes root))).
  vm_compute. exact I.
Defined.

End HierarchyProps.

(** ** The type repository *)

Module RepoProps.
Import Repo.

(** [preserves P m]: the call [m] keeps the property [P] of the state,
    whether it returns or raises. *)
Definition preserves {A} (P : World -> Prop) (m : M World A) : Prop :=
  forall w, P w -> P (m w).2.

Section Preservation.
Context (P : World -> Prop).

Lemma preserves_ret {A} (a : A) : preserves P (ret a).
Proof. by intros w Hw. Qed.

Lemma preserves_raise {A} e : preserves P (@raise World A e).
Proof. by intros w Hw. Qed.

Lemma preserves_get_state : preserves P get_state.
Proof. by intros w Hw. Qed.

Lemma preserves_bind {A B} (m : M World A) (k : A -> M World B) :
  preserves P m -> (forall a, preserves P (k a)) -> preserves P (bind m k).
Proof.
  intros Hm Hk w Hw. unfold bind. specialize (Hm w Hw).
  destruct (m w) as [[a|e] w']; simpl in *; [by apply Hk | done].
Qed.

Lemma preserves_modify (f : World -> World) :
  (forall w, P w -> P (f w)) -> preserves P (modify f).
Proof. intros Hf w Hw. by apply Hf. Qed.

Lemma preserves_for_each {A} (l : list A) (body : A -> M World unit) :
  (forall x, preserves P (body x)) -> preserves P (for_each l body).
Proof.
  intros Hbody. induction l as [|x l IH]; simpl.
  - apply preserves_ret.
  - by apply preserves_bind.
Qed.

End Preservation.

(** The entries of the memoization caches [m0] are still there. *)
Definition memo_le (m0 m : Memo) : Prop :=
  memo_array m0 ⊆ memo_array m /\ memo_list m0 ⊆ memo_list m
  /\ memo_entity m0 ⊆ memo_entity m.

Definition keeps (m0 : Memo) (w : World) : Prop := memo_le m0 (memo w).

Lemma memo_le_refl m : memo_le m m.
Proof. by split_and!. Qed.

Section MemoKept.
Context (m0 : Memo).
Variable is_keyword : Name -> bool.
Variable builtin_properties : list (string * FieldDecl).

Lemma keeps_frame (f : World -> World) :
  (forall w, memo (f w) = memo w) -> preserves (keeps m0) (modify f).
Proof. intros Hf. apply preserves_modify. unfold keeps. intros w. by rewrite Hf. Qed.

Lemma keeps_lift_diag {A} (m : M Diag.World A) :
  preserves (keeps m0) (lift_diag m).
Proof. by intros w Hw. Qed.

Lemma keeps_alloc : preserves (keeps m0) alloc.
Proof. by intros w Hw. Qed.

Lemma keeps_get_obj t : preserves (keeps m0) (get_obj t).
Proof. intros w Hw. unfold get_obj. by destruct (objects w !! t). Qed.

Lemma keeps_update_obj t f : preserves (keeps m0) (update_obj t f).
Proof. by apply keeps_frame. Qed.

Create HintDb keeps discriminated.

Ltac keeps_step :=
  first
    [ solve [auto 1 with keeps nocore]
    | apply preserves_ret | apply preserves_raise | apply preserves_get_state
    | apply keeps_alloc | apply keeps_get_obj | apply keeps_update_obj
    | apply keeps_lift_diag
    | apply keeps_frame; intros; reflexivity
    | apply preserves_for_each; intros
    | apply preserves_bind; [|intros] ].

Ltac keeps_auto :=
  repeat first
    [ keeps_step
    | match goal with
      | |- preserves _ (match ?x with _ => _ end) => destruct x
      | |- preserves _ (if ?x then _ else _) => destruct x
      end ].

Lemma keeps_CompiledType_init self o trn dsl :
  preserves (keeps m0) (CompiledType_init self o trn dsl).
Proof. unfold CompiledType_init. keeps_auto. Qed.
#[local] Hint Resolve keeps_CompiledType_init : keeps.

Lemma keeps_CompiledType_new nm e trn dsl :
  preserves (keeps m0) (CompiledType_new nm e trn dsl).
Proof.
  unfold CompiledType_new. keeps_auto.
Qed.
#[local] Hint Resolve keeps_CompiledType_new : keeps.

Lemma keeps_ArrayType_new nm e : preserves (keeps m0) (ArrayType_new nm e).
Proof.
  unfold ArrayType_new. keeps_auto.
Qed.
#[local] Hint Resolve keeps_ArrayType_new : keeps.

(** A memoized property only ever adds the entry of its receiver, and only
    when the receiver has none. *)
Lemma keeps_memoized cache store body self :
  (forall m, cache m !! self = None ->
             memo_le m0 m -> cache m0 !! self = None) ->
  (forall r m, cache m0 !! self = None ->
               memo_le m0 m -> memo_le m0 (store self r m)) ->
  preserves (keeps m0) (body self) ->
  preserves (keeps m0) (memoized cache store body self).
Proof.
  intros Hcache Hstore Hbody w Hw. unfold memoized, bind, get_state.
  destruct (cache (memo w) !! self) as [r|] eqn:Hc; [done|].
  specialize (Hbody w Hw).
  destruct (body self w) as [[r|e] w']; simpl in *; [|done].
  apply Hstore; [|done]. by eapply Hcache.
Qed.

Lemma keeps_array t : preserves (keeps m0) (array t).
Proof.
  apply keeps_memoized.
  - intros m Hm (Ha & _ & _).
    destruct (memo_array m0 !! t) as [a|] eqn:E; [|done].
    eapply lookup_weaken in E; [|done]. congruence.
  - intros r m Hm (Ha & Hl & He). split_and!; simpl; [|done|done].
    by apply insert_subseteq_r.
  - keeps_auto.
Qed.
#[local] Hint Resolve keeps_array : keeps.

Lemma keeps_init_fields self fields :
  preserves (keeps m0) (_init_fields self fields).
Proof. unfold _init_fields. keeps_auto. Qed.
#[local] Hint Resolve keeps_init_fields : keeps.

Lemma keeps_StructType_init self c nm fields :
  preserves (keeps m0) (StructType_init is_keyword self c nm fields).
Proof.
  unfold StructType_init. keeps_auto.
Qed.
#[local] Hint Resolve keeps_StructType_init : keeps.

Lemma keeps_entity_info t : preserves (keeps m0) (entity_info_ is_keyword t).
Proof. unfold entity_info_. keeps_auto. Qed.
#[local] Hint Resolve keeps_entity_info : keeps.

Lemma keeps_EntityType_new t :
  preserves (keeps m0) (EntityType_new is_keyword t).
Proof.
  unfold EntityType_new. keeps_auto.
Qed.
#[local] Hint Resolve keeps_EntityType_new : keeps.

Lemma keeps_entity t : preserves (keeps m0) (entity is_keyword t).
Proof.
  apply keeps_memoized.
  - intros m Hm (_ & _ & He).
    destruct (memo_entity m0 !! t) as [a|] eqn:E; [|done].
    eapply lookup_weaken in E; [|done]. congruence.
  - intros r m Hm (Ha & Hl & He). split_and!; simpl; [done|done|].
    by apply insert_subseteq_r.
  - apply keeps_EntityType_new.
Qed.
#[local] Hint Resolve keeps_entity : keeps.

Lemma keeps_ASTNodeType_init new_node args :
  (forall a, preserves (keeps m0) (new_node a)) ->
  preserves (keeps m0)
    (ASTNodeType_init is_keyword builtin_properties new_node args).
Proof.
  intros Hnew. unfold ASTNodeType_init.
  keeps_auto; apply Hnew.
Qed.

Lemma keeps_ASTNodeType_new args :
  preserves (keeps m0) (ASTNodeType_new is_keyword builtin_properties args).
Proof.
  unfold ASTNodeType_new.
  apply keeps_ASTNodeType_init. intros a.
  apply keeps_ASTNodeType_init. intros a'. apply preserves_raise.
Qed.
#[local] Hint Resolve keeps_ASTNodeType_new : keeps.

Lemma keeps_list t :
  preserves (keeps m0) (list_ is_keyword builtin_properties t).
Proof.
  apply keeps_memoized.
  - intros m Hm (_ & Hl & _).
    destruct (memo_list m0 !! t) as [a|] eqn:E; [|done].
    eapply lookup_weaken in E; [|done]. congruence.
  - intros r m Hm (Ha & Hl & He). split_and!; simpl; [done| |done].
    by apply insert_subseteq_r.
  - keeps_auto.
Qed.
#[local] Hint Resolve keeps_list : keeps.

Lemma keeps_resolve td nm : preserves (keeps m0) (resolve td nm).
Proof. unfold resolve. keeps_auto. Qed.
#[local] Hint Resolve keeps_resolve : keeps.

Lemma keeps_TypeRepo_getattr nm : preserves (keeps m0) (TypeRepo_getattr nm).
Proof. unfold TypeRepo_getattr. keeps_auto. Qed.
#[local] Hint Resolve keeps_TypeRepo_getattr : keeps.

Lemma keeps_reset : preserves (keeps m0) reset.
Proof. unfold reset. keeps_auto. Qed.
#[local] Hint Resolve keeps_reset : keeps.

Lemma keeps_exec o :
  preserves (keeps m0) (exec is_keyword builtin_properties o).
Proof.
  destruct o; simpl; keeps_auto.
Qed.

Lemma keeps_run ops w :
  keeps m0 w -> keeps m0 (run is_keyword builtin_properties ops w).
Proof.
  revert w. induction ops as [|o ops IH]; intros w Hw; [done|].
  simpl. apply IH. by apply keeps_exec.
Qed.

End MemoKept.

(** The object [t] was created before, and is of class [c]. *)
Definition has_class (t : ident) (c : type_class) (w : World) : Prop :=
  t < next_ident w /\ cls <$> objects w !! t = Some c.

Section ClassKept.
Context (t : ident) (c : type_class).
Variable is_keyword : Name -> bool.
Variable builtin_properties : list (string * FieldDecl).

Let P := has_class t c.

Lemma class_frame (f : World -> World) :
  (forall w, next_ident (f w) = next_ident w) ->
  (forall w, objects (f w) = objects w) ->
  preserves P (modify f).
Proof.
  intros Hn Ho. apply preserves_modify. unfold P, has_class.
  intros w. by rewrite Hn, Ho.
Qed.

Lemma class_lift_diag {A} (m : M Diag.World A) : preserves P (lift_diag m).
Proof. by intros w Hw. Qed.

Lemma class_get_obj t' : preserves P (get_obj t').
Proof. intros w Hw. unfold get_obj. by destruct (objects w !! t'). Qed.

Lemma class_update_obj t' f :
  (forall o, cls (f o) = cls o) -> preserves P (update_obj t' f).
Proof.
  intros Hf. apply preserves_modify. unfold P, has_class. simpl.
  intros w [Hlt Hc]. split; [done|].
  destruct (decide (t' = t)) as [->|Hne].
  - rewrite lookup_alter_eq. destruct (objects w !! t); simpl in *; [|done].
    by rewrite Hf.
  - by rewrite lookup_alter_ne.
Qed.

Lemma class_bind_alloc {B} (k : ident -> M World B) :
  (forall a, t < a -> preserves P (k a)) -> preserves P (bind alloc k).
Proof.
  intros Hk w [Hlt Hc]. unfold bind, alloc.
  apply Hk; [done|]. split; simpl; [lia | done].
Qed.

Lemma class_insert self o :
  t < self -> preserves P (modify (set_objects (insert self o))).
Proof.
  intros Hlt. apply preserves_modify. unfold P, has_class. simpl.
  intros w [? Hc]. split; [done|]. rewrite lookup_insert_ne; [done|lia].
Qed.

Create HintDb classkept discriminated.
#[local] Hint Extern 1 (_ < _) => lia : classkept.
#[local] Hint Extern 1 (forall o, cls _ = cls o) => (intros; reflexivity)
  : classkept.
#[local] Hint Resolve class_insert class_update_obj : classkept.

Ltac class_step :=
  first
    [ solve [auto 2 with classkept nocore]
    | apply preserves_ret | apply preserves_raise | apply preserves_get_state
    | apply class_get_obj | apply class_lift_diag
    | apply class_frame; intros; reflexivity
    | apply preserves_for_each; intros
    | apply class_bind_alloc; intros ? ?
    | apply preserves_bind; [|intros] ].

Ltac class_auto :=
  repeat first
    [ class_step
    | match goal with
      | |- preserves _ (match ?x with _ => _ end) => destruct x
      | |- preserves _ (if ?x then _ else _) => destruct x
      end ].

Lemma class_CompiledType_init self o trn dsl :
  t < self -> preserves P (CompiledType_init self o trn dsl).
Proof. intros Hlt. unfold CompiledType_init. class_auto. Qed.
#[local] Hint Resolve class_CompiledType_init : classkept.

Lemma class_array t' : preserves P (array t').
Proof. unfold array, memoized, ArrayType_new. class_auto. Qed.
#[local] Hint Resolve class_array : classkept.

Lemma class_StructType_init self c' nm fields :
  t < self -> preserves P (StructType_init is_keyword self c' nm fields).
Proof. intros Hlt. unfold StructType_init, _init_fields. class_auto. Qed.
#[local] Hint Resolve class_StructType_init : classkept.

Lemma class_entity t' : preserves P (entity is_keyword t').
Proof.
  unfold entity, memoized, EntityType_new, entity_info_. class_auto.
Qed.
#[local] Hint Resolve class_entity : classkept.

Lemma class_ASTNodeType_init new_node args :
  (forall a, preserves P (new_node a)) ->
  preserves P (ASTNodeType_init is_keyword builtin_properties new_node args).
Proof.
  intros Hnew. unfold ASTNodeType_init, _init_fields.
  class_auto; apply Hnew.
Qed.

Lemma class_list t' :
  preserves P (list_ is_keyword builtin_properties t').
Proof.
  unfold list_, memoized, ASTNodeType_new. class_auto;
    apply class_ASTNodeType_init; intros;
    apply class_ASTNodeType_init; intros; apply preserves_raise.
Qed.

End ClassKept.

Lemma memoized_hit cache store body self w r :
  cache (memo w) !! self = Some r ->
  memoized cache store body self w = (Returns r, w).
Proof. intros H. unfold memoized, bind, get_state. by rewrite H. Qed.

Lemma memoized_cached cache store body self w r :
  (forall r m, cache (store self r m) !! self = Some r) ->
  (memoized cache store body self w).1 = Returns r ->
  cache (memo (memoized cache store body self w).2) !! self = Some r.
Proof.
  intros Hstore. unfold memoized, bind, get_state.
  destruct (cache (memo w) !! self) as [r'|] eqn:Hc.
  - simpl. by intros [= <-].
  - destruct (body self w) as [[r'|e] w']; simpl; [|done].
    intros [= <-]. apply Hstore.
Qed.

Lemma array_cached t w a :
  (array t w).1 = Returns a ->
  memo_array (memo (array t w).2) !! t = Some a.
Proof.
  apply (memoized_cached memo_array store_array).
  intros r m. apply lookup_insert_eq.
Qed.

Lemma list_cached kw bp t w a :
  (list_ kw bp t w).1 = Returns a ->
  memo_list (memo (list_ kw bp t w).2) !! t = Some a.
Proof.
  apply (memoized_cached memo_list store_list).
  intros r m. apply lookup_insert_eq.
Qed.

Lemma entity_cached kw t w a :
  (entity kw t w).1 = Returns a ->
  memo_entity (memo (entity kw t w).2) !! t = Some a.
Proof.
  apply (memoized_cached memo_entity store_entity).
  intros r m. apply lookup_insert_eq.
Qed.

Lemma array_again t w a :
  (array t w).1 = Returns a ->
  array t (array t w).2 = (Returns a, (array t w).2).
Proof. intros H. by apply memoized_hit, array_cached. Qed.

Lemma list_again kw bp t w a :
  (list_ kw bp t w).1 = Returns a ->
  list_ kw bp t (list_ kw bp t w).2 = (Returns a, (list_ kw bp t w).2).
Proof. intros H. by apply memoized_hit, list_cached. Qed.

Lemma entity_again kw t w a :
  (entity kw t w).1 = Returns a ->
  entity kw t (entity kw t w).2 = (Returns a, (entity kw t w).2).
Proof. intros H. by apply memoized_hit, entity_cached. Qed.

(** [T.array] returns an instance for every compiled type [T]. *)
Lemma array_returns t w o :
  objects w !! t = Some o -> exists a, (array t w).1 = Returns a.
Proof.
  intros Ho. unfold array, memoized, bind, get_state.
  destruct (memo_array (memo w) !! t) as [a|]; [by exists a|].
  unfold get_obj. rewrite Ho. unfold ArrayType_new, bind, get_obj.
  rewrite Ho. simpl. by eexists.
Qed.

(** C1.  Once [T.array], [N.list] or [N.entity] has returned an instance,
    every later request for the same derivation, after any sequence of
    operations on the repository (registrations of new types, other
    derivations, look-ups, a reset), returns the instance of the same
    identity and changes nothing; and [T.array] does return an instance for
    every compiled type [T]. *)
Theorem derived_types_memoized
    (is_keyword : Name -> bool)
    (builtin_properties : list (string * FieldDecl))
    (t : ident) (w : World) (a : ident) (ops : list op) :
  (forall o, objects w !! t = Some o -> exists a', (array t w).1 = Returns a')
  /\ ((array t w).1 = Returns a ->
      let w' := run is_keyword builtin_properties ops (array t w).2 in
      array t w' = (Returns a, w'))
  /\ ((list_ is_keyword builtin_properties t w).1 = Returns a ->
      let w' := run is_keyword builtin_properties ops
                    (list_ is_keyword builtin_properties t w).2 in
      list_ is_keyword builtin_properties t w' = (Returns a, w'))
  /\ ((entity is_keyword t w).1 = Returns a ->
      let w' := run is_keyword builtin_properties ops
                    (entity is_keyword t w).2 in
      entity is_keyword t w' = (Returns a, w')).
Proof.
  split_and!.
  - intros o. apply array_returns.
  - intros Ha w'. apply memoized_hit.
    pose proof (keeps_run _ is_keyword builtin_properties ops _
                  (memo_le_refl (memo (array t w).2))) as (Hk & _ & _).
    eapply lookup_weaken; [|exact Hk]. by apply array_cached.
  - intros Ha w'. apply memoized_hit.
    pose proof (keeps_run _ is_keyword builtin_properties ops _
                  (memo_le_refl
                     (memo (list_ is_keyword builtin_properties t w).2)))
      as (_ & Hk & _).
    eapply lookup_weaken; [|exact Hk]. by apply list_cached.
  - intros Ha w'. apply memoized_hit.
    pose proof (keeps_run _ is_keyword builtin_properties ops _
                  (memo_le_refl (memo (entity is_keyword t w).2)))
      as (_ & _ & Hk).
    eapply lookup_weaken; [|exact Hk]. by apply entity_cached.
Qed.

(** *** Registration *)

(** The registration of [CompiledType.__init__] never fails and never looks
    at the previous binding of the name: the new instance replaces it. *)
Lemma CompiledType_init_registers self o trn dsl w :
  is_Some (dicts w !! type_dict (repo w)) ->
  exists w',
    CompiledType_init self o trn dsl w = (Returns tt, w') /\
    registered w' (py_or trn (py_or dsl (name o))) = Some self /\
    (forall n, n <> py_or trn (py_or dsl (name o)) ->
               registered w' n = registered w n) /\
    diag w' = diag w.
Proof.
  intros [d Hd]. unfold CompiledType_init, bind, modify, get_state. cbn.
  eexists. split; [reflexivity|]. unfold registered. cbn.
  rewrite lookup_alter_eq, Hd. cbn.
  split_and!; [apply lookup_insert_eq| |done].
  intros n Hn. by rewrite lookup_insert_ne.
Qed.

Lemma derived_types_memoized_witness :
  let kw := fun _ : Name => false in
  let w := (ASTNodeType_new kw []
              (mkNodeArgs "FooNode" None [] None false false false None None)
              initial).2 in
  let ops := [OpNewType "Foo" None None None; OpList 1; OpReset; OpArray 2] in
  (let w' := run kw [] ops (array 1 w).2 in array 1 w' = (Returns 13, w'))
  /\ (let w' := run kw [] ops (list_ kw [] 1 w).2 in
      list_ kw [] 1 w' = (Returns 13, w'))
  /\ (let w' := run kw [] ops (entity kw 1 w).2 in
      entity kw 1 w' = (Returns 10, w')).
Proof.
  intros kw w ops. split_and!.
  - apply (derived_types_memoized kw [] 1 w 13 ops). vm_compute. reflexivity.
  - apply (derived_types_memoized kw [] 1 w 13 ops). vm_compute. reflexivity.
  - apply (derived_types_memoized kw [] 1 w 10 ops). vm_compute. reflexivity.
Defined.

(** C3, as the code has it.  Creating a compiled type always succeeds, with
    no diagnostic, and binds the repository name to the new instance,
    whatever the name was bound to before; the other names keep their
    binding. *)
Theorem registration_rebinds nm element_type type_repo_name dsl_name w :
  is_Some (dicts w !! type_dict (repo w)) ->
  exists w',
    CompiledType_new nm element_type type_repo_name dsl_name w
    = (Returns (next_ident w), w') /\
    registered w' (py_or type_repo_name (py_or dsl_name nm))
    = Some (next_ident w) /\
    (forall n, n <> py_or type_repo_name (py_or dsl_name nm) ->
               registered w' n = registered w n) /\
    diag w' = diag w.
Proof.
  intros Hd. unfold CompiledType_new.
  destruct (CompiledType_init_registers (next_ident w)
              (plain_obj cls_CompiledType nm (py_or dsl_name nm) element_type)
              type_repo_name dsl_name (set_next_ident (S (next_ident w)) w) Hd)
    as (w' & Hinit & Hreg & Hother & Hdiag).
  exists w'. split_and!; [|exact Hreg|exact Hother|exact Hdiag].
  unfold bind at 1. unfold alloc at 1. unfold bind. by rewrite Hinit.
Qed.

Lemma registration_rebinds_witness :
  exists w',
    CompiledType_new "Foo" None None None initial = (Returns 1, w') /\
    registered w' "Foo" = Some 1.
Proof.
  destruct (registration_rebinds "Foo" None None None initial)
    as (w' & Hnew & Hreg & _ & _).
  - exists ∅. reflexivity.
  - exists w'. split; [exact Hnew | exact Hreg].
Defined.

(** C3 as stated fails: a second type registered under a name that is bound
    to another type is accepted without any diagnostic, and the name is bound
    to the second type from then on. *)
Lemma duplicate_registration_accepted :
  let r1 := CompiledType_new "Foo" None None None initial in
  let r2 := CompiledType_new "Foo" None None None r1.2 in
  r1.1 = Returns 1 /\ registered r1.2 "Foo" = Some 1 /\
  r2.1 = Returns 2 /\ registered r2.2 "Foo" = Some 2 /\
  Diag.printed (diag r2.2) = [].
Proof. vm_compute. done. Qed.

(** *** Deferred references *)

Section DeferredProps.
Variable is_keyword : Name -> bool.
Variable builtin_properties : list (string * FieldDecl).
Variable py_getattr : Value -> string -> M World Value.
Variable py_call : Value -> list Arg -> list (string * Arg) -> M World Value.

Local Abbreviation getattr :=
  (getattr is_keyword builtin_properties py_getattr).
Local Abbreviation Defer_getattr :=
  (Defer_getattr is_keyword builtin_properties py_getattr).
Local Abbreviation Defer_call := (Defer_call py_call).

(** A successful look-up of a name changes nothing. *)
Lemma resolve_pure td type_name w v w' :
  resolve td type_name w = (Returns v, w') -> w' = w.
Proof.
  unfold resolve, bind, get_state.
  destruct (dicts w !! td) as [d|]; [|done].
  destruct (d !! type_name) as [t|]; [by intros [= _ <-]|].
  unfold lift_diag, Diag.check_source_language. simpl.
  by destruct (Diag.ctx_emitter (diag w)).
Qed.

(** A derived type requested a second time, right after a successful first
    request, is the same instance, and the request changes nothing. *)
Lemma get_obj_returns t w o w' :
  get_obj t w = (Returns o, w') -> w' = w /\ objects w !! t = Some o.
Proof.
  unfold get_obj. destruct (objects w !! t) as [o'|]; [|done].
  by intros [= <- <-].
Qed.

Lemma get_obj_some t w o :
  objects w !! t = Some o -> get_obj t w = (Returns o, w).
Proof. intros H. unfold get_obj. by rewrite H. Qed.

(** After a call that keeps the class of [t], the attributes of [t] can
    still be read and show the same class. *)
Lemma get_obj_after {A} (m : M World A) t w o :
  preserves (has_class t (cls o)) m ->
  t < next_ident w ->
  objects w !! t = Some o ->
  exists o', get_obj t (m w).2 = (Returns o', (m w).2) /\ cls o' = cls o.
Proof.
  intros Hm Hlt Ho. destruct (Hm w) as [_ Hc].
  { split; [done|]. by rewrite Ho. }
  destruct (objects (m w).2 !! t) as [o'|] eqn:Ho'; [|done].
  exists o'. split; [by apply get_obj_some|]. simpl in Hc. congruence.
Qed.

(** A derived type requested a second time, right after a successful first
    request, is the same instance, and the request changes nothing. *)
Lemma getattr_again t name w v w1 :
  derived_attribute name = true ->
  t < next_ident w ->
  getattr (VType t) name w = (Returns v, w1) ->
  getattr (VType t) name w1 = (Returns v, w1).
Proof.
  intros Hname Hlt. unfold derived_attribute in Hname.
  apply bool_decide_eq_true in Hname.
  set_unfold in Hname.
  destruct Hname as [-> | [-> | [-> | [-> | []]]]]; simpl.
  - intros (a & w' & Ha & [= <- <-])%bind_inv_returns.
    pose proof (array_again t w a) as Hc. rewrite Ha in Hc.
    erewrite bind_returns; [|by apply Hc]. done.
  - intros (o & w' & [-> Ho]%get_obj_returns & H)%bind_inv_returns.
    destruct (isinstance_ASTNodeType (cls o)) eqn:Hcls; [|done].
    apply bind_inv_returns in H as (a & w' & Ha & [= <- <-]).
    destruct (get_obj_after (list_ is_keyword builtin_properties t) t w o)
      as (o' & Ho' & Hcls'); [apply class_list|done|done|].
    pose proof (list_again is_keyword builtin_properties t w a) as Hc.
    rewrite Ha in Ho', Hc. simpl in Ho', Hc.
    erewrite bind_returns; [|exact Ho']. rewrite Hcls', Hcls.
    erewrite bind_returns; [|by apply Hc]. done.
  - intros (o & w' & [-> Ho]%get_obj_returns & H)%bind_inv_returns.
    destruct (isinstance_ASTNodeType (cls o)) eqn:Hcls; [|done].
    apply bind_inv_returns in H as (a & w' & Ha & [= <- <-]).
    destruct (get_obj_after (entity is_keyword t) t w o)
      as (o' & Ho' & Hcls'); [apply class_entity|done|done|].
    pose proof (entity_again is_keyword t w a) as Hc.
    rewrite Ha in Ho', Hc. simpl in Ho', Hc.
    erewrite bind_returns; [|exact Ho']. rewrite Hcls', Hcls.
    erewrite bind_returns; [|by apply Hc]. done.
  - by intros [= <- <-].
Qed.

(** The class of the prefix is kept by the request of a derived type. *)
Lemma getattr_keeps_class t name c :
  derived_attribute name = true ->
  preserves (has_class t c) (getattr (VType t) name).
Proof.
  intros Hname. unfold derived_attribute in Hname.
  apply bool_decide_eq_true in Hname. set_unfold in Hname.
  destruct Hname as [-> | [-> | [-> | [-> | []]]]]; simpl.
  - apply preserves_bind; [apply class_array|intros; apply preserves_ret].
  - apply preserves_bind; [apply class_get_obj|intros o].
    destruct (isinstance_ASTNodeType (cls o)); [|apply preserves_raise].
    apply preserves_bind; [apply class_list|intros; apply preserves_ret].
  - apply preserves_bind; [apply class_get_obj|intros o].
    destruct (isinstance_ASTNodeType (cls o)); [|apply preserves_raise].
    apply preserves_bind; [apply class_entity|intros; apply preserves_ret].
  - apply preserves_ret.
Qed.

Lemma failed_check_raises {A} msg (k : unit -> M World A) w r w' :
  bind (lift_diag (Diag.check_source_language false msg Diag.error true false))
       k w = (r, w') ->
  exists e, r = Raises e.
Proof.
  unfold bind, lift_diag, Diag.check_source_language. simpl.
  destruct (Diag.ctx_emitter (diag w)); simpl; intros [= <- _]; eauto.
Qed.

(** Forcing [d.name] a second time, in the state the first forcing left. *)
Lemma forcing_again d name w t w0 v w1 :
  Defer_get d w = (Returns (VType t), w0) ->
  t < next_ident w0 ->
  Defer_get (Defer_getattr d name) w = (Returns v, w1) ->
  Defer_get d w1 = (Returns (VType t), w1) ->
  derived_attribute name = true
  \/ (exists o, objects w0 !! t = Some o
                /\ isinstance_BaseStructType (cls o) = true) ->
  Defer_get (Defer_getattr d name) w1 = (Returns v, w1).
Proof.
  intros Hd Hlt Hforce Hd1 Hname.
  unfold Defer_get in *. simpl in *. unfold getattr_closure in *.
  rewrite (bind_returns _ _ _ _ _ Hd) in Hforce.
  rewrite (bind_returns _ _ _ _ _ Hd1).
  apply bind_inv_returns in Hforce as (st & w' & Hstruct & Hforce).
  apply bind_inv_returns in Hstruct
    as (o & w'' & [-> Ho]%get_obj_returns & [= <- <-]).
  destruct (derived_attribute name) eqn:Hder.
  - assert (getattr (VType t) name w0 = (Returns v, w1)) as Hget
        by by destruct (isinstance_BaseStructType (cls o)).
    destruct (get_obj_after (getattr (VType t) name) t w0 o)
      as (o' & Ho' & Hcls); [by apply getattr_keeps_class|done|done|].
    rewrite Hget in Ho'. simpl in Ho'.
    erewrite bind_returns;
      [|erewrite bind_returns; [reflexivity|exact Ho']].
    rewrite Hcls.
    assert (getattr (VType t) name w1 = (Returns v, w1)) as Hagain
        by by eapply getattr_again.
    by destruct (isinstance_BaseStructType (cls o)).
  - destruct Hname as [|(o2 & Ho2 & Hs)]; [done|].
    assert (o2 = o) as -> by congruence. rewrite Hs in Hforce.
    destruct (_fields o !! name) as [f|] eqn:Hf.
    + injection Hforce as <- <-.
      erewrite bind_returns;
        [|erewrite bind_returns; [reflexivity|by apply get_obj_some]].
      by rewrite Hs, Hf.
    + apply failed_check_raises in Hforce as [e [=]].
Qed.


End DeferredProps.

(** C8 as stated fails: forcing a composed reference is not free of side
    effects.  [T.Foo] is a deferred reference while [Foo] is not declared;
    once [Foo] is registered, the first forcing of [T.Foo.array] creates the
    array type and registers it. *)
Lemma forcing_registers_array_type :
  let none_attr := fun (_ : Value) (_ : string) => @raise World Value AttributeError in
  let d := mkDefer (resolve 0 "Foo") "Foo" in
  let w := (CompiledType_new "Foo" None None None initial).2 in
  let forced :=
    Defer_get (Defer_getattr (fun _ => false) [] none_attr d "array") w in
  TypeRepo_getattr "Foo" initial = (Returns (Deferred d), initial)
  /\ forced.1 = Returns (VType 2)
  /\ registered w "FooArrayType" = None
  /\ registered forced.2 "FooArrayType" = Some 2
  /\ forced.2 <> w.
Proof.
  intros none_attr d w forced. split_and!; [done| | | |].
  - vm_compute. reflexivity.
  - vm_compute. reflexivity.
  - vm_compute. reflexivity.
  - intros Heq. apply (f_equal next_ident) in Heq. vm_compute in Heq.
    discriminate Heq.
Qed.

End RepoProps.

(** ** Precise types *)

Module PreciseProps.
Import Precise.

Lemma for_each_cons {S A} (x : A) xs (body : A -> M S unit) :
  for_each (x :: xs) body = (body x ;; for_each xs body).
Proof. reflexivity. Qed.

Lemma fold_m_cons {S A B} (x : A) xs (acc : B) (body : B -> A -> M S B) :
  fold_m (x :: xs) acc body
  = (let* acc' := body acc x in fold_m xs acc' body).
Proof. reflexivity. Qed.

Section WithTypeSet.
Context {TypeSet : Type}.
Variable TypeSet_of : list ident -> TypeSet.
Variable update : TypeSet -> TypeSet -> TypeSet.
Variable truthy : TypeSet -> bool.

Local Abbreviation Field := (@Field TypeSet).
Local Abbreviation ASTNodeType := (@ASTNodeType TypeSet).
Local Abbreviation State := (@State TypeSet).
Local Abbreviation compute_field := (_compute_precise_types TypeSet_of update).
Local Abbreviation compute_node :=
  (compute_precise_fields_types TypeSet_of update truthy).
Local Abbreviation sets_of := (sets_of TypeSet_of update).
Local Abbreviation cached := (cached TypeSet_of update).
Local Abbreviation initial_sets := (initial_sets TypeSet_of).

Lemma Field_ind (P : Field -> Prop) :
  (forall i ty nu ab sy oc ps cs,
      Forall P cs -> P (mkField i ty nu ab sy oc ps cs)) ->
  forall f, P f.
Proof.
  intros Hf. fix IH 1. intros [i ty nu ab sy oc ps cs]. apply Hf.
  induction cs as [|c cs IHcs]; constructor; [apply IH | apply IHcs].
Qed.

Lemma node_forest_ind (P : ASTNodeType -> Prop) :
  (forall i il subs ps fs, Forall P subs -> P (mkNode i il subs ps fs)) ->
  forall n, P n.
Proof.
  intros Hn. fix IH 1. intros [i il subs ps fs]. apply Hn.
  induction subs as [|c cs IHcs]; constructor; [apply IH | apply IHcs].
Qed.

(** *** States that differ only in the number of type sets constructed *)

Lemma same_caches_refl (st : State) : same_caches st st.
Proof. by split_and!. Qed.

Lemma same_caches_trans (st1 st2 st3 : State) :
  same_caches st1 st2 -> same_caches st2 st3 -> same_caches st1 st3.
Proof. intros (?&?&?) (?&?&?). split_and!; congruence. Qed.

Lemma cached_same (st st' : State) g :
  same_caches st st' -> cached st g -> cached st' g.
Proof. intros (Hp & He & _) [? ?]. split; congruence. Qed.

Lemma new_TypeSet_spec l (st : State) :
  exists st', new_TypeSet TypeSet_of l st = (Returns (TypeSet_of l), st')
              /\ same_caches st st'.
Proof. eexists. split; [reflexivity|]. by split_and!. Qed.

Lemma empty_type_sets_spec ty (st : State) :
  exists st', empty_type_sets TypeSet_of ty st
              = (Returns (initial_sets false ty), st')
              /\ same_caches st st'.
Proof.
  unfold empty_type_sets, Precise.initial_sets.
  destruct (is_list_type ty); eexists; (split; [reflexivity|by split_and!]).
Qed.

Lemma declared_type_sets_inv ty (st : State) r st' :
  declared_type_sets TypeSet_of ty st = (Returns r, st') ->
  r = initial_sets true ty /\ same_caches st st'
  /\ (is_list_type ty = true -> is_Some (element_type ty)).
Proof.
  unfold declared_type_sets, Precise.initial_sets.
  destruct (is_list_type ty); [destruct (element_type ty) as [e|]|];
    cbn; intros [= <- <-]; split_and!; try done; by eauto.
Qed.

Lemma declared_type_sets_spec ty (st : State) :
  (is_list_type ty = true -> is_Some (element_type ty)) ->
  exists st', declared_type_sets TypeSet_of ty st
              = (Returns (initial_sets true ty), st')
              /\ same_caches st st'.
Proof.
  unfold declared_type_sets, Precise.initial_sets. intros Hty.
  destruct (is_list_type ty).
  - destruct Hty as [e ->]; [done|].
    eexists. split; [reflexivity|by split_and!].
  - eexists. split; [reflexivity|by split_and!].
Qed.

Lemma precise_types_cached (st : State) g :
  cached st g -> precise_types g st = (Returns (sets_of g).1, st).
Proof. intros [Hp _]. unfold precise_types. by rewrite Hp. Qed.

Lemma precise_element_types_inv (st : State) g e st' :
  precise_element_types g st = (Returns e, st') ->
  st' = st /\ is_list_field g
  /\ _precise_element_types st !! f_ident g = Some e.
Proof.
  unfold precise_element_types, is_list_field.
  destruct (f_type g) as [ty|]; [|done].
  destruct (is_list_type ty) eqn:Hl; [|done].
  destruct (_precise_element_types st !! f_ident g) as [e'|]; [|done].
  intros [= <- <-]. eauto.
Qed.

Lemma sets_of_list g :
  is_list_field g -> is_Some (sets_of g).2.
Proof.
  intros (ty & Hty & Hl). destruct g as [i ty' nu ab sy oc ps cs].
  simpl in Hty. subst ty'. simpl.
  assert (forall {A} (l : list A) s0 (step : TypeSet -> A -> TypeSet)
                 (estep : TypeSet -> A -> TypeSet),
             is_Some s0.2 ->
             is_Some (foldl (fun sets x =>
                        (step sets.1 x,
                         match sets.2 with
                         | Some e => Some (estep e x)
                         | None => None
                         end)) s0 l).2) as Hfold.
  { intros A l. induction l as [|x l IH]; intros s0 step estep Hs; [done|].
    simpl. apply IH. destruct Hs as [e ->]. by eexists. }
  assert (forall b, is_Some (initial_sets b ty).2) as Hinit.
  { intros b. unfold Precise.initial_sets. rewrite Hl. by eexists. }
  destruct nu; [apply Hinit|]. destruct ab.
  - apply (Hfold _ cs _ (fun a c => update a (sets_of c).1)
             (fun e c => update e (default (TypeSet_of []) (sets_of c).2))).
    apply Hinit.
  - destruct sy; [apply Hinit|].
    apply (Hfold _ ps _ (fun a p => update a (p_precise_types p))
             (fun e p => update e (p_precise_element_types p))).
    apply Hinit.
Qed.

(** *** One computation of the sets of a field *)

Local Abbreviation field_idents :=
  (fun fs : list Field => f_ident <$> mjoin (all_fields <$> fs)).
Local Abbreviation add_field_sets := (add_field_sets TypeSet_of update).
Local Abbreviation add_parser_sets := (add_parser_sets update).

(** The body of the loop over the overriding fields. *)
Local Abbreviation overriders_body :=
  (fun (sets : TypeSet * option TypeSet) (f : Field) =>
     compute_field f;;
     let* ft := precise_types f in
     match sets.2 with
     | Some etypes =>
         let* fe := precise_element_types f in
         ret (update sets.1 ft, Some (update etypes fe))
     | None => ret (update sets.1 ft, None)
     end).

Lemma agree_outside_refl ids (st st' : State) :
  same_caches st st' -> agree_outside ids st st'.
Proof. intros (Hp & He & Hl). split; [|done]. intros i _. by rewrite Hp, He. Qed.

Lemma agree_outside_trans ids1 ids2 (st1 st2 st3 : State) :
  agree_outside ids1 st1 st2 -> agree_outside ids2 st2 st3 ->
  agree_outside (ids1 ++ ids2) st1 st3.
Proof.
  clear TypeSet_of update truthy.
  intros [H12 Hl12] [H23 Hl23]. split; [|congruence].
  intros i Hi. rewrite elem_of_app in Hi.
  destruct (H12 i) as [? ?]; [tauto|]. destruct (H23 i) as [? ?]; [tauto|].
  split; congruence.
Qed.

Lemma agree_outside_weaken ids ids' (st st' : State) :
  (forall i, i ∈ ids -> i ∈ ids') ->
  agree_outside ids st st' -> agree_outside ids' st st'.
Proof. intros Hsub [H Hl]. split; [|done]. intros i Hi. apply H. auto. Qed.

Lemma cached_agree ids (st st' : State) g :
  agree_outside ids st st' -> f_ident g ∉ ids -> cached st g -> cached st' g.
Proof.
  intros [H _] Hg [Hp He]. destruct (H _ Hg) as [Hp' He']. split; congruence.
Qed.

Lemma fold_m_parsers ps sets (st : State) :
  fold_m ps sets (fun sets p =>
    ret (update sets.1 (p_precise_types p),
         match sets.2 with
         | Some etypes => Some (update etypes (p_precise_element_types p))
         | None => None
         end)) st
  = (Returns (foldl add_parser_sets sets ps), st).
Proof.
  revert sets. induction ps as [|p ps IH]; intros sets; [done|].
  rewrite fold_m_cons. erewrite bind_returns; [|reflexivity]. apply IH.
Qed.

Lemma in_all_fields_self (f : Field) : f ∈ all_fields f.
Proof. destruct f. simpl. left. Qed.

(** What one computation of a field establishes. *)
Definition field_computed (f : Field) : Prop :=
  forall (st st' : State),
    NoDup (f_ident <$> all_fields f) ->
    compute_field f st = (Returns tt, st') ->
    computable f
    /\ (forall g, g ∈ all_fields f -> cached st' g)
    /\ agree_outside (f_ident <$> all_fields f) st st'.

Lemma overriders_loop ty cs :
  Forall field_computed cs ->
  forall sets (st : State) sets' st',
    (is_Some sets.2 <-> is_list_type ty = true) ->
    NoDup (field_idents cs) ->
    fold_m cs sets overriders_body st = (Returns sets', st') ->
    sets' = foldl add_field_sets sets cs
    /\ Forall (fun c => computable c
                        /\ (is_list_type ty = true -> is_list_field c)) cs
    /\ (forall g, g ∈ mjoin (all_fields <$> cs) -> cached st' g)
    /\ agree_outside (field_idents cs) st st'.
Proof.
  induction 1 as [|c cs Hc _ IH]; intros sets st sets' st' Hsome Hnd Hrun.
  - injection Hrun as <- <-. split_and!; [done|constructor| |].
    + intros g Hg. by apply elem_of_nil in Hg.
    + by apply agree_outside_refl, same_caches_refl.
  - rewrite fold_m_cons in Hrun.
    apply bind_inv_returns in Hrun as (acc & st1 & Hbody & Hrest).
    apply bind_inv_returns in Hbody as ([] & sa & Hcomp & Hbody).
    simpl in Hnd. rewrite fmap_app in Hnd.
    apply NoDup_app in Hnd as (Hndc & Hdisj & Hndcs).
    destruct (Hc st sa Hndc Hcomp) as (Hok & Hcached & Hagree).
    pose proof (Hcached c (in_all_fields_self c)) as Hcc.
    rewrite (bind_returns _ _ _ _ _ (precise_types_cached sa c Hcc)) in Hbody.
    assert (acc = add_field_sets sets c /\ st1 = sa
            /\ (is_list_type ty = true -> is_list_field c)) as (-> & -> & Hl).
    { unfold Precise.add_field_sets. destruct sets as [ts [e|]]; simpl in *.
      - apply bind_inv_returns in Hbody as (fe & sb & Hfe & [= <- <-]).
        apply precise_element_types_inv in Hfe as (-> & Hlist & Hfe).
        destruct Hcc as [_ Hce]. rewrite Hfe in Hce. rewrite <-Hce. done.
      - injection Hbody as <- <-. split_and!; [done|done|].
        intros Hty. apply Hsome in Hty. by destruct Hty. }
    destruct (IH (add_field_sets sets c) sa sets' st') as (-> & Hall & Hcs & Hag);
      [|done|done|].
    { rewrite <-Hsome. unfold Precise.add_field_sets. simpl.
      destruct sets.2; split; intros [? ?]; try done; by eexists. }
    split_and!; [done|by constructor| |].
    + intros g Hg. simpl in Hg. apply elem_of_app in Hg as [Hg|Hg]; [|auto].
      eapply cached_agree; [exact Hag| |by apply Hcached].
      apply Hdisj. by apply list_elem_of_fmap_2.
    + simpl. rewrite fmap_app. by eapply agree_outside_trans.
Qed.

Lemma computable_overriders ty (cs : list Field) :
  Forall (fun c => computable c
                   /\ (is_list_type ty = true -> is_list_field c)) cs
  <-> (fix all (cs : list Field) : Prop :=
         match cs with
         | [] => True
         | c :: cs' =>
             computable c
             /\ (is_list_type ty = true -> is_list_field c)
             /\ all cs'
         end) cs.
Proof.
  induction cs as [|c cs IH]; [by split; [|constructor]|].
  rewrite Forall_cons, IH. tauto.
Qed.

Lemma assign_cached i (st : State) sets :
  _precise_types (assign_precise_types i sets.1 sets.2 st).2 !! i
  = Some sets.1
  /\ _precise_element_types (assign_precise_types i sets.1 sets.2 st).2 !! i
     = sets.2.
Proof.
  simpl. split; [apply lookup_insert_eq|].
  destruct sets.2; [apply lookup_insert_eq | apply lookup_delete_eq].
Qed.

Lemma assign_agree i (st : State) ts es :
  agree_outside [i] st (assign_precise_types i ts es st).2.
Proof.
  split; [|done]. intros j Hj. rewrite list_elem_of_singleton in Hj. simpl.
  rewrite lookup_insert_ne by done.
  destruct es; [by rewrite lookup_insert_ne|by rewrite lookup_delete_ne].
Qed.

Lemma compute_field_spec f : field_computed f.
Proof.
  induction f as [i ty nu ab sy oc ps cs IH] using Field_ind.
  intros st st' Hnd Hrun. simpl in Hrun.
  destruct ty as [ty|]; [|done].
  apply bind_inv_returns in Hrun as (sets & st2 & Hsets & Hassign).
  injection Hassign as <-.
  assert (forall b,
             sets = initial_sets b ty -> same_caches st st2 ->
             sets_of (mkField i (Some ty) nu ab sy oc ps cs) = sets ->
             all_fields (mkField i (Some ty) nu ab sy oc ps cs)
             = [mkField i (Some ty) nu ab sy oc ps cs] ->
             (forall g, g ∈ all_fields (mkField i (Some ty) nu ab sy oc ps cs) ->
                        cached (assign_precise_types i sets.1 sets.2 st2).2 g)
             /\ agree_outside
                  (f_ident <$> all_fields (mkField i (Some ty) nu ab sy oc ps cs))
                  st (assign_precise_types i sets.1 sets.2 st2).2) as Hleaf.
  { intros b _ Hsame Hsets_of Hall. rewrite Hall. split.
    - intros g ->%list_elem_of_singleton. unfold Precise.cached.
      rewrite Hsets_of. apply assign_cached.
    - apply (agree_outside_trans [] [i] st st2);
        [by apply agree_outside_refl|apply assign_agree]. }
  destruct nu.
  { apply declared_type_sets_inv in Hsets as (-> & Hsame & Hty).
    split; [done|]. by apply (Hleaf true). }
  destruct ab.
  - destruct (empty_type_sets_spec ty st) as (st1 & Hempty & Hsame).
    rewrite (bind_returns _ _ _ _ _ Hempty) in Hsets.
    destruct oc; [|done]. cbn [negb] in Hsets.
    cbn [all_fields negb andb] in Hnd |- *.
    rewrite fmap_cons in Hnd. apply NoDup_cons in Hnd as [Hi Hndcs].
    destruct (overriders_loop ty cs IH (initial_sets false ty) st1 sets st2)
      as (-> & Hall & Hcs & Hag);
      [|done|done|].
    { unfold Precise.initial_sets. simpl.
      destruct (is_list_type ty); split; intros H; try done; by eauto. }
    split_and!.
    + simpl. split; [done|]. by apply computable_overriders.
    + intros g [->|Hg]%elem_of_cons.
      * unfold Precise.cached. apply assign_cached.
      * eapply cached_agree; [apply assign_agree| |by apply Hcs].
        rewrite list_elem_of_singleton. intros Heq. apply Hi. simpl.
        rewrite <-Heq. by apply list_elem_of_fmap_2.
    + rewrite fmap_cons. simpl f_ident.
      eapply agree_outside_weaken;
        [|eapply (agree_outside_trans [] _ st st1);
          [by apply agree_outside_refl|
           eapply agree_outside_trans; [exact Hag|apply assign_agree]]].
      intros j. simpl. rewrite elem_of_app, !elem_of_cons.
      intros [?|[?|[]%elem_of_nil]]; tauto.
  - destruct sy.
    { apply declared_type_sets_inv in Hsets as (-> & Hsame & Hty).
      split; [done|]. by apply (Hleaf true). }
    destruct (empty_type_sets_spec ty st) as (st1 & Hempty & Hsame).
    rewrite (bind_returns _ _ _ _ _ Hempty), fold_m_parsers in Hsets.
    injection Hsets as <- <-. split; [done|].
    set (sets := foldl add_parser_sets (initial_sets false ty) ps).
    assert (forall g,
               g ∈ [mkField i (Some ty) false false false oc ps cs] ->
               cached (assign_precise_types i sets.1 sets.2 st1).2 g) as Hc.
    { intros g ->%list_elem_of_singleton. unfold Precise.cached.
      apply assign_cached. }
    split; [exact Hc|].
    apply (agree_outside_trans [] [i] st st1);
      [by apply agree_outside_refl|apply assign_agree].
Qed.

(** Computing again a field whose sets, and those of the fields below it,
    are in the caches: the computation returns and the caches stay as they
    are. *)
Lemma overriders_loop_again ty cs :
  Forall (fun c => forall st : State,
              computable c -> (forall g, g ∈ all_fields c -> cached st g) ->
              exists st', compute_field c st = (Returns tt, st')
                          /\ same_caches st st') cs ->
  forall sets (st : State),
    (is_Some sets.2 -> is_list_type ty = true) ->
    Forall (fun c => computable c
                     /\ (is_list_type ty = true -> is_list_field c)) cs ->
    (forall g, g ∈ mjoin (all_fields <$> cs) -> cached st g) ->
    exists st',
      fold_m cs sets overriders_body st
      = (Returns (foldl add_field_sets sets cs), st')
      /\ same_caches st st'.
Proof.
  induction 1 as [|c cs Hc _ IH]; intros sets st Hsome Hall Hcached.
  - exists st. split; [done|apply same_caches_refl].
  - apply Forall_cons in Hall as [[Hok Hl] Hall].
    destruct (Hc st Hok) as (sa & Hcomp & Hsame).
    { intros g Hg. apply Hcached. simpl. apply elem_of_app. by left. }
    assert (cached sa c) as Hcc.
    { eapply cached_same; [exact Hsame|]. apply Hcached. simpl.
      apply elem_of_app. left. apply in_all_fields_self. }
    assert (overriders_body sets c st = (Returns (add_field_sets sets c), sa))
      as Hbody.
    { erewrite bind_returns; [|exact Hcomp].
      erewrite bind_returns; [|by apply precise_types_cached].
      unfold Precise.add_field_sets. destruct sets as [ts [e|]]; simpl in *;
        [|done].
      destruct Hl as (cty & Hcty & Hclist); [by apply Hsome|].
      destruct (sets_of_list c) as [ce Hce];
        [by exists cty|].
      destruct Hcc as [_ Hpet]. rewrite Hce in Hpet |- *.
      unfold bind, precise_element_types. by rewrite Hcty, Hclist, Hpet. }
    destruct (IH (add_field_sets sets c) sa) as (st' & Hrest & Hsame');
      [|done| |].
    { unfold Precise.add_field_sets. simpl. intros H. apply Hsome.
      destruct sets.2; [by eexists|by destruct H]. }
    { intros g Hg. eapply cached_same; [exact Hsame|]. apply Hcached.
      simpl. apply elem_of_app. by right. }
    exists st'. split; [|by eapply same_caches_trans].
    rewrite fold_m_cons. erewrite bind_returns; [|exact Hbody]. exact Hrest.
Qed.

Lemma assign_same i (st : State) sets :
  _precise_types st !! i = Some sets.1 ->
  _precise_element_types st !! i = sets.2 ->
  same_caches st (assign_precise_types i sets.1 sets.2 st).2.
Proof.
  intros Hp He. split_and!; simpl; [by apply insert_id| |done].
  destruct sets.2; [by apply insert_id|by apply delete_id].
Qed.

Lemma compute_field_again f :
  forall st : State,
    computable f -> (forall g, g ∈ all_fields f -> cached st g) ->
    exists st', compute_field f st = (Returns tt, st') /\ same_caches st st'.
Proof.
  induction f as [i ty nu ab sy oc ps cs IH] using Field_ind.
  intros st Hok Hcached.
  pose proof (Hcached _ (in_all_fields_self _)) as [Hp He].
  cbn [f_ident] in Hp, He.
  simpl in Hok. destruct ty as [ty|]; [|done].
  assert (forall b st1,
             same_caches st st1 ->
             sets_of (mkField i (Some ty) nu ab sy oc ps cs)
             = initial_sets b ty ->
             exists st',
               bind (ret (initial_sets b ty))
                    (fun sets => assign_precise_types i sets.1 sets.2) st1
               = (Returns tt, st') /\ same_caches st st') as Hleaf.
  { intros b st1 Hsame Hsets. eexists. split; [reflexivity|].
    eapply same_caches_trans; [exact Hsame|].
    destruct Hsame as (Hp1 & He1 & _).
    apply assign_same; rewrite <-Hsets; congruence. }
  simpl compute_field. destruct nu.
  { simpl in Hok.
    destruct (declared_type_sets_spec ty st Hok)
      as (st1 & Hdecl & Hsame).
    destruct (Hleaf true st1 Hsame eq_refl) as (st' & Hrun & Hsame').
    exists st'. split; [|done].
    erewrite bind_returns; [|exact Hdecl]. exact Hrun. }
  destruct ab.
  - simpl in Hok. destruct Hok as [-> Hall%computable_overriders].
    destruct (empty_type_sets_spec ty st) as (st1 & Hempty & Hsame).
    destruct (overriders_loop_again ty cs IH (initial_sets false ty) st1)
      as (st2 & Hloop & Hsame2); [| done | |].
    { unfold Precise.initial_sets. simpl.
      destruct (is_list_type ty); [done|by intros [? ?]]. }
    { intros g Hg. eapply cached_same; [exact Hsame|]. apply Hcached.
      simpl. by right. }
    eexists. split.
    + erewrite bind_returns;
        [|erewrite bind_returns; [exact Hloop|exact Hempty]].
      reflexivity.
    + eapply same_caches_trans; [exact Hsame|].
      eapply same_caches_trans; [exact Hsame2|].
      destruct Hsame as (Hp1 & He1 & _), Hsame2 as (Hp2 & He2 & _).
      apply assign_same;
        [rewrite Hp2, Hp1; exact Hp | rewrite He2, He1; exact He].
  - destruct sy.
    { simpl in Hok.
      destruct (declared_type_sets_spec ty st Hok)
        as (st1 & Hdecl & Hsame).
      destruct (Hleaf true st1 Hsame eq_refl) as (st' & Hrun & Hsame').
      exists st'. split; [|done].
      erewrite bind_returns; [|exact Hdecl]. exact Hrun. }
    destruct (empty_type_sets_spec ty st) as (st1 & Hempty & Hsame).
    eexists. split.
    + erewrite bind_returns;
        [|erewrite bind_returns; [apply fold_m_parsers|exact Hempty]].
      reflexivity.
    + eapply same_caches_trans; [exact Hsame|].
      destruct Hsame as (Hp1 & He1 & _).
      apply assign_same; [rewrite Hp1; exact Hp | rewrite He1; exact He].
Qed.

Lemma all_fields_trans f :
  forall g h : Field, g ∈ all_fields f -> h ∈ all_fields g -> h ∈ all_fields f.
Proof.
  induction f as [i ty nu ab sy oc ps cs IH] using Field_ind.
  intros g h Hg Hh. simpl in Hg. apply elem_of_cons in Hg as [->|Hg]; [done|].
  simpl. right. destruct (negb nu && ab); [|by apply elem_of_nil in Hg].
  apply list_elem_of_join in Hg as (l & Hg & Hl).
  apply list_elem_of_fmap in Hl as (c & -> & Hc).
  rewrite Forall_forall in IH.
  apply list_elem_of_join. exists (all_fields c). split; [by eapply IH|].
  by apply list_elem_of_fmap_2.
Qed.

Lemma computable_below f :
  forall g : Field, computable f -> g ∈ all_fields f -> computable g.
Proof.
  induction f as [i ty nu ab sy oc ps cs IH] using Field_ind.
  intros g Hok Hg. simpl in Hg. apply elem_of_cons in Hg as [->|Hg]; [done|].
  destruct nu; [by apply elem_of_nil in Hg|].
  destruct ab; [|by apply elem_of_nil in Hg]. simpl in Hg, Hok.
  destruct ty as [ty|]; [|done].
  destruct Hok as [_ Hall%computable_overriders].
  apply list_elem_of_join in Hg as (l & Hg & Hl).
  apply list_elem_of_fmap in Hl as (c & -> & Hc).
  rewrite Forall_forall in IH, Hall. eapply IH; [done| |done].
  by apply Hall.
Qed.

Lemma foldl_add_field_sets_fst sets (cs : list Field) :
  (foldl add_field_sets sets cs).1
  = foldl update sets.1 ((fun c => (sets_of c).1) <$> cs).
Proof. revert sets. induction cs as [|c cs IH]; intros sets; [done|apply IH]. Qed.

Lemma foldl_add_field_sets_snd e (ts : TypeSet) (cs : list Field) :
  (foldl add_field_sets (ts, Some e) cs).2
  = Some (foldl update e
            ((fun c => default (TypeSet_of []) (sets_of c).2) <$> cs)).
Proof.
  revert ts e. induction cs as [|c cs IH]; intros ts e; [done|apply IH].
Qed.

(** C4.  After [_compute_precise_types] has run on an abstract parse field
    (with distinct field objects), [precise_types] of the field is the union
    (the successive [update]s of an empty type set) of [precise_types] of the
    fields overriding it; when the field holds a list, the same holds of
    [precise_element_types]; and the pass computing any of these fields again
    leaves all these sets as they are. *)
Theorem abstract_field_precise_types (F : Field) (st st' : State) :
  abstract F = true ->
  null F = false ->
  NoDup (f_ident <$> all_fields F) ->
  compute_field F st = (Returns tt, st') ->
  (exists types ctypes,
      precise_types F st' = (Returns types, st')
      /\ Forall2 (fun c t => precise_types c st' = (Returns t, st'))
                 (_concrete_fields F) ctypes
      /\ types = foldl update (TypeSet_of []) ctypes)
  /\ (is_list_field F ->
      exists etypes cetypes,
        precise_element_types F st' = (Returns etypes, st')
        /\ Forall2 (fun c e => precise_element_types c st' = (Returns e, st'))
                   (_concrete_fields F) cetypes
        /\ etypes = foldl update (TypeSet_of []) cetypes)
  /\ (forall g, g ∈ all_fields F ->
      exists st'', compute_field g st' = (Returns tt, st'')
                   /\ same_caches st' st'').
Proof.
  intros Hab Hnu Hnd Hrun.
  destruct (compute_field_spec F st st' Hnd Hrun) as (Hok & Hcached & _).
  destruct F as [i ty nu ab sy oc ps cs]. simpl in Hab, Hnu. subst ab nu.
  assert (forall c, c ∈ cs ->
                    c ∈ all_fields (mkField i ty false true sy oc ps cs))
    as Hsub.
  { intros c Hc. simpl. right. apply list_elem_of_join.
    exists (all_fields c). split; [apply in_all_fields_self|].
    by apply list_elem_of_fmap_2. }
  simpl in Hok. destruct ty as [ty|]; [|done].
  destruct Hok as [Hoc Hall%computable_overriders].
  pose proof (Hcached _ (in_all_fields_self _)) as HF.
  split_and!.
  - exists (sets_of (mkField i (Some ty) false true sy oc ps cs)).1,
      ((fun c => (sets_of c).1) <$> cs).
    split_and!; [by apply precise_types_cached| |].
    + apply Forall2_fmap_r, Forall_Forall2_diag, Forall_forall.
      intros c Hc. apply precise_types_cached. by apply Hcached, Hsub.
    + simpl. by rewrite foldl_add_field_sets_fst.
  - intros (ty' & [= <-] & Hlist).
    exists (foldl update (TypeSet_of [])
              ((fun c => default (TypeSet_of []) (sets_of c).2) <$> cs)),
      ((fun c => default (TypeSet_of []) (sets_of c).2) <$> cs).
    assert (forall c : Field,
               is_list_field c -> cached st' c ->
               precise_element_types c st'
               = (Returns (default (TypeSet_of []) (sets_of c).2), st'))
      as Hread.
    { intros c (cty & Hcty & Hcl) [_ Hpet].
      destruct (sets_of_list c) as [e He]; [by exists cty|].
      unfold precise_element_types. rewrite Hcty, Hcl, Hpet, He. done. }
    split_and!; [| |done].
    + rewrite Hread; [|by exists ty|done]. f_equal. f_equal. simpl.
      unfold Precise.initial_sets. rewrite Hlist. simpl.
      by rewrite foldl_add_field_sets_snd.
    + apply Forall2_fmap_r, Forall_Forall2_diag, Forall_forall.
      intros c Hc. rewrite Forall_forall in Hall.
      apply Hread; [by apply Hall|by apply Hcached, Hsub].
  - intros g Hg. apply compute_field_again.
    + eapply computable_below; [|exact Hg]. simpl.
      split; [done|by apply computable_overriders].
    + intros h Hh. apply Hcached. by eapply all_fields_trans.
Qed.

(** *** The pass on the fields of a node that is not a list *)

Lemma fields_loop_first (fs : list Field) :
  forall st st' : State,
    NoDup (field_idents fs) ->
    for_each fs compute_field st = (Returns tt, st') ->
    Forall computable fs
    /\ (forall g, g ∈ mjoin (all_fields <$> fs) -> cached st' g)
    /\ agree_outside (field_idents fs) st st'.
Proof.
  induction fs as [|f fs IH]; intros st st' Hnd Hrun.
  - injection Hrun as <-. split_and!; [constructor| |].
    + intros g Hg. by apply elem_of_nil in Hg.
    + apply agree_outside_refl, same_caches_refl.
  - rewrite for_each_cons in Hrun.
    apply bind_inv_returns in Hrun as ([] & sa & Hf & Hrest).
    simpl in Hnd. rewrite fmap_app in Hnd.
    apply NoDup_app in Hnd as (Hndf & Hdisj & Hndfs).
    destruct (compute_field_spec f st sa Hndf Hf) as (Hok & Hcf & Hagf).
    destruct (IH sa st' Hndfs Hrest) as (Hoks & Hcfs & Hagfs).
    split_and!; [by constructor| |].
    + intros g Hg. simpl in Hg. apply elem_of_app in Hg as [Hg|Hg]; [|auto].
      eapply cached_agree; [exact Hagfs| |by apply Hcf].
      apply Hdisj. by apply list_elem_of_fmap_2.
    + simpl. rewrite fmap_app. by eapply agree_outside_trans.
Qed.

Lemma fields_loop_again (fs : list Field) :
  forall st : State,
    Forall computable fs ->
    (forall g, g ∈ mjoin (all_fields <$> fs) -> cached st g) ->
    exists st', for_each fs compute_field st = (Returns tt, st')
                /\ same_caches st st'.
Proof.
  induction fs as [|f fs IH]; intros st Hok Hcached.
  - exists st. split; [done|apply same_caches_refl].
  - apply Forall_cons in Hok as [Hokf Hoks].
    destruct (compute_field_again f st Hokf) as (sa & Hf & Hsame).
    { intros g Hg. apply Hcached. simpl. apply elem_of_app. by left. }
    destruct (IH sa Hoks) as (st' & Hrest & Hsame').
    { intros g Hg. eapply cached_same; [exact Hsame|]. apply Hcached.
      simpl. apply elem_of_app. by right. }
    exists st'. split; [|by eapply same_caches_trans].
    rewrite for_each_cons. erewrite bind_returns; [|exact Hf]. exact Hrest.
Qed.

(** *** The pass on a list node *)

Local Abbreviation settled := (settled TypeSet_of update truthy).
Local Abbreviation list_set := (list_set TypeSet_of update).
Local Abbreviation node_idents :=
  (fun ns : list ASTNodeType => n_ident <$> mjoin (all_nodes <$> ns)).

(** The body of the loop over the subclasses of the list node [i]. *)
Local Abbreviation subclasses_body :=
  (fun (i : ident) (subcls : ASTNodeType) =>
     compute_node subcls;;
     let* st := get_state in
     update_list_element_types update i
       (precise_list_element_types st !! n_ident subcls)).

Lemma settled_unfold (st : State) i il subs leps fs :
  settled st (mkNode i il subs leps fs)
  <-> il = true
      /\ exists ts,
          precise_list_element_types st !! i = Some ts
          /\ (truthy ts = true
              \/ exists parsers,
                  leps = Some parsers
                  /\ Forall (settled st) subs
                  /\ ts = list_set st subs parsers).
Proof.
  assert (Forall (settled st) subs
          <-> (fix all (l : list ASTNodeType) : Prop :=
                 match l with
                 | [] => True
                 | c :: l' => settled st c /\ all l'
                 end) subs) as Hall.
  { induction subs as [|c subs IH]; [by split; [|constructor]|].
    rewrite Forall_cons, IH. tauto. }
  simpl. setoid_rewrite Hall. done.
Qed.

Lemma list_closed_unfold i il subs leps fs :
  list_closed (mkNode i il subs leps fs)
  <-> Forall (fun c : ASTNodeType =>
                (il = true -> is_list c = true) /\ list_closed c) subs.
Proof.
  simpl. induction subs as [|c subs IH]; [by split; [constructor|]|].
  rewrite Forall_cons, IH. tauto.
Qed.

Lemma in_all_nodes_self (n : ASTNodeType) : n ∈ all_nodes n.
Proof. destruct n. simpl. left. Qed.

Lemma list_set_frame (st st' : State) subs ps :
  (forall c, c ∈ subs ->
     precise_list_element_types st' !! n_ident c
     = precise_list_element_types st !! n_ident c) ->
  list_set st' subs ps = list_set st subs ps.
Proof.
  intros H. unfold Precise.list_set. f_equal.
  assert (forall acc,
             foldl (fun a (c : ASTNodeType) =>
                      update a (default (TypeSet_of [])
                        (precise_list_element_types st' !! n_ident c)))
                   acc subs
             = foldl (fun a (c : ASTNodeType) =>
                        update a (default (TypeSet_of [])
                          (precise_list_element_types st !! n_ident c)))
                     acc subs) as Hfold; [|apply Hfold].
  induction subs as [|c subs IH]; intros acc; [done|].
  simpl. rewrite H by left. apply IH. intros c' Hc'. apply H. by right.
Qed.

(** Whether a list node is settled depends on the sets of the node and of
    its subclasses only. *)
Lemma settled_frame n :
  forall st st' : State,
    (forall i, i ∈ n_ident <$> all_nodes n ->
       precise_list_element_types st' !! i
       = precise_list_element_types st !! i) ->
    settled st n -> settled st' n.
Proof.
  induction n as [i il subs leps fs IH] using node_forest_ind.
  intros st st' Hsame. rewrite !settled_unfold.
  intros (Hil & ts & Hts & Hcase). split; [done|]. exists ts. split.
  { rewrite Hsame; [done|]. simpl. left. }
  destruct Hcase as [?|(ps & -> & Hsubs & ->)]; [by left|right].
  assert (forall c, c ∈ subs ->
            forall j, j ∈ n_ident <$> all_nodes c ->
                      j ∈ n_ident <$> all_nodes (mkNode i il subs (Some ps) fs))
    as Hsub.
  { intros c Hc j Hj. simpl. right.
    apply list_elem_of_fmap in Hj as (m & -> & Hm).
    apply list_elem_of_fmap_2, list_elem_of_join.
    exists (all_nodes c). split; [done|]. by apply list_elem_of_fmap_2. }
  exists ps. split_and!; [done| |].
  - rewrite Forall_forall in IH, Hsubs |- *. intros c Hc.
    apply (IH c Hc st st'); [|by apply Hsubs].
    intros j Hj. apply Hsame. by eapply Hsub.
  - symmetry. apply list_set_frame. intros c Hc. apply Hsame.
    eapply Hsub; [done|]. apply list_elem_of_fmap_2, in_all_nodes_self.
Qed.

Lemma update_list_inv i other (st st' : State) :
  update_list_element_types update i other st = (Returns tt, st') ->
  exists ts o,
    precise_list_element_types st !! i = Some ts /\ other = Some o
    /\ st' = (set_list_element_types i (update ts o) st).2.
Proof.
  unfold update_list_element_types, bind, get_state.
  destruct (precise_list_element_types st !! i) as [ts|]; [|done].
  destruct other as [o|]; [|done]. intros [= <-]. by exists ts, o.
Qed.

Lemma update_list_ok i ts o (st : State) :
  precise_list_element_types st !! i = Some ts ->
  update_list_element_types update i (Some o) st
  = (Returns tt, (set_list_element_types i (update ts o) st).2).
Proof.
  intros H. unfold update_list_element_types, bind, get_state. by rewrite H.
Qed.

Lemma parsers_loop i (ps : list Parser) :
  forall (st : State) acc,
    precise_list_element_types st !! i = Some acc ->
    exists st',
      for_each ps (fun p =>
        update_list_element_types update i (Some (p_precise_types p))) st
      = (Returns tt, st')
      /\ precise_list_element_types st'
         = <[i := foldl update acc (p_precise_types <$> ps)]>
             (precise_list_element_types st)
      /\ _precise_types st' = _precise_types st
      /\ _precise_element_types st' = _precise_element_types st.
Proof.
  induction ps as [|p ps IH]; intros st acc Hacc.
  - exists st. split_and!; [done| |done|done]. simpl. by rewrite insert_id.
  - destruct (IH (set_list_element_types i (update acc (p_precise_types p)) st).2
                 (update acc (p_precise_types p)))
      as (st' & Hrun & Hl & Hp & He); [apply lookup_insert_eq|].
    exists st'. split_and!; [|by rewrite Hl; simpl; rewrite insert_insert_eq|done|done].
    rewrite for_each_cons. erewrite bind_returns; [|by apply update_list_ok].
    exact Hrun.
Qed.

(** What a first pass on a list node establishes. *)
Definition list_first (c : ASTNodeType) : Prop :=
  forall st st' : State,
    is_list c = true -> list_closed c ->
    NoDup (n_ident <$> all_nodes c) ->
    compute_node c st = (Returns tt, st') ->
    settled st' c /\ agree_lists_outside (n_ident <$> all_nodes c) st st'.

Lemma subclasses_loop_first i subs :
  Forall list_first subs ->
  forall acc (st st' : State),
    precise_list_element_types st !! i = Some acc ->
    i ∉ node_idents subs -> NoDup (node_idents subs) ->
    Forall (fun c : ASTNodeType => is_list c = true /\ list_closed c) subs ->
    for_each subs (subclasses_body i) st = (Returns tt, st') ->
    precise_list_element_types st' !! i
    = Some (foldl (fun a (c : ASTNodeType) =>
                     update a (default (TypeSet_of [])
                       (precise_list_element_types st' !! n_ident c)))
                  acc subs)
    /\ Forall (settled st') subs
    /\ agree_lists_outside (i :: node_idents subs) st st'.
Proof.
  induction 1 as [|c subs Hc _ IH]; intros acc st st' Hacc Hi Hnd Hwf Hrun.
  - injection Hrun as <-. split_and!; [done|constructor|by split_and!].
  - rewrite for_each_cons in Hrun.
    apply bind_inv_returns in Hrun as ([] & sb & Hbody & Hrest).
    apply bind_inv_returns in Hbody as ([] & sa & Hcomp & Hupd).
    unfold bind, get_state in Hupd.
    apply update_list_inv in Hupd as (ts0 & v & Hts0 & Hv & ->).
    apply Forall_cons in Hwf as [[Hil Hcl] Hwf].
    simpl in Hnd, Hi. rewrite fmap_app in Hnd, Hi.
    apply NoDup_app in Hnd as (Hndc & Hdisj & Hnds).
    rewrite elem_of_app in Hi.
    destruct (Hc st sa Hil Hcl Hndc Hcomp) as (Hsc & Hagc & Hpc & Hec).
    assert (n_ident c ∈ n_ident <$> all_nodes c) as Hcin
        by apply list_elem_of_fmap_2, in_all_nodes_self.
    assert (ts0 = acc) as ->.
    { rewrite Hagc in Hts0 by tauto. congruence. }
    set (sb := (set_list_element_types i (update acc v) sa).2) in *.
    destruct (IH (update acc v) sb st') as (Hfold & Hsubs & Hags & Hps & Hes);
      [apply lookup_insert_eq|tauto|done|done|done|].
    assert (forall j, j ∈ n_ident <$> all_nodes c ->
              precise_list_element_types st' !! j
              = precise_list_element_types sa !! j) as Hkeep.
    { intros j Hj. rewrite Hags.
      - simpl. apply lookup_insert_ne. intros ->. tauto.
      - rewrite elem_of_cons. intros [->|Hjs]; [tauto|].
        by apply (Hdisj j). }
    split_and!.
    + rewrite Hfold. simpl. by rewrite (Hkeep _ Hcin), Hv.
    + constructor; [|done]. by eapply settled_frame; [|exact Hsc].
    + split_and!; [|by rewrite Hps|by rewrite Hes].
      intros j Hj. simpl in Hj. rewrite fmap_app in Hj.
      rewrite elem_of_cons, elem_of_app in Hj.
      rewrite Hags by (rewrite elem_of_cons; tauto).
      simpl. rewrite lookup_insert_ne by (intros ->; tauto).
      apply Hagc. tauto.
Qed.

Lemma compute_list_first n : list_first n.
Proof.
  induction n as [i il subs leps fs IH] using node_forest_ind.
  intros st st' Hil Hclosed Hnd Hrun. simpl in Hil. subst il.
  apply list_closed_unfold in Hclosed.
  simpl in Hnd. apply NoDup_cons in Hnd as [Hi Hnds].
  simpl in Hrun. unfold bind at 1 in Hrun. unfold get_state at 1 in Hrun.
  destruct (match precise_list_element_types st !! i with
            | Some ts => truthy ts
            | None => false
            end) eqn:Hcomputed.
  { injection Hrun as <-. split; [|by split_and!].
    apply settled_unfold. split; [done|].
    destruct (precise_list_element_types st !! i) as [ts|]; [|done].
    exists ts. split; [done|by left]. }
  apply bind_inv_returns in Hrun as (types & st1 & [= <- <-] & Hrun).
  apply bind_inv_returns in Hrun as ([] & st2 & [= <-] & Hrun).
  apply bind_inv_returns in Hrun as ([] & st3 & Hsubs & Hrun).
  destruct leps as [ps|]; [|done].
  apply subclasses_loop_first with (acc := TypeSet_of []) in Hsubs
      as (Hacc & Hsettled & Hag & Hp3 & He3);
    [|done|apply lookup_insert_eq|done|done|].
  2:{ eapply Forall_impl; [exact Hclosed|]. intros c [? ?]. auto. }
  destruct (parsers_loop i ps st3 _ Hacc) as (st4 & Hps & Hl4 & Hp4 & He4).
  rewrite Hps in Hrun. injection Hrun as <-.
  assert (forall j, j <> i ->
            precise_list_element_types st4 !! j
            = precise_list_element_types st3 !! j) as Hkeep.
  { intros j Hj. rewrite Hl4. by apply lookup_insert_ne. }
  assert (forall c : ASTNodeType, c ∈ subs ->
            forall j, j ∈ n_ident <$> all_nodes c -> j ∈ node_idents subs)
    as Hsub.
  { intros c Hc j Hj. apply list_elem_of_fmap in Hj as (m & -> & Hm).
    apply list_elem_of_fmap_2, list_elem_of_join.
    exists (all_nodes c). split; [done|]. by apply list_elem_of_fmap_2. }
  split.
  - apply settled_unfold. split; [done|].
    eexists. split; [rewrite Hl4; apply lookup_insert_eq|].
    right. exists ps. split_and!; [done| |].
    + rewrite Forall_forall in Hsettled |- *. intros c Hc.
      eapply settled_frame; [|by apply Hsettled].
      intros j Hj. apply Hkeep. intros ->. apply Hi. by eapply Hsub.
    + change (list_set st3 subs ps = list_set st4 subs ps).
      symmetry. apply list_set_frame. intros c Hc. apply Hkeep.
      intros Heq. apply Hi. rewrite <-Heq. eapply Hsub; [done|].
      apply list_elem_of_fmap_2, in_all_nodes_self.
  - split_and!; [|by rewrite Hp4, Hp3|by rewrite He4, He3].
    intros j Hj. simpl in Hj. rewrite elem_of_cons in Hj.
    assert (j <> i) as Hji by (intros Heq; apply Hj; by left).
    rewrite Hkeep by done. rewrite Hag by (rewrite elem_of_cons; exact Hj).
    simpl. by apply lookup_insert_ne.
Qed.

Lemma settled_is_Some (st : State) (c : ASTNodeType) :
  settled st c -> is_Some (precise_list_element_types st !! n_ident c).
Proof.
  destruct c as [i il subs leps fs]. rewrite settled_unfold.
  intros (_ & ts & Hts & _). by exists ts.
Qed.

(** What a further pass on a settled list node does. *)
Definition list_again (c : ASTNodeType) : Prop :=
  forall st : State,
    settled st c -> NoDup (n_ident <$> all_nodes c) ->
    exists st', compute_node c st = (Returns tt, st') /\ same_caches st st'.

Lemma subclasses_loop_again i subs (st0 : State) :
  Forall list_again subs ->
  Forall (settled st0) subs ->
  i ∉ node_idents subs -> NoDup (node_idents subs) ->
  forall acc (st : State),
    precise_list_element_types st !! i = Some acc ->
    (forall j, j <> i ->
       precise_list_element_types st !! j
       = precise_list_element_types st0 !! j) ->
    exists st',
      for_each subs (subclasses_body i) st = (Returns tt, st')
      /\ precise_list_element_types st'
         = <[i := foldl (fun a (c : ASTNodeType) =>
                           update a (default (TypeSet_of [])
                             (precise_list_element_types st0 !! n_ident c)))
                        acc subs]>
             (precise_list_element_types st)
      /\ _precise_types st' = _precise_types st
      /\ _precise_element_types st' = _precise_element_types st.
Proof.
  induction 1 as [|c subs Hc _ IH]; intros Hsettled Hi Hnd acc st Hacc Hout.
  - exists st. split_and!; [done| |done|done]. simpl. by rewrite insert_id.
  - apply Forall_cons in Hsettled as [Hsc Hsettled].
    simpl in Hnd, Hi. rewrite fmap_app in Hnd, Hi.
    apply NoDup_app in Hnd as (Hndc & Hdisj & Hnds).
    rewrite elem_of_app in Hi.
    assert (forall j, j ∈ n_ident <$> all_nodes c -> j <> i) as Hne
        by (intros j Hj ->; tauto).
    destruct (Hc st) as (sa & Hcomp & Hp & He & Hl); [|done|].
    { eapply settled_frame; [|exact Hsc]. intros j Hj. by apply Hout, Hne. }
    destruct (settled_is_Some st0 c Hsc) as [v Hv].
    assert (n_ident c <> i) as Hci
        by apply Hne, list_elem_of_fmap_2, in_all_nodes_self.
    set (sb := (set_list_element_types i (update acc v) sa).2).
    destruct (IH Hsettled) with (acc := update acc v) (st := sb)
      as (st' & Hrest & Hl' & Hp' & He'); [tauto|done|apply lookup_insert_eq| |].
    { intros j Hj. simpl. rewrite lookup_insert_ne by done.
      rewrite Hl. by apply Hout. }
    exists st'. split_and!.
    + rewrite for_each_cons.
      erewrite bind_returns; [exact Hrest|].
      erewrite bind_returns; [|exact Hcomp].
      unfold bind, get_state. rewrite Hl, (Hout _ Hci), Hv.
      apply update_list_ok. by rewrite Hl.
    + rewrite Hl'. simpl. rewrite insert_insert_eq, Hl, Hv. done.
    + by rewrite Hp'.
    + by rewrite He'.
Qed.

Lemma compute_list_again n : list_again n.
Proof.
  induction n as [i il subs leps fs IH] using node_forest_ind.
  intros st Hsettled Hnd. apply settled_unfold in Hsettled
    as (-> & ts & Hts & Hcase).
  simpl in Hnd. apply NoDup_cons in Hnd as [Hi Hnds].
  simpl. unfold bind at 1. unfold get_state at 1. rewrite Hts.
  destruct (truthy ts) eqn:Htruthy.
  { exists st. split; [done|apply same_caches_refl]. }
  destruct Hcase as [?|(ps & -> & Hsubs & ->)]; [congruence|].
  destruct (new_TypeSet_spec [] st) as (st1 & Hnew & Hp1 & He1 & Hl1).
  set (st2 := (set_list_element_types i (TypeSet_of []) st1).2).
  destruct (subclasses_loop_again i subs st IH Hsubs Hi Hnds
              (TypeSet_of []) st2)
    as (st3 & Hloop & Hl3 & Hp3 & He3); [apply lookup_insert_eq| |].
  { intros j Hj. simpl. rewrite lookup_insert_ne by done. by rewrite Hl1. }
  destruct (parsers_loop i ps st3
              (foldl (fun a (c : ASTNodeType) =>
                        update a (default (TypeSet_of [])
                          (precise_list_element_types st !! n_ident c)))
                     (TypeSet_of []) subs))
    as (st4 & Hps & Hl4 & Hp4 & He4).
  { rewrite Hl3. apply lookup_insert_eq. }
  exists st4. split.
  - erewrite bind_returns; [|exact Hnew].
    erewrite bind_returns; [|reflexivity].
    erewrite bind_returns; [|exact Hloop]. exact Hps.
  - split_and!; [by rewrite Hp4, Hp3|by rewrite He4, He3|].
    rewrite Hl4, Hl3. simpl. rewrite !insert_insert_eq, Hl1.
    by apply insert_id.
Qed.

(** *** The pass run twice *)

(** The well-formedness of a node for the pass: distinct node and field
    objects, and list nodes below list nodes. *)
Definition well_formed (n : ASTNodeType) : Prop :=
  list_closed n
  /\ NoDup (n_ident <$> all_nodes n)
  /\ NoDup (f_ident <$> node_fields n).

(** The pass is idempotent on the sets: a second run on a node returns and
    leaves every [precise_types], [precise_element_types] and
    [precise_list_element_types] as the first run left it.  A list node whose
    set is computed (and true in a condition) is skipped: the state is left
    as it is, no type set is even constructed. *)
Theorem precise_fields_types_idempotent (n : ASTNodeType) (st st1 : State) :
  well_formed n ->
  compute_node n st = (Returns tt, st1) ->
  (exists st2, compute_node n st1 = (Returns tt, st2) /\ same_caches st1 st2)
  /\ (forall ts,
        is_list n = true ->
        precise_list_element_types st1 !! n_ident n = Some ts ->
        truthy ts = true ->
        compute_node n st1 = (Returns tt, st1)).
Proof.
  intros (Hclosed & Hnd & Hndf) Hrun. split.
  - destruct (is_list n) eqn:Hil.
    + apply compute_list_again; [|done].
      by apply (compute_list_first n st st1).
    + destruct n as [i il subs leps fs]. simpl in Hil. subst il.
      simpl in Hrun |- *.
      destruct (fields_loop_first fs st st1 Hndf Hrun) as (Hok & Hcached & _).
      by apply fields_loop_again.
  - intros ts Hil Hts Htruthy. destruct n as [i il subs leps fs].
    simpl in Hil, Hts. subst il. simpl.
    unfold bind, get_state. by rewrite Hts, Htruthy.
Qed.

Lemma overriders_loop_returns ty cs :
  Forall (fun c => computable c -> NoDup (f_ident <$> all_fields c) ->
                   forall st : State,
                     exists st', compute_field c st = (Returns tt, st')) cs ->
  Forall (fun c => computable c
                   /\ (is_list_type ty = true -> is_list_field c)) cs ->
  NoDup (field_idents cs) ->
  forall sets (st : State),
    (is_Some sets.2 -> is_list_type ty = true) ->
    exists sets' st',
      fold_m cs sets overriders_body st = (Returns sets', st').
Proof.
  induction 1 as [|c cs Hc _ IH]; intros Hall Hnd sets st Hsome.
  - by exists sets, st.
  - apply Forall_cons in Hall as [[Hok Hl] Hall].
    simpl in Hnd. rewrite fmap_app in Hnd.
    apply NoDup_app in Hnd as (Hndc & _ & Hndcs).
    destruct (Hc Hok Hndc st) as (sa & Hcomp).
    destruct (compute_field_spec c st sa Hndc Hcomp) as (_ & Hcached & _).
    pose proof (Hcached c (in_all_fields_self c)) as Hcc.
    assert (overriders_body sets c st = (Returns (add_field_sets sets c), sa))
      as Hbody.
    { erewrite bind_returns; [|exact Hcomp].
      erewrite bind_returns; [|by apply precise_types_cached].
      unfold Precise.add_field_sets. destruct sets as [ts [e|]]; simpl in *;
        [|done].
      destruct Hl as (cty & Hcty & Hclist); [by apply Hsome|].
      destruct (sets_of_list c) as [ce Hce];
        [by exists cty|].
      destruct Hcc as [_ Hpet]. rewrite Hce in Hpet |- *.
      unfold bind, precise_element_types. by rewrite Hcty, Hclist, Hpet. }
    destruct (IH Hall Hndcs (add_field_sets sets c) sa)
      as (sets' & st' & Hrest).
    { unfold Precise.add_field_sets. simpl. intros H. apply Hsome.
      destruct sets.2; [by eexists|by destruct H]. }
    exists sets', st'.
    rewrite fold_m_cons. erewrite bind_returns; [|exact Hbody]. exact Hrest.
Qed.

(** A computable field is computed whatever the state is. *)
Lemma compute_field_returns f :
  computable f -> NoDup (f_ident <$> all_fields f) ->
  forall st : State, exists st', compute_field f st = (Returns tt, st').
Proof.
  induction f as [i ty nu ab sy oc ps cs IH] using Field_ind.
  intros Hok Hnd st. simpl in Hok. destruct ty as [ty|]; [|done].
  simpl compute_field. destruct nu.
  { simpl in Hok.
    destruct (declared_type_sets_spec ty st Hok) as (st1 & Hdecl & _).
    eexists. erewrite bind_returns; [|exact Hdecl]. reflexivity. }
  destruct ab.
  - simpl in Hok. destruct Hok as [-> Hall%computable_overriders].
    cbn [all_fields negb andb] in Hnd. rewrite fmap_cons in Hnd.
    apply NoDup_cons in Hnd as [_ Hndcs].
    destruct (empty_type_sets_spec ty st) as (st1 & Hempty & _).
    destruct (overriders_loop_returns ty cs IH Hall Hndcs
                (initial_sets false ty) st1) as (sets' & st2 & Hloop).
    { unfold Precise.initial_sets. simpl.
      destruct (is_list_type ty); [done|by intros [? ?]]. }
    eexists.
    erewrite bind_returns;
      [|erewrite bind_returns; [exact Hloop|exact Hempty]].
    reflexivity.
  - destruct sy.
    { simpl in Hok.
      destruct (declared_type_sets_spec ty st Hok) as (st1 & Hdecl & _).
      eexists. erewrite bind_returns; [|exact Hdecl]. reflexivity. }
    destruct (empty_type_sets_spec ty st) as (st1 & Hempty & _).
    eexists.
    erewrite bind_returns;
      [|erewrite bind_returns; [apply fold_m_parsers|exact Hempty]].
    reflexivity.
Qed.

(** [Field._compute_precise_types] raises nothing exactly when the field and
    the fields overriding it satisfy [computable], a condition on the fields
    alone: the state the pass starts from plays no role.  When it returns,
    the caches of the field and of every field that overrides it hold
    [sets_of], a function of the fields and their parsers alone, and the
    caches of all other fields and of the list nodes are as before. *)
Theorem field_pass_returns_iff_computable (f : Field) (st : State) :
  NoDup (f_ident <$> all_fields f) ->
  (computable f <-> exists st', compute_field f st = (Returns tt, st'))
  /\ (forall st',
        compute_field f st = (Returns tt, st') ->
        (forall g, g ∈ all_fields f ->
           precise_types g st' = (Returns (sets_of g).1, st')
           /\ _precise_element_types st' !! f_ident g = (sets_of g).2)
        /\ agree_outside (f_ident <$> all_fields f) st st').
Proof.
  intros Hnd. split; [split|].
  - intros Hok. by apply compute_field_returns.
  - intros (st' & Hrun).
    by destruct (compute_field_spec f st st' Hnd Hrun) as (? & _).
  - intros st' Hrun.
    destruct (compute_field_spec f st st' Hnd Hrun) as (_ & Hcached & Hag).
    split; [|done]. intros g Hg. specialize (Hcached g Hg).
    split; [by apply precise_types_cached|by destruct Hcached].
Qed.

Lemma declared_created ty (st : State) r st' :
  declared_type_sets TypeSet_of ty st = (Returns r, st') ->
  typesets_created st < typesets_created st'.
Proof.
  unfold declared_type_sets.
  destruct (is_list_type ty); [destruct (element_type ty) as [e|]|];
    cbn; intros [= <- <-]; simpl; lia.
Qed.

Lemma empty_created ty (st : State) r st' :
  empty_type_sets TypeSet_of ty st = (r, st') ->
  typesets_created st < typesets_created st'.
Proof.
  unfold empty_type_sets.
  destruct (is_list_type ty); cbn; intros [= <- <-]; simpl; lia.
Qed.

Lemma precise_types_inv (st : State) g t st' :
  precise_types g st = (Returns t, st') -> st' = st.
Proof.
  unfold precise_types. destruct (_precise_types st !! f_ident g); [|done].
  by intros [= _ <-].
Qed.

Lemma overriders_created cs :
  Forall (fun c => forall st st' : State,
              compute_field c st = (Returns tt, st') ->
              typesets_created st < typesets_created st') cs ->
  forall sets (st : State) sets' st',
    fold_m cs sets overriders_body st = (Returns sets', st') ->
    typesets_created st <= typesets_created st'.
Proof.
  induction 1 as [|c cs Hc _ IH]; intros sets st sets' st' Hrun.
  - by injection Hrun as <- <-.
  - rewrite fold_m_cons in Hrun.
    apply bind_inv_returns in Hrun as (acc & st1 & Hbody & Hrest).
    apply bind_inv_returns in Hbody as ([] & sa & Hcomp & Hbody).
    apply bind_inv_returns in Hbody as (ft & sb & ->%precise_types_inv & Hbody).
    assert (st1 = sa) as ->.
    { destruct sets.2.
      - apply bind_inv_returns in Hbody as (fe & sc & Hfe & [= _ <-]).
        by apply precise_element_types_inv in Hfe as (-> & _).
      - by injection Hbody as _ <-. }
    apply Hc in Hcomp. apply IH in Hrest. lia.
Qed.

(** Every successful run on a field constructs type sets. *)
Lemma compute_field_created f :
  forall st st' : State,
    compute_field f st = (Returns tt, st') ->
    typesets_created st < typesets_created st'.
Proof.
  induction f as [i ty nu ab sy oc ps cs IH] using Field_ind.
  intros st st' Hrun. simpl in Hrun. destruct ty as [ty|]; [|done].
  apply bind_inv_returns in Hrun as (sets & st2 & Hsets & Hassign).
  injection Hassign as <-. simpl.
  destruct nu; [by eapply declared_created|].
  destruct ab.
  - apply bind_inv_returns in Hsets as (s0 & st1 & Hempty & Hloop).
    apply empty_created in Hempty.
    destruct oc; [|done]. cbn [negb] in Hloop.
    apply (overriders_created cs IH) in Hloop. lia.
  - destruct sy; [by eapply declared_created|].
    apply bind_inv_returns in Hsets as (s0 & st1 & Hempty & Hloop).
    apply empty_created in Hempty.
    rewrite fold_m_parsers in Hloop. injection Hloop as _ <-. lia.
Qed.

Lemma fields_loop_created (fs : list Field) :
  forall st st' : State,
    for_each fs compute_field st = (Returns tt, st') ->
    typesets_created st + length fs <= typesets_created st'.
Proof.
  induction fs as [|f fs IH]; intros st st' Hrun.
  - injection Hrun as <-. simpl. lia.
  - rewrite for_each_cons in Hrun.
    apply bind_inv_returns in Hrun as ([] & st1 & Hf & Hrest).
    apply compute_field_created in Hf. apply IH in Hrest. simpl. lia.
Qed.

(** On a node that is not a list the pass is never skipped: each successful
    run constructs at least one new type set per parse field, also when
    every set was computed before.  A run after a successful run returns,
    and leaves every cached set as it was, yet it is not a no-operation. *)
Theorem non_list_pass_recomputes (n : ASTNodeType) (st st1 : State) :
  is_list n = false ->
  NoDup (f_ident <$> node_fields n) ->
  compute_node n st = (Returns tt, st1) ->
  typesets_created st + length (parse_fields n) <= typesets_created st1
  /\ exists st2,
       compute_node n st1 = (Returns tt, st2)
       /\ same_caches st1 st2
       /\ typesets_created st1 + length (parse_fields n)
          <= typesets_created st2.
Proof.
  intros Hil Hnd Hrun. destruct n as [i il subs leps fs].
  simpl in Hil. subst il. simpl in Hrun |- *.
  split; [by apply fields_loop_created|].
  destruct (fields_loop_first fs st st1 Hnd Hrun) as (Hok & Hcached & _).
  destruct (fields_loop_again fs st1 Hok Hcached) as (st2 & Hagain & Hsame).
  exists st2. split_and!; [done|done|by apply fields_loop_created].
Qed.


End WithTypeSet.

Import PreciseSample.

Lemma abstract_field_precise_types_witness :
  exists types ctypes,
    precise_types abstract_field
      (_compute_precise_types TypeSet_of update abstract_field no_sets).2
    = (Returns types,
       (_compute_precise_types TypeSet_of update abstract_field no_sets).2)
    /\ Forall2
         (fun c t =>
            precise_types c
              (_compute_precise_types TypeSet_of update abstract_field
                 no_sets).2
            = (Returns t,
               (_compute_precise_types TypeSet_of update abstract_field
                  no_sets).2))
         (_concrete_fields abstract_field) ctypes
    /\ types = foldl update (TypeSet_of []) ctypes.
Proof.
  destruct (abstract_field_precise_types TypeSet_of update abstract_field
              no_sets
              (_compute_precise_types TypeSet_of update abstract_field
                 no_sets).2) as [H _].
  - reflexivity.
  - reflexivity.
  - apply (bool_decide_unpack _). by vm_compute.
  - by vm_compute.
  - exact H.
Defined.

Lemma precise_fields_types_idempotent_witness :
  exists st2,
    compute_precise_fields_types TypeSet_of update truthy list_node
      (compute_precise_fields_types TypeSet_of update truthy list_node
         no_sets).2
    = (Returns tt, st2)
    /\ same_caches
         (compute_precise_fields_types TypeSet_of update truthy list_node
            no_sets).2 st2.
Proof.
  destruct (precise_fields_types_idempotent TypeSet_of update truthy
              list_node no_sets
              (compute_precise_fields_types TypeSet_of update truthy
                 list_node no_sets).2) as [H _].
  - split_and!.
    + simpl. tauto.
    + apply (bool_decide_unpack _). by vm_compute.
    + apply (bool_decide_unpack _). by vm_compute.
  - by vm_compute.
  - exact H.
Defined.

Lemma field_pass_returns_iff_computable_witness :
  computable abstract_field
  <-> exists st',
        _compute_precise_types TypeSet_of update abstract_field no_sets
        = (Returns tt, st').
Proof.
  apply (field_pass_returns_iff_computable TypeSet_of update abstract_field
           no_sets).
  apply (bool_decide_unpack _). by vm_compute.
Defined.

Lemma non_list_pass_recomputes_witness :
  typesets_created no_sets + length (parse_fields plain_node)
  <= typesets_created
       (compute_precise_fields_types TypeSet_of update truthy plain_node
          no_sets).2.
Proof.
  apply (non_list_pass_recomputes TypeSet_of update truthy plain_node no_sets).
  - reflexivity.
  - apply (bool_decide_unpack _). by vm_compute.
  - by vm_compute.
Defined.


End PreciseProps.

Module ChecksProps.
Import Diag Warnings.

Lemma check_error_raises msg ok w :
  ok = true \/ ctx_emitter w = false ->
  check_source_language false msg error true ok w
  = (Raises DiagnosticError, print_diag error msg w).
Proof.
  intros Hpre. unfold check_source_language.
  destruct Hpre as [-> | ->]; simpl; [done|].
  by rewrite andb_false_r.
Qed.

(** [check_multiple] at its default severity stops at the first predicate
    that is false: the predicates before it leave the state as it was, the
    message of that one is the only one printed, [DiagnosticError] is raised
    and the entries after it are not looked at (whatever they hold); the
    pending-error flag is never touched.  When no predicate is false the
    call returns and nothing changes. *)
Theorem check_multiple_error_stops_at_first pre post m w :
  ctx_emitter w = false ->
  Forall (fun pm => pm.1 = true) pre ->
  check_multiple (pre ++ (false, m) :: post) error w
  = (Raises DiagnosticError, print_diag error m w)
  /\ check_multiple pre error w = (Returns tt, w).
Proof.
  intros Hem Hpre. unfold check_multiple.
  induction Hpre as [|[p msg] pre Hp _ [IH1 IH2]]; simpl in *.
  - split; [|done].
    erewrite bind_raises; [done|]. by apply check_error_raises; right.
  - subst p. split.
    + erewrite bind_returns; [|by apply DiagProps.check_true_noop; right].
      exact IH1.
    + erewrite bind_returns; [|by apply DiagProps.check_true_noop; right].
      exact IH2.
Qed.

Lemma check_multiple_error_stops_at_first_witness :
  check_multiple ([(true, "a")] ++ (false, "b") :: [(false, "c")]) error
                 (mkWorld false false [])
  = (Raises DiagnosticError, print_diag error "b" (mkWorld false false []))
  /\ check_multiple [(true, "a")] error (mkWorld false false [])
     = (Returns tt, mkWorld false false []).
Proof.
  apply (check_multiple_error_stops_at_first [(true, "a")] [(false, "c")] "b"
           (mkWorld false false [])).
  - reflexivity.
  - repeat constructor.
Defined.

(** [warn_if] has the opposite polarity of [check_source_language]: it
    prints its message, at warning severity, exactly when the warning is in
    the context's warning set and the predicate is true.  Whatever the
    arguments and the state, it raises no [DiagnosticError] and leaves the
    pending-error flag alone, so a warning never stops a compilation at a
    checkpoint. *)
Theorem warn_if_prints_when_enabled_and_true h ws d p msg w :
  (ctx_emitter w = false ->
   warn_if h ws d p msg w
   = (Returns tt,
      if contains ws d h && p then print_diag warning msg w else w))
  /\ (warn_if h ws d p msg w).1 <> Raises DiagnosticError
  /\ has_pending_error (warn_if h ws d p msg w).2 = has_pending_error w.
Proof.
  unfold warn_if, check_source_language. split; [|split].
  - intros ->. simpl. by destruct (contains ws d h), p.
  - destruct (ctx_emitter w); simpl; [done|].
    by destruct (contains ws d h), p.
  - destruct (ctx_emitter w); simpl; [done|].
    by destruct (contains ws d h), p.
Qed.

Lemma warn_if_prints_when_enabled_and_true_witness :
  warn_if (WarningSet_new (mkHeap ∅ 0)).2 0 unused_bindings true "unused"
          (mkWorld false false [])
  = (Returns tt,
     if contains 0 unused_bindings (WarningSet_new (mkHeap ∅ 0)).2 && true
     then print_diag warning "unused" (mkWorld false false [])
     else mkWorld false false []).
Proof.
  apply (proj1 (warn_if_prints_when_enabled_and_true
                  (WarningSet_new (mkHeap ∅ 0)).2 0 unused_bindings true
                  "unused" (mkWorld false false []))).
  reflexivity.
Defined.

(** [check_type] either returns the object it was given, without touching
    the diagnostics state, or raises: it never falls through to return
    [None].  When the object is not an instance, and the call is allowed in
    the current context, it prints one error whose text starts with the
    assertion's message and raises [DiagnosticError]. *)
Theorem check_type_returns_object_or_raises {A} (obj : A) inst em msg w :
  (forall r w', check_type obj inst em msg w = (Returns r, w') ->
     r = Some obj /\ inst = true /\ w' = w)
  /\ (inst = false -> ctx_emitter w = false ->
      exists text,
        check_type obj inst em msg w
        = (Raises DiagnosticError, print_diag error text w)
        /\ String.prefix em text = true).
Proof.
  unfold check_type. split.
  - intros r w'. destruct inst.
    + unfold ret. by intros [= <- <-].
    + intros Hrun. apply bind_inv_returns in Hrun as (x & w1 & Hchk & _).
      unfold check_source_language in Hchk.
      destruct (negb false && ctx_emitter w); simpl in Hchk; done.
  - intros -> Hem. eexists. split.
    + erewrite bind_raises; [done|]. apply check_error_raises. by right.
    + destruct msg as [m|]; [destruct (decide (m = EmptyString))|];
        unfold "+:+"; clear; induction em as [|c em IH]; simpl;
        rewrite ?Ascii.eqb_refl; try done; try (by destruct m);
        by destruct (Ascii.ascii_dec c c).
Qed.

Lemma check_type_returns_object_or_raises_witness :
  exists text,
    check_type 0 false "bad type" (Some "hint") (mkWorld false false [])
    = (Raises DiagnosticError, print_diag error text (mkWorld false false []))
    /\ String.prefix "bad type" text = true.
Proof.
  apply (check_type_returns_object_or_raises 0 false "bad type" (Some "hint")
           (mkWorld false false [])); reflexivity.
Defined.

(** [WarningSet.lookup] inverts [WarningDescriptor.name]: the names of the
    available warnings are pairwise distinct, so a name finds the descriptor
    it belongs to and nothing else, and enabling a warning by name is
    enabling it by descriptor.  A string that is no warning's name makes
    [lookup], and with it [enable] and [disable], raise. *)
Theorem lookup_inverts_name nm :
  (forall d, lookup nm = Some d <-> name d = nm)
  /\ (forall d self h, name d = nm ->
        enable self (inr nm) h = enable self (inl d) h
        /\ disable self (inr nm) h = disable self (inl d) h)
  /\ (forall self h, (forall d, name d <> nm) ->
        enable self (inr nm) h = None /\ disable self (inr nm) h = None).
Proof.
  assert (forall d, lookup nm = Some d <-> name d = nm) as Hlook.
  { intros d. split.
    - unfold lookup. intros Hf. apply find_some in Hf as [_ Hd].
      by apply bool_decide_eq_true in Hd.
    - intros <-. by destruct d. }
  split; [exact Hlook|]. split.
  - intros d self h Hd. apply Hlook in Hd.
    unfold enable, disable. simpl. by rewrite Hd.
  - intros self h Hno. unfold enable, disable. simpl.
    destruct (lookup nm) as [d|] eqn:E; [|done].
    destruct (Hno d). by apply (Hlook d).
Qed.

Lemma lookup_inverts_name_witness :
  enable 0 (inr "unused-bindings") (mkHeap ∅ 0)
  = enable 0 (inl unused_bindings) (mkHeap ∅ 0)
  /\ disable 0 (inr "unused-bindings") (mkHeap ∅ 0)
     = disable 0 (inl unused_bindings) (mkHeap ∅ 0).
Proof.
  apply (lookup_inverts_name "unused-bindings"). reflexivity.
Defined.

(** The heap of warning sets is well formed when no object has the identity
    the next one will get. *)
Lemma clone_spec self h s :
  sets h !! self = Some s ->
  sets h !! next_set h = None ->
  exists h1,
    clone self h = (next_set h, h1)
    /\ sets h1 = <[next_set h := s]> (sets h)
    /\ next_set h1 = S (next_set h).
Proof.
  intros Hs Hfresh. unfold clone, WarningSet_new. simpl.
  eexists. split; [done|]. simpl. split; [|done].
  rewrite lookup_insert_ne by (intros Heq; rewrite Heq in Hfresh; congruence).
  rewrite Hs. simpl. by rewrite insert_insert_eq.
Qed.

(** [with_enabled] and [with_disabled] never change the set they are called
    on: they return a new object, distinct from every existing one, whose
    content is the receiver's with the one warning added or removed, and
    every other warning set is as before.  This holds also when the warning
    is given by a name that does not exist: the call raises and the
    receiver is still unchanged. *)
Theorem with_enabled_leaves_receiver self h s :
  sets h !! self = Some s ->
  sets h !! next_set h = None ->
  (forall d,
     exists other h',
       with_enabled self (inl d) h = inl (other, h')
       /\ other <> self
       /\ sets h !! other = None
       /\ sets h' = <[other := {[d]} ∪ s]> (sets h)
       /\ contains other d h' = true
       /\ forall d', d' <> d -> contains other d' h' = contains self d' h)
  /\ (forall d,
        exists other h',
          with_disabled self (inl d) h = inl (other, h')
          /\ other <> self
          /\ sets h !! other = None
          /\ sets h' = <[other := s ∖ {[d]}]> (sets h)
          /\ contains other d h' = false
          /\ forall d', d' <> d -> contains other d' h' = contains self d' h)
  /\ (forall warning h',
        with_enabled self warning h = inr h'
        \/ with_disabled self warning h = inr h' ->
        sets h' !! self = Some s).
Proof.
  intros Hs Hfresh.
  destruct (clone_spec self h s Hs Hfresh) as (h1 & Hclone & Hsets & Hnext).
  assert (next_set h <> self) as Hne
    by (intros Heq; rewrite Heq in Hfresh; congruence).
  split; [|split].
  - intros d. unfold with_enabled. rewrite Hclone. simpl.
    eexists _, _. split; [done|]. split; [done|]. split; [done|]. simpl.
    rewrite Hsets, alter_insert_eq. split; [done|].
    unfold contains. simpl. rewrite lookup_insert_eq, Hs. simpl. split.
    + apply bool_decide_eq_true, elem_of_union_l. by apply elem_of_singleton.
    + intros d' Hd'. apply bool_decide_ext.
      rewrite elem_of_union, elem_of_singleton. tauto.
  - intros d. unfold with_disabled. rewrite Hclone. simpl.
    eexists _, _. split; [done|]. split; [done|]. split; [done|]. simpl.
    rewrite Hsets, alter_insert_eq. split; [done|].
    unfold contains. simpl. rewrite lookup_insert_eq, Hs. simpl. split.
    + apply bool_decide_eq_false.
      rewrite elem_of_difference, elem_of_singleton. tauto.
    + intros d' Hd'. apply bool_decide_ext.
      rewrite elem_of_difference, elem_of_singleton. tauto.
  - intros warning h'. unfold with_enabled, with_disabled.
    rewrite Hclone. unfold enable, disable.
    destruct (resolve_warning warning); simpl; intros [[= <-]|[= <-]];
      by rewrite Hsets, lookup_insert_ne.
Qed.

Lemma with_enabled_leaves_receiver_witness :
  exists other h',
    with_enabled 0 (inl unparser_bad_grammar) (WarningSet_new (mkHeap ∅ 0)).2
    = inl (other, h')
    /\ contains other unparser_bad_grammar h' = true
    /\ contains 0 unparser_bad_grammar (WarningSet_new (mkHeap ∅ 0)).2 = false.
Proof.
  destruct (with_enabled_leaves_receiver 0 (WarningSet_new (mkHeap ∅ 0)).2
              (list_to_set (filter (fun w => enabled_by_default w = true)
                                   available_warnings)))
    as [H _]; [reflexivity | reflexivity |].
  destruct (H unparser_bad_grammar) as (other & h' & Hrun & _ & _ & _ & Hc & _).
  exists other, h'. split; [exact Hrun|]. split; [exact Hc|].
  by vm_compute.
Defined.

End ChecksProps.

Module HierarchyOrder.
Import Hierarchy HierarchyProps.

Lemma compare_append_prefix (p a b : string) :
  String.compare (p +:+ a) (p +:+ b) = String.compare a b.
Proof.
  induction p as [|c p IH]; [done|].
  change (String c p +:+ a) with (String c (p +:+ a)).
  change (String c p +:+ b) with (String c (p +:+ b)).
  simpl. unfold Ascii.compare. by rewrite N.compare_refl.
Qed.

Lemma leb_append_prefix (p a b : string) :
  String.leb (p +:+ a) (p +:+ b) = String.leb a b.
Proof. unfold String.leb. by rewrite compare_append_prefix. Qed.

Lemma concat_snoc sep (l : list string) x :
  l <> [] -> String.concat sep (l ++ [x]) = String.concat sep l +:+ sep +:+ x.
Proof.
  assert (forall s t u : string, (s +:+ t) +:+ u = s +:+ (t +:+ u)) as Hassoc.
  { intros s t u. induction s as [|c s IH]; [done|].
    change ((String c s +:+ t) +:+ u) with (String c ((s +:+ t) +:+ u)).
    by rewrite IH. }
  induction l as [|y l IH]; [done|]. intros _.
  destruct l as [|z l]; [done|].
  change (String.concat sep ((y :: z :: l) ++ [x]))
    with (y +:+ sep +:+ String.concat sep ((z :: l) ++ [x])).
  rewrite IH by done.
  change (String.concat sep (y :: z :: l))
    with (y +:+ sep +:+ String.concat sep (z :: l)).
  by rewrite !Hassoc.
Qed.

Lemma hierarchical_name_snoc chain c :
  chain <> [] ->
  hierarchical_name chain c
  = (String.concat "." (base_name <$> chain) +:+ ".") +:+ base_name c.
Proof.
  intros Hne. unfold hierarchical_name, get_inheritance_chain.
  rewrite fmap_app. simpl. rewrite concat_snoc by (by destruct chain).
  generalize (String.concat "." (base_name <$> chain)). intros s.
  induction s as [|a s IH]; [done|].
  change (String a s +:+ "." +:+ base_name c)
    with (String a (s +:+ "." +:+ base_name c)).
  by rewrite IH.
Qed.

Lemma insert_by_ext {A} (key1 key2 : A -> string) x l :
  (forall a b, String.leb (key1 a) (key1 b) = String.leb (key2 a) (key2 b)) ->
  insert_by key1 x l = insert_by key2 x l.
Proof.
  intros Hkey. induction l as [|y l IH]; [done|].
  simpl. by rewrite Hkey, IH.
Qed.

Lemma sorted_ext {A} (key1 key2 : A -> string) l :
  (forall a b, String.leb (key1 a) (key1 b) = String.leb (key2 a) (key2 b)) ->
  sorted l key1 = sorted l key2.
Proof.
  intros Hkey. unfold sorted. induction l as [|x l IH]; [done|].
  simpl. rewrite IH. by apply insert_by_ext.
Qed.

(** Adjacent elements are in key order. *)
Inductive ordered {A} (key : A -> string) : list A -> Prop :=
| ordered_nil : ordered key []
| ordered_one x : ordered key [x]
| ordered_cons x y l :
    String.leb (key x) (key y) = true -> ordered key (y :: l) ->
    ordered key (x :: y :: l).

Lemma insert_by_ordered {A} (key : A -> string) x l :
  ordered key l -> ordered key (insert_by key x l).
Proof.
  induction 1 as [|y|y z l Hyz Hl IH]; simpl.
  - constructor.
  - destruct (String.leb (key x) (key y)) eqn:E.
    + by repeat constructor.
    + constructor; [|constructor].
      destruct (String.leb_total (key x) (key y)); congruence.
  - destruct (String.leb (key x) (key y)) eqn:E.
    + constructor; [done|]. by constructor.
    + simpl in IH. destruct (String.leb (key x) (key z)) eqn:E'.
      * constructor; [|done].
        destruct (String.leb_total (key x) (key y)); congruence.
      * by constructor.
Qed.

Lemma sorted_ordered {A} (key : A -> string) l : ordered key (sorted l key).
Proof.
  unfold sorted. induction l as [|x l IH]; simpl; [constructor|].
  by apply insert_by_ordered.
Qed.

(** [concrete_subclasses] sorts the direct subclasses by hierarchical name,
    and the hierarchical names of siblings share the prefix of their base:
    the subclasses are visited in the order of their own base names,
    whatever the names of the ancestors are, and two node types with the
    same list of subclasses visit them in the same order. *)
Theorem siblings_visited_by_base_name ancestors n :
  concrete_subclasses ancestors n
  = (if abstract n then [] else [n])
    ++ mjoin (concrete_subclasses (get_inheritance_chain ancestors n)
                <$> sorted (subclasses n) base_name)
  /\ sorted (subclasses n) base_name ≡ₚ subclasses n
  /\ ordered base_name (sorted (subclasses n) base_name).
Proof.
  split; [|split; [apply sorted_perm | apply sorted_ordered]].
  rewrite concrete_subclasses_eq. do 3 f_equal.
  apply sorted_ext. intros a b.
  rewrite !hierarchical_name_snoc
    by (unfold get_inheritance_chain; by destruct ancestors).
  apply leb_append_prefix.
Qed.

(** [concrete_subclasses] lists every concrete node type that derives from
    the node exactly once, whatever the names are: the result has no
    duplicate, its elements are the concrete types deriving from the node,
    and when the node itself is concrete it comes first, so that its kind
    range starts at its own kind. *)
Theorem concrete_subclasses_exactly_once ancestors n :
  NoDup (ident <$> all_nodes n) ->
  NoDup (concrete_subclasses ancestors n)
  /\ (forall x, x ∈ concrete_subclasses ancestors n
                <-> derives_from x n /\ abstract x = false)
  /\ (abstract n = false ->
      head (concrete_subclasses ancestors n) = Some n
      /\ (ada_kind_range_bounds ancestors n).1 = n).
Proof.
  intros Hnd. split; [|split].
  - eapply NoDup_fmap_1 with (f := ident).
    eapply NoDup_submseteq_inv; [|exact Hnd].
    apply fmap_submseteq, concrete_subclasses_submseteq.
  - apply elem_of_concrete_subclasses.
  - intros Ha. unfold ada_kind_range_bounds.
    rewrite concrete_subclasses_eq, Ha. done.
Qed.

Lemma concrete_subclasses_exactly_once_witness :
  NoDup (concrete_subclasses []
           (mkNode 0 "Root" true
              [mkNode 1 "Expr" false [mkNode 3 "Add" false []];
               mkNode 2 "Decl" false []])).
Proof.
  apply (concrete_subclasses_exactly_once []
           (mkNode 0 "Root" true
              [mkNode 1 "Expr" false [mkNode 3 "Add" false []];
               mkNode 2 "Decl" false []])).
  apply (bool_decide_unpack _). by vm_compute.
Defined.

End HierarchyOrder.

Module SubtypingProps.
Import Repo Subtyping.

Section Chains.
Variable objs : gmap ident Obj.
Hypothesis Hlinks : links_ok objs.

Local Abbreviation chain_loop := (chain_loop objs).
Local Abbreviation get_inheritance_chain := (get_inheritance_chain objs).

Lemma chain_loop_acc fuel node acc :
  chain_loop fuel node acc = (acc ++.) <$> chain_loop fuel node [].
Proof.
  revert node acc. induction fuel as [|fuel IH]; intros [n|] acc; simpl;
    try (by rewrite ?app_nil_r).
  destruct (objs !! n) as [o|]; simpl; [|done].
  rewrite (IH _ (acc ++ [n])), (IH _ [n]).
  destruct (chain_loop fuel (_base o) []) as [r|]; simpl; [|done].
  by rewrite <-app_assoc.
Qed.

Lemma chain_loop_fuel (t : ident) : forall fuel fuel' acc,
  t < fuel -> t < fuel' ->
  chain_loop fuel (Some t) acc = chain_loop fuel' (Some t) acc.
Proof.
  induction (lt_wf (t : nat)) as [t _ IH]. intros fuel1 fuel2 acc Hf1 Hf2.
  destruct fuel1 as [|fuel1]; [lia|]. destruct fuel2 as [|fuel2]; [lia|].
  simpl. destruct (objs !! _) as [o|] eqn:Ho; simpl; [|done].
  destruct (_base o) as [b|] eqn:Hb.
  - destruct (Hlinks t o Ho) as [Hbase _].
    destruct (Hbase b Hb) as [Hlt _]. apply IH; lia.
  - by destruct fuel1, fuel2.
Qed.

(** The chain of a type is the chain of its base, then the type. *)
Lemma get_inheritance_chain_unfold (t : ident) o :
  objs !! t = Some o ->
  get_inheritance_chain t
  = match _base o with
    | None => Some [t]
    | Some b => (.++ [t]) <$> get_inheritance_chain b
    end.
Proof.
  intros Ho. unfold Subtyping.get_inheritance_chain.
  assert (chain_loop (S t) (Some t) [] = chain_loop t (_base o) [t]) as ->
    by (simpl; by rewrite Ho).
  destruct (_base o) as [b|] eqn:Hb.
  - destruct (Hlinks t o Ho) as [Hbase _].
    destruct (Hbase b Hb) as [Hlt _].
    rewrite chain_loop_acc, (chain_loop_fuel b t (S b) []) by lia.
    destruct (chain_loop (S b) (Some b) []) as [r|]; [|done].
    cbn [fmap option_fmap option_map]. f_equal. apply (reverse_cons r t).
  - by destruct t.
Qed.

Lemma get_inheritance_chain_None (t : ident) :
  objs !! t = None -> get_inheritance_chain t = None.
Proof.
  intros Ho. unfold Subtyping.get_inheritance_chain. simpl. by rewrite Ho.
Qed.

(** The loop of [get_inheritance_chain] ends for every object. *)
Lemma get_inheritance_chain_returns (t : ident) :
  is_Some (objs !! t) -> is_Some (get_inheritance_chain t).
Proof.
  induction (lt_wf t) as [t _ IH]. intros [o Ho].
  rewrite (get_inheritance_chain_unfold t o Ho).
  destruct (_base o) as [b|] eqn:Hb; [|done].
  destruct (Hlinks t o Ho) as [Hbase _].
  destruct (Hbase b Hb) as [Hlt Hex].
  destruct (IH b Hlt Hex) as [c ->]. done.
Qed.

Lemma get_inheritance_chain_spec (t : ident) : forall c,
  get_inheritance_chain t = Some c ->
  last c = Some t
  /\ (forall y, y ∈ c -> y <= t /\ is_Some (objs !! y))
  /\ NoDup c
  /\ (forall y, y ∈ c ->
        exists cy, get_inheritance_chain y = Some cy /\ cy `prefix_of` c).
Proof.
  induction (lt_wf t) as [t _ IH]. intros c Hc.
  destruct (objs !! t) as [o|] eqn:Ho;
    [|by rewrite get_inheritance_chain_None in Hc].
  pose proof Hc as Hc0.
  rewrite (get_inheritance_chain_unfold t o Ho) in Hc.
  destruct (_base o) as [b|] eqn:Hb.
  - destruct (Hlinks t o Ho) as [Hbase _].
    destruct (Hbase b Hb) as [Hlt Hex].
    destruct (get_inheritance_chain b) as [cb|] eqn:Hcb; [|done].
    injection Hc as <-.
    destruct (IH b Hlt cb Hcb) as (Hlast & Hle & Hnd & Hpre).
    split_and!.
    + by rewrite last_snoc.
    + intros y [Hy | ->%list_elem_of_singleton]%elem_of_app.
      * destruct (Hle y Hy). split; [lia|done].
      * split; [lia|by eexists].
    + apply NoDup_app. split_and!; [done| |apply NoDup_singleton].
      intros y Hy ->%list_elem_of_singleton.
      destruct (Hle t Hy). lia.
    + intros y [Hy | ->%list_elem_of_singleton]%elem_of_app.
      * destruct (Hpre y Hy) as (cy & Hcy & Hp).
        exists cy. split; [done|]. by apply prefix_app_r.
      * by exists (cb ++ [t]).
  - injection Hc as <-. split_and!.
    + done.
    + intros y ->%list_elem_of_singleton. split; [lia|by eexists].
    + apply NoDup_singleton.
    + intros y ->%list_elem_of_singleton. by exists [t].
Qed.

Lemma is_ancestor_refl (x : ident) : is_Some (objs !! x) -> is_ancestor objs x x.
Proof.
  intros Hx. destruct (get_inheritance_chain_returns x Hx) as [c Hc].
  exists c. split; [done|].
  destruct (get_inheritance_chain_spec x c Hc) as (Hlast & _).
  apply last_Some in Hlast as [l ->]. apply elem_of_app. right. by left.
Qed.

Lemma is_ancestor_trans x y z :
  is_ancestor objs x y -> is_ancestor objs y z -> is_ancestor objs x z.
Proof.
  intros (cx & Hcx & Hy) (cy & Hcy & Hz). exists cx. split; [done|].
  destruct (get_inheritance_chain_spec x cx Hcx) as (_ & _ & _ & Hpre).
  destruct (Hpre y Hy) as (cy' & Hcy' & [k ->]).
  assert (cy' = cy) as -> by congruence.
  apply elem_of_app. by left.
Qed.

Lemma is_ancestor_antisym x y :
  is_ancestor objs x y -> is_ancestor objs y x -> x = y.
Proof.
  intros (cx & Hcx & Hy) (cy & Hcy & Hx).
  destruct (get_inheritance_chain_spec x cx Hcx) as (_ & Hle & _).
  destruct (get_inheritance_chain_spec y cy Hcy) as (_ & Hle' & _).
  destruct (Hle y Hy), (Hle' x Hx). lia.
Qed.

End Chains.

Lemma all_same_inv row :
  all_same row = true -> exists x, forall y, y ∈ row -> y = x.
Proof.
  destruct row as [|x row]; [done|]. simpl. intros Hall. exists x.
  intros y [->|Hy]%elem_of_cons; [done|].
  induction row as [|z row IH]; [by apply elem_of_nil in Hy|].
  simpl in Hall. apply andb_prop in Hall as [Hz Hall].
  apply elem_of_cons in Hy as [->|Hy]; [|by apply IH].
  by apply bool_decide_eq_true in Hz.
Qed.

Lemma all_same_replicate k x : all_same (replicate (S k) x) = true.
Proof.
  simpl. induction k as [|k IH]; [done|]. simpl.
  by rewrite bool_decide_eq_true_2.
Qed.

Lemma zip_rows_S {A} n (ls : list (list A)) :
  zip_rows (S n) ls
  = match mapM head ls with
    | Some row => row :: zip_rows n (tail <$> ls)
    | None => []
    end.
Proof. done. Qed.

Lemma takewhile_cons {A} (p : A -> bool) x l :
  takewhile p (x :: l) = if p x then x :: takewhile p l else [].
Proof. done. Qed.

(** The tuples [common_ancestor] keeps are the positions of the longest
    common prefix of the chains. *)
Lemma common_rows_spec n : forall (ls : list (list ident)) l0 ls',
  ls = l0 :: ls' -> length l0 <= n ->
  exists p,
    takewhile all_same (zip_rows n ls)
    = (fun x => replicate (length ls) x) <$> p
    /\ (forall l, l ∈ ls -> p `prefix_of` l)
    /\ (forall q, (forall l, l ∈ ls -> q `prefix_of` l) -> q `prefix_of` p).
Proof.
  induction n as [|n IH]; intros ls l0 ls' -> Hlen.
  - exists []. split_and!; [done|intros; apply prefix_nil|].
    intros q Hq. destruct l0; [|simpl in Hlen; lia]. apply Hq. by left.
  - rewrite zip_rows_S. destruct (mapM head (l0 :: ls')) as [row|] eqn:Hrow.
    + apply mapM_Some in Hrow. rewrite takewhile_cons.
      destruct (all_same row) eqn:Hsame.
      * apply all_same_inv in Hsame as (x & Hall).
        assert (forall l, l ∈ l0 :: ls' -> exists t, l = x :: t) as Hhd.
        { intros l Hl. apply list_elem_of_lookup in Hl as [i Hi].
          destruct (Forall2_lookup_l _ _ _ _ _ Hrow Hi) as (h & Hh & Hhead).
          destruct l as [|y t]; [done|]. simpl in Hhead.
          injection Hhead as ->. exists t.
          rewrite (Hall h); [done|]. by eapply list_elem_of_lookup_2. }
        destruct (Hhd l0) as [t0 ->]; [by left|].
        destruct (IH (tail <$> (x :: t0) :: ls') t0 (tail <$> ls'))
          as (p & Hp & Hpre & Hmax); [done|simpl in Hlen; lia|].
        exists (x :: p). split_and!.
        -- rewrite (fmap_cons _ x p). f_equal.
           ++ symmetry. apply replicate_as_elem_of.
              split; [symmetry; by eapply Forall2_length|done].
           ++ rewrite Hp. by rewrite length_fmap.
        -- intros l Hl. destruct (Hhd l Hl) as [t ->].
           apply prefix_cons, Hpre, list_elem_of_fmap. by exists (x :: t).
        -- intros q Hq. destruct q as [|y q]; [apply prefix_nil|].
           assert (y = x) as ->.
           { eapply prefix_cons_inv_1, (Hq (x :: t0)). by left. }
           apply prefix_cons, Hmax.
           intros l (l' & -> & Hl')%list_elem_of_fmap.
           destruct (Hhd l' Hl') as [t ->]. simpl.
           eapply prefix_cons_inv_2, Hq. done.
      * exists []. split_and!; [done|intros; apply prefix_nil|].
        intros q Hq. destruct q as [|y q]; [done|]. exfalso.
        assert (row = replicate (S (length ls')) y) as Hrep.
        { symmetry. apply replicate_as_Forall.
          split; [symmetry; by eapply (Forall2_length _ (l0 :: ls'))|].
          eapply Forall2_Forall_r; [exact Hrow|].
          apply Forall_forall. intros l Hl h Hh.
          destruct (Hq l Hl) as [k ->]. simpl in Hh. congruence. }
        rewrite Hrep, all_same_replicate in Hsame. done.
    + exists []. split_and!; [done|intros; apply prefix_nil|].
      intros q Hq. apply mapM_None in Hrow.
      apply Exists_exists in Hrow as (l & Hl & Hhead).
      destruct l; [|done]. by apply Hq.
Qed.

Lemma prefix_same_last {A} (l p q : list A) c :
  NoDup l -> p `prefix_of` l -> q `prefix_of` l ->
  last p = Some c -> last q = Some c -> p = q.
Proof.
  assert (forall p q : list A, NoDup q -> p `prefix_of` q ->
            last p = Some c -> last q = Some c -> p = q) as Hone.
  { intros p' q' Hnd [k ->] [p0 ->]%last_Some Hq.
    destruct k as [|y k _] using rev_ind; [by rewrite app_nil_r|].
    rewrite app_assoc, last_snoc in Hq. injection Hq as ->.
    rewrite <-app_assoc in Hnd. apply NoDup_app in Hnd as (_ & _ & Hnd).
    simpl in Hnd. apply NoDup_cons in Hnd as [Hnd _].
    destruct Hnd. apply elem_of_app. right. by left. }
  intros Hnd Hp Hq Hlp Hlq.
  destruct (prefix_weak_total p q l Hp Hq) as [Hpq|Hqp].
  - apply Hone; [|done|done|done].
    destruct Hq as [k ->]. by apply NoDup_app in Hnd as (? & _).
  - symmetry. apply Hone; [|done|done|done].
    destruct Hp as [k ->]. by apply NoDup_app in Hnd as (? & _).
Qed.

Section Unification.
Variable objs : gmap ident Obj.
Hypothesis Hlinks : links_ok objs.

(** [common_ancestor] returns the least upper bound of node types that
    derive from one root: the result is an ancestor (or the type itself) of
    each argument, and any type that is an ancestor of every argument is an
    ancestor of the result. *)
Theorem common_ancestor_least_upper_bound (nodes : list ident) r :
  nodes <> [] ->
  (forall x, x ∈ nodes -> is_ancestor objs x r) ->
  exists c,
    common_ancestor objs nodes = Some c
    /\ (forall x, x ∈ nodes -> is_ancestor objs x c)
    /\ (forall d, (forall x, x ∈ nodes -> is_ancestor objs x d) ->
                  is_ancestor objs c d).
Proof.
  intros Hne Hcommon.
  assert (exists chains,
            mapM (get_inheritance_chain objs) nodes = Some chains)
    as [chains Hchains].
  { apply mapM_is_Some, Forall_forall. intros x Hx.
    destruct (Hcommon x Hx) as (c & Hc & _). unfold compose. by rewrite Hc. }
  pose proof Hchains as HF. apply mapM_Some in HF.
  destruct chains as [|l0 ls'].
  { apply Forall2_nil_inv_r in HF. done. }
  destruct (common_rows_spec (length l0) (l0 :: ls') l0 ls' eq_refl (le_n _))
    as (p & Hp & Hpre & Hmax).
  destruct nodes as [|x0 nodes']; [done|].
  destruct (Hcommon x0) as (cx0 & Hcx0 & Hr0); [by left|].
  destruct (get_inheritance_chain_spec objs Hlinks x0 cx0 Hcx0)
    as (_ & _ & Hnd0 & Hpre0).
  destruct (Hpre0 r Hr0) as (cr & Hcr & _).
  assert (forall l, l ∈ l0 :: ls' ->
            exists x, x ∈ x0 :: nodes'
                      /\ get_inheritance_chain objs x = Some l) as Hback.
  { intros l Hl. apply list_elem_of_lookup in Hl as [i Hi].
    destruct (Forall2_lookup_r _ _ _ _ _ HF Hi) as (x & Hx & Hgx).
    exists x. split; [by eapply list_elem_of_lookup_2|done]. }
  assert (forall x, x ∈ x0 :: nodes' ->
            exists l, l ∈ l0 :: ls'
                      /\ get_inheritance_chain objs x = Some l) as Hfwd.
  { intros x Hx. apply list_elem_of_lookup in Hx as [i Hi].
    destruct (Forall2_lookup_l _ _ _ _ _ HF Hi) as (l & Hl & Hgx).
    exists l. split; [by eapply list_elem_of_lookup_2|done]. }
  assert (forall d cd,
            get_inheritance_chain objs d = Some cd ->
            (forall x, x ∈ x0 :: nodes' -> is_ancestor objs x d) ->
            cd `prefix_of` p) as Hd.
  { intros d cd Hcd Hall. apply Hmax. intros l Hl.
    destruct (Hback l Hl) as (x & Hx & Hgx).
    destruct (Hall x Hx) as (cx & Hcx & Hdx).
    assert (cx = l) as -> by congruence.
    destruct (get_inheritance_chain_spec objs Hlinks x l Hcx)
      as (_ & _ & _ & Hp').
    destruct (Hp' d Hdx) as (cd' & Hcd' & Hpf).
    by assert (cd' = cd) as -> by congruence. }
  pose proof (Hd r cr Hcr Hcommon) as Hrp.
  destruct (get_inheritance_chain_spec objs Hlinks r cr Hcr) as (Hlastr & _).
  destruct (last p) as [c|] eqn:Hlast.
  2: { apply last_None in Hlast. subst p.
       apply prefix_nil_inv in Hrp. by subst cr. }
  exists c. split_and!.
  - unfold common_ancestor. rewrite Hchains. simpl.
    rewrite Hp, fmap_last, Hlast. done.
  - intros x Hx. destruct (Hfwd x Hx) as (l & Hl & Hgx).
    exists l. split; [done|]. destruct (Hpre l Hl) as [k ->].
    apply last_Some in Hlast as [k' ->].
    apply elem_of_app. left. apply elem_of_app. right. by left.
  - intros d Hall.
    destruct (Hfwd x0) as (l & Hl & Hgx); [by left|].
    assert (l = cx0) as -> by congruence.
    assert (c ∈ cx0) as Hc0.
    { destruct (Hpre cx0 Hl) as [k ->].
      apply last_Some in Hlast as [k' ->].
      apply elem_of_app. left. apply elem_of_app. right. by left. }
    destruct (Hpre0 c Hc0) as (cc & Hcc & Hccpre).
    destruct (get_inheritance_chain_spec objs Hlinks c cc Hcc)
      as (Hlastc & _).
    assert (cc = p) as ->.
    { eapply prefix_same_last; [exact Hnd0|done|by apply Hpre|done|done]. }
    exists p. split; [done|].
    destruct (Hall x0) as (cx & Hcx & Hdx); [by left|].
    assert (cx = cx0) as -> by congruence.
    destruct (Hpre0 d Hdx) as (cd & Hcd & _).
    destruct (Hd d cd Hcd Hall) as [k ->].
    destruct (get_inheritance_chain_spec objs Hlinks d cd Hcd)
      as (Hlastd & _).
    apply last_Some in Hlastd as [k' ->].
    apply elem_of_app. left. apply elem_of_app. right. by left.
Qed.

Lemma matches_nodes (x y : ident) :
  is_node objs x -> is_node objs y ->
  exists c, get_inheritance_chain objs x = Some c
            /\ matches objs x y = Some (bool_decide (y ∈ c)).
Proof.
  intros (ox & Hx & Hcx & Hex) (oy & Hy & Hcy & Hey).
  destruct (get_inheritance_chain_returns objs Hlinks x) as [c Hc];
    [by eexists|].
  exists c. split; [done|].
  unfold matches. simpl. rewrite Hx, Hy. simpl. rewrite Hex. simpl.
  unfold is_ast_node. rewrite Hcx, Hcy. simpl. by rewrite Hc.
Qed.

Lemma matches_nodes_true (x y : ident) :
  is_node objs x -> is_node objs y ->
  matches objs x y = Some true <-> is_ancestor objs x y.
Proof.
  intros Hx Hy. destruct (matches_nodes x y Hx Hy) as (c & Hc & ->).
  split.
  - intros [= Hin%bool_decide_eq_true]. by exists c.
  - intros (c' & Hc' & Hin). assert (c' = c) as -> by congruence.
    by rewrite bool_decide_eq_true_2.
Qed.

Lemma matches_body_S fuel (x y : ident) :
  matches_body objs (S fuel) x y
  = (s ← objs !! x; f ← objs !! y;
     if is_entity_type s && is_entity_type f then
       se ← _element_type s; fe ← _element_type f;
       matches_body objs fuel se fe
     else if is_ast_node f && is_ast_node s then
       chain ← get_inheritance_chain objs x;
       Some (bool_decide (y ∈ chain))
     else Some (bool_decide (x = y))).
Proof. done. Qed.

Lemma matches_body_nodes fuel (x y : ident) :
  is_node objs x -> is_node objs y -> 0 < fuel ->
  matches_body objs fuel x y = matches objs x y.
Proof.
  intros (ox & Hx & Hcx & Hex) (oy & Hy & Hcy & Hey) Hfuel.
  destruct fuel as [|fuel]; [lia|]. unfold matches.
  rewrite !matches_body_S, Hx, Hy. simpl. by rewrite Hex.
Qed.

(** On node types [matches] is the subtyping order: it always answers, it
    holds exactly when the formal is the type or one of its bases, and it is
    reflexive, transitive and antisymmetric.  Two entity types match as
    their node types do, and for any other pair of types [matches] is
    identity of the two objects. *)
Theorem matches_is_subtyping_order :
  (forall x y, is_node objs x -> is_node objs y ->
     is_Some (matches objs x y)
     /\ (matches objs x y = Some true <-> is_ancestor objs x y))
  /\ (forall x, is_node objs x -> matches objs x x = Some true)
  /\ (forall x y z, is_node objs x -> is_node objs y -> is_node objs z ->
        matches objs x y = Some true -> matches objs y z = Some true ->
        matches objs x z = Some true)
  /\ (forall x y, is_node objs x -> is_node objs y ->
        matches objs x y = Some true -> matches objs y x = Some true ->
        x = y)
  /\ (forall x y ox oy ex ey,
        objs !! x = Some ox -> objs !! y = Some oy ->
        is_entity_type ox = true -> is_entity_type oy = true ->
        _element_type ox = Some ex -> _element_type oy = Some ey ->
        is_node objs ex -> is_node objs ey ->
        matches objs x y = matches objs ex ey)
  /\ (forall (x y : ident) ox oy,
        objs !! x = Some ox -> objs !! y = Some oy ->
        is_entity_type ox && is_entity_type oy = false ->
        is_ast_node oy && is_ast_node ox = false ->
        matches objs x y = Some (bool_decide (x = y))).
Proof.
  split_and!.
  - intros x y Hx Hy. split; [|by apply matches_nodes_true].
    destruct (matches_nodes x y Hx Hy) as (c & _ & ->). done.
  - intros x Hx. apply matches_nodes_true; [done|done|].
    apply is_ancestor_refl; [done|]. destruct Hx as (o & Ho & _). by eexists.
  - intros x y z Hx Hy Hz Hxy Hyz.
    apply matches_nodes_true in Hxy; [|done|done].
    apply matches_nodes_true in Hyz; [|done|done].
    apply matches_nodes_true; [done|done|]. by eapply is_ancestor_trans.
  - intros x y Hx Hy Hxy Hyx.
    apply matches_nodes_true in Hxy; [|done|done].
    apply matches_nodes_true in Hyx; [|done|done].
    by eapply is_ancestor_antisym.
  - intros x y ox oy ex ey Hx Hy Hxe Hye Hex Hey Hnx Hny.
    destruct (Hlinks x ox Hx) as [_ Helt].
    destruct (Helt ex Hex) as [Hlt _].
    unfold matches at 1. rewrite matches_body_S, Hx, Hy. simpl.
    rewrite Hxe, Hye, Hex, Hey. simpl.
    apply matches_body_nodes; [done|done|lia].
  - intros x y ox oy Hx Hy Hent Hnode.
    unfold matches. simpl. rewrite Hx, Hy. simpl. by rewrite Hent, Hnode.
Qed.

End Unification.

Section UnifyProps.
Variable is_keyword : Name -> bool.
Variable py_format : string -> string -> string -> string.

Local Abbreviation unify := (unify is_keyword py_format).

Lemma unify_nodes_returns (w : World) (a b : ident) msg r :
  links_ok (objects w) ->
  is_node (objects w) a -> is_node (objects w) b ->
  is_ancestor (objects w) a r -> is_ancestor (objects w) b r ->
  exists c,
    unify a b msg w = (Returns c, w)
    /\ is_ancestor (objects w) a c /\ is_ancestor (objects w) b c
    /\ (forall d, is_ancestor (objects w) a d ->
                  is_ancestor (objects w) b d ->
                  is_ancestor (objects w) c d).
Proof.
  intros Hlinks (oa & Ha & Hca & Hea) (ob & Hb & Hcb & Heb) Har Hbr.
  destruct (common_ancestor_least_upper_bound (objects w) Hlinks [a; b] r)
    as (c & Hc & Hup & Hleast); [done| |].
  { intros x [->|[->|[]%elem_of_nil]%elem_of_cons]%elem_of_cons; done. }
  exists c. split_and!.
  - unfold Subtyping.unify.
    erewrite bind_returns; [|by apply RepoProps.get_obj_some].
    erewrite bind_returns; [|by apply RepoProps.get_obj_some].
    rewrite Hea. simpl. unfold is_ast_node. rewrite Hca, Hcb. simpl.
    unfold bind, get_state. by rewrite Hc.
  - apply Hup. by left.
  - apply Hup. right. by left.
  - intros d Had Hbd. apply Hleast.
    intros x [->|[->|[]%elem_of_nil]%elem_of_cons]%elem_of_cons; done.
Qed.

(** [unify] on two node types that have a common ancestor returns their
    least upper bound in the hierarchy, whichever of the two is the
    receiver, and neither prints nor changes anything.  On two types that
    are neither both node types nor both entity types it returns the
    receiver when the two are the same object, and otherwise prints one
    error and raises [DiagnosticError]. *)
Theorem unify_least_upper_bound (w : World) (a b : ident) oa ob msg :
  links_ok (objects w) ->
  objects w !! a = Some oa -> objects w !! b = Some ob ->
  (forall r, is_node (objects w) a -> is_node (objects w) b ->
     is_ancestor (objects w) a r -> is_ancestor (objects w) b r ->
     exists c,
       unify a b msg w = (Returns c, w)
       /\ unify b a msg w = (Returns c, w)
       /\ is_ancestor (objects w) a c /\ is_ancestor (objects w) b c
       /\ (forall d, is_ancestor (objects w) a d ->
                     is_ancestor (objects w) b d ->
                     is_ancestor (objects w) c d))
  /\ (is_entity_type oa && is_entity_type ob = false ->
      is_ast_node oa && is_ast_node ob = false ->
      Diag.ctx_emitter (diag w) = false ->
      unify a b msg w
      = if decide (a = b) then (Returns a, w)
        else (Raises DiagnosticError,
              set_diag
                (Diag.print_diag Diag.error
                   (py_format
                      (py_or msg "Mismatching types: {self} and {other}")
                      (dsl_name oa) (dsl_name ob))
                   (diag w)) w)).
Proof.
  intros Hlinks Ha Hb. split.
  - intros r Hna Hnb Har Hbr.
    destruct (unify_nodes_returns w a b msg r)
      as (c & Hc & Hac & Hbc & Hleast); [done..|].
    destruct (unify_nodes_returns w b a msg r)
      as (c' & Hc' & Hbc' & Hac' & Hleast'); [done..|].
    assert (c' = c) as ->.
    { eapply is_ancestor_antisym; [done| |]; auto. }
    exists c. by split_and!.
  - intros Hent Hnode Hem. unfold Subtyping.unify.
    erewrite bind_returns; [|by apply RepoProps.get_obj_some].
    erewrite bind_returns; [|by apply RepoProps.get_obj_some].
    rewrite Hent, Hnode.
    destruct (matches_is_subtyping_order (objects w) Hlinks)
      as (_ & _ & _ & _ & _ & Hid).
    unfold bind at 1. unfold get_state.
    rewrite (Hid a b oa ob Ha Hb Hent)
      by (by rewrite andb_comm).
    simpl. unfold bind, ret, lift_diag, Diag.check_source_language.
    rewrite Hem. simpl.
    destruct (decide (a = b)) as [->|Hne].
    + rewrite bool_decide_eq_true_2 by done. simpl. by destruct w.
    + rewrite bool_decide_eq_false_2 by done. done.
Qed.

End UnifyProps.

Lemma links_okb_spec objs : links_okb objs = true -> links_ok objs.
Proof.
  intros H%bool_decide_eq_true t o Ho. specialize (H t o Ho). simpl in H.
  apply andb_prop in H as [Hb He].
  split; intros x Hx; [rewrite Hx in Hb|rewrite Hx in He]; simpl in *.
  - apply andb_prop in Hb as [?%bool_decide_eq_true ?%bool_decide_eq_true].
    done.
  - apply andb_prop in He as [?%bool_decide_eq_true ?%bool_decide_eq_true].
    done.
Qed.

Lemma sample_links_ok : links_ok (objects sample_repository).
Proof. apply links_okb_spec. by vm_compute. Qed.

Lemma is_ancestor_compute objs (x y : ident) c :
  get_inheritance_chain objs x = Some c -> y ∈ c -> is_ancestor objs x y.
Proof. intros Hc Hy. by exists c. Qed.

Lemma common_ancestor_least_upper_bound_witness :
  exists c,
    common_ancestor (objects sample_repository) [17; 21] = Some c
    /\ (forall x, x ∈ [17; 21] ->
          is_ancestor (objects sample_repository) x c)
    /\ (forall d, (forall x, x ∈ [17; 21] ->
                     is_ancestor (objects sample_repository) x d) ->
                  is_ancestor (objects sample_repository) c d).
Proof.
  apply (common_ancestor_least_upper_bound (objects sample_repository)
           sample_links_ok [17; 21] 1).
  - done.
  - intros x [->|[->|[]%elem_of_nil]%elem_of_cons]%elem_of_cons.
    + apply (is_ancestor_compute _ 17 1 [1; 13; 17]); [by vm_compute|].
      by left.
    + apply (is_ancestor_compute _ 21 1 [1; 21]); [by vm_compute|].
      by left.
Defined.

Lemma matches_is_subtyping_order_witness :
  matches (objects sample_repository) 17 17 = Some true.
Proof.
  destruct (matches_is_subtyping_order (objects sample_repository)
              sample_links_ok) as (_ & Hrefl & _).
  apply Hrefl. eexists. split; [by vm_compute|]. by split.
Defined.

Lemma unify_least_upper_bound_witness :
  unify (fun _ => false) (fun t _ _ => t) 25 26 None sample_repository
  = if decide (25 = 26) then (Returns 25, sample_repository)
    else (Raises DiagnosticError,
          set_diag
            (Diag.print_diag Diag.error
               (py_or None "Mismatching types: {self} and {other}")
               (diag sample_repository)) sample_repository).
Proof.
  eapply (unify_least_upper_bound (fun _ => false) (fun t _ _ => t)
            sample_repository 25 26 _ _ None sample_links_ok).
  - by vm_compute.
  - by vm_compute.
  - done.
  - done.
  - done.
Defined.

End SubtypingProps.

Module RepoMore.
Import Repo RepoProps.

Lemma array_registers (t : ident) o d w :
  objects w !! t = Some o ->
  memo_array (memo w) !! t = None ->
  dicts w !! type_dict (repo w) = Some d ->
  exists w',
    array t w = (Returns (next_ident w), w')
    /\ next_ident w' = S (next_ident w)
    /\ objects w'
       = <[next_ident w :=
             plain_obj cls_ArrayType (name o +:+ "ArrayAccess")
                       (dsl_name o +:+ ".array") (Some t)]> (objects w)
    /\ dicts w'
       = <[type_dict (repo w) :=
             <[name o +:+ "ArrayType" := next_ident w]> d]> (dicts w)
    /\ type_dict (repo w') = type_dict (repo w)
    /\ array_types (repo w') = {[next_ident w]} ∪ array_types (repo w)
    /\ memo_array (memo w') = <[t := next_ident w]> (memo_array (memo w)).
Proof.
  intros Ho Hmemo Hd. unfold array, memoized.
  unfold bind at 1. unfold get_state. rewrite Hmemo.
  unfold ArrayType_new, CompiledType_new, CompiledType_init.
  unfold bind, get_obj, alloc, modify, get_state, ret. rewrite Ho. simpl.
  rewrite Ho. simpl.
  eexists. split; [reflexivity|]. simpl. split_and!; try done.
  unfold py_or.
  destruct (decide (name o +:+ "ArrayType" = EmptyString)) as [He|_].
  { exfalso. clear -He. induction (name o); done. }
  apply map_eq. intros i. destruct (decide (i = type_dict (repo w))) as [->|].
  - by rewrite lookup_alter_eq, lookup_insert_eq, Hd.
  - by rewrite lookup_alter_ne, lookup_insert_ne.
Qed.

(** The first request of [t.array] is not a pure look-up: it creates a new
    object, an array type whose element type is [t], registers it in the
    type dictionary under the name of [t] followed by [ArrayType], adds it
    to [CompiledTypeRepo.array_types] and caches it for [t]; from then on
    [t.array] returns that object and changes nothing. *)
Theorem array_first_request_registers (t : ident) o d w :
  objects w !! t = Some o ->
  memo_array (memo w) !! t = None ->
  dicts w !! type_dict (repo w) = Some d ->
  exists a w',
    array t w = (Returns a, w')
    /\ a = next_ident w
    /\ (exists oa, objects w' !! a = Some oa
                   /\ cls oa = cls_ArrayType /\ _element_type oa = Some t)
    /\ registered w' (name o +:+ "ArrayType") = Some a
    /\ (forall n, n <> name o +:+ "ArrayType" ->
                  registered w' n = registered w n)
    /\ a ∈ array_types (repo w')
    /\ array t w' = (Returns a, w').
Proof.
  intros Ho Hmemo Hd.
  destruct (array_registers t o d w Ho Hmemo Hd)
    as (w' & Hrun & Hnext & Hobjs & Hdicts & Htd & Harr & Hm).
  exists (next_ident w), w'. split; [done|]. split; [done|].
  split_and!.
  - eexists. rewrite Hobjs, lookup_insert_eq. done.
  - unfold registered. rewrite Htd, Hdicts, lookup_insert_eq. simpl.
    by rewrite lookup_insert_eq.
  - intros n Hn. unfold registered.
    rewrite Htd, Hdicts, lookup_insert_eq, Hd. simpl.
    by rewrite lookup_insert_ne.
  - rewrite Harr. apply elem_of_union_l. by apply elem_of_singleton.
  - apply memoized_hit. by rewrite Hm, lookup_insert_eq.
Qed.

Lemma array_first_request_registers_witness :
  exists a w',
    array 1 (CompiledType_new "Foo" None None None initial).2 = (Returns a, w')
    /\ a = 2
    /\ registered w' "FooArrayType" = Some a
    /\ array 1 w' = (Returns a, w').
Proof.
  destruct (array_first_request_registers 1
              (plain_obj cls_CompiledType "Foo" "Foo" None) {["Foo" := 1]}
              (CompiledType_new "Foo" None None None initial).2)
    as (a & w' & Hrun & Ha & _ & Hreg & _ & _ & Hagain);
    [by vm_compute..|].
  exists a, w'. by split_and!.
Defined.

Lemma resolve_found td type_name dct (t : ident) w :
  dicts w !! td = Some dct -> dct !! type_name = Some t ->
  resolve td type_name w = (Returns (VType t), w).
Proof.
  intros Hd Ht. unfold resolve, bind, get_state. by rewrite Hd, Ht.
Qed.

Lemma resolve_missing td type_name dct w :
  dicts w !! td = Some dct -> dct !! type_name = None ->
  Diag.ctx_emitter (diag w) = false ->
  resolve td type_name w
  = (Raises DiagnosticError,
     set_diag (Diag.print_diag Diag.error
                 ("Invalid type name: " +:+ type_name) (diag w)) w).
Proof.
  intros Hd Ht Hem. unfold resolve, bind, get_state. rewrite Hd, Ht.
  unfold lift_diag, Diag.check_source_language. by rewrite Hem.
Qed.

(** [T.name] is bound late and to one dictionary.  When the name is not
    registered, or is registered for a node type, [TypeRepo.__getattr__]
    returns a deferred reference labelled with the name and changes
    nothing; any other registered type is returned at once.  Forcing the
    reference later looks the name up in the dictionary that was current
    when the reference was made: it returns what is registered there at
    that time, and raises [DiagnosticError], after one error message, when
    the name is still missing. *)
Theorem type_reference_is_late_bound type_name w dct :
  dicts w !! type_dict (repo w) = Some dct ->
  (forall t o,
     dct !! type_name = Some t -> objects w !! t = Some o ->
     isinstance_ASTNodeType (cls o) = false ->
     TypeRepo_getattr type_name w = (Returns (Resolved t), w))
  /\ (dct !! type_name = None
      \/ (exists t o, dct !! type_name = Some t /\ objects w !! t = Some o
                      /\ isinstance_ASTNodeType (cls o) = true) ->
      exists d,
        TypeRepo_getattr type_name w = (Returns (Deferred d), w)
        /\ label d = type_name
        /\ (forall w' dct' t,
              dicts w' !! type_dict (repo w) = Some dct' ->
              dct' !! type_name = Some t ->
              Defer_get d w' = (Returns (VType t), w'))
        /\ (forall w' dct',
              dicts w' !! type_dict (repo w) = Some dct' ->
              dct' !! type_name = None ->
              Diag.ctx_emitter (diag w') = false ->
              Defer_get d w'
              = (Raises DiagnosticError,
                 set_diag (Diag.print_diag Diag.error
                             ("Invalid type name: " +:+ type_name)
                             (diag w')) w'))).
Proof.
  intros Hd. split.
  - intros t o Ht Ho Hcls. unfold TypeRepo_getattr, bind, get_state.
    rewrite Hd, Ht. unfold get_obj. by rewrite Ho, Hcls.
  - intros Hcase.
    exists (mkDefer (resolve (type_dict (repo w)) type_name) type_name).
    split_and!.
    + unfold TypeRepo_getattr, bind, get_state. rewrite Hd.
      destruct Hcase as [-> | (t & o & -> & Ho & Hcls)]; [done|].
      unfold get_obj. by rewrite Ho, Hcls.
    + done.
    + intros w' dct' t Hd' Ht. by eapply resolve_found.
    + intros w' dct' Hd' Ht Hem. by eapply resolve_missing.
Qed.

Lemma type_reference_is_late_bound_witness :
  exists d,
    TypeRepo_getattr "Foo" initial = (Returns (Deferred d), initial)
    /\ label d = "Foo"
    /\ Defer_get d (CompiledType_new "Foo" None None None initial).2
       = (Returns (VType 1), (CompiledType_new "Foo" None None None initial).2).
Proof.
  destruct (type_reference_is_late_bound "Foo" initial ∅) as [_ H];
    [by vm_compute|].
  destruct H as (d & Hd & Hl & Hfound & _); [by left|].
  exists d. split_and!; [done|done|].
  apply (Hfound _ {["Foo" := 1]}); by vm_compute.
Defined.

(** [CompiledTypeRepo.reset] binds [type_dict] to a new, empty dictionary
    and leaves the old one as it was.  A deferred reference made before the
    reset keeps looking names up in the old dictionary: a type registered
    under its name after the reset is found by [T.name], but forcing the old
    reference still fails.  Without the reset the same registration makes
    the reference resolve to the new type. *)
Theorem reset_orphans_deferred_references type_name w dct nm e dsl :
  dicts w !! type_dict (repo w) = Some dct ->
  dct !! type_name = None ->
  type_name <> EmptyString ->
  type_dict (repo w) < next_ident w ->
  Diag.ctx_emitter (diag w) = false ->
  let d := mkDefer (resolve (type_dict (repo w)) type_name) type_name in
  let declare := CompiledType_new nm e (Some type_name) dsl in
  let w1 := (reset w).2 in
  TypeRepo_getattr type_name w = (Returns (Deferred d), w)
  /\ Defer_get d (declare w).2 = (Returns (VType (next_ident w)), (declare w).2)
  /\ (forall n, registered w1 n = None)
  /\ dicts w1 !! type_dict (repo w) = Some dct
  /\ registered (declare w1).2 type_name = Some (next_ident w1)
  /\ (Defer_get d (declare w1).2).1 = Raises DiagnosticError.
Proof.
  intros Hd Ht Hne Hlt Hem d declare w1.
  split_and!.
  - unfold TypeRepo_getattr, bind, get_state. by rewrite Hd, Ht.
  - apply (resolve_found _ _ (<[type_name := next_ident w]> dct)).
    + unfold declare, CompiledType_new, CompiledType_init.
      unfold bind, alloc, modify, get_state, ret. simpl.
      destruct (decide (type_name = EmptyString)) as [?|_]; [done|].
      rewrite lookup_alter_eq, Hd. done.
    + by rewrite lookup_insert_eq.
  - intros n. unfold w1, registered, reset, bind, alloc, modify. simpl.
    by rewrite lookup_insert_eq.
  - unfold w1, reset, bind, alloc, modify. simpl.
    rewrite lookup_insert_ne by lia. done.
  - unfold registered, declare, CompiledType_new, CompiledType_init, w1, reset.
    unfold bind, alloc, modify, get_state, ret. simpl.
    destruct (decide (type_name = EmptyString)) as [?|_]; [done|].
    rewrite lookup_alter_eq, lookup_insert_eq. simpl.
    by rewrite lookup_insert_eq.
  - unfold Defer_get. simpl.
    erewrite (resolve_missing _ _ dct); [done| |done|].
    + unfold declare, CompiledType_new, CompiledType_init, w1, reset.
      unfold bind, alloc, modify, get_state, ret. simpl.
      rewrite lookup_alter_ne by lia. rewrite lookup_insert_ne by lia. done.
    + done.
Qed.

Lemma reset_orphans_deferred_references_witness :
  registered (CompiledType_new "Foo" None (Some "Foo") None (reset initial).2).2
             "Foo" = Some (next_ident (reset initial).2)
  /\ (Defer_get (mkDefer (resolve (type_dict (repo initial)) "Foo") "Foo")
        (CompiledType_new "Foo" None (Some "Foo") None (reset initial).2).2).1
     = Raises DiagnosticError.
Proof.
  destruct (reset_orphans_deferred_references "Foo" initial ∅ "Foo" None None)
    as (_ & _ & _ & _ & H1 & H2);
    [by vm_compute|by vm_compute|done|by vm_compute; lia|done|].
  by split.
Defined.


End RepoMore.

Module CollectionsProps.
Import Repo Collections.

Section Expressions.
Context {E AbstractExpression : Type}.
Variable construct :
  AbstractExpression -> option TypeRef -> M (@State E) ResolvedExpression.
Variable construct_var : Var -> M (@State E) ResolvedExpression.
Variable rtype : ResolvedExpression -> ident.
Variable destructure_entity :
  ResolvedExpression ->
  M (@State E) (ResolvedExpression * ResolvedExpression * ResolvedExpression).
Variable get_scope : M (@State E) Scope.
Variable new_child_enter : Scope -> M (@State E) Scope.
Variable new_child_exit : Scope -> M (@State E) unit.
Variable use_enter : Scope -> M (@State E) unit.
Variable use_exit : Scope -> M (@State E) unit.
Variable AbstractVariable : string -> ident -> M (@State E) Var.
Variable set_type : Var -> ident -> M (@State E) unit.
Variable create_local_variable :
  ResolvedExpression -> Scope -> M (@State E) unit.
Variable add_to_scope : Var -> Scope -> M (@State E) unit.
Variable ctx_generic_list_type : M (@State E) ident.
Variable ctx_root_grammar_class : M (@State E) ident.
Variable scope_parent : Scope -> Scope.
Variable ComputingExpr_init : string -> M (@State E) unit.
Variable is_keyword : Name -> bool.

Local Abbreviation State := (@State E).
Local Abbreviation Concat_construct := (Concat_construct construct rtype).
Local Abbreviation construct_common :=
  (construct_common construct construct_var rtype destructure_entity
     get_scope new_child_enter new_child_exit AbstractVariable set_type
     create_local_variable add_to_scope ctx_root_grammar_class is_keyword).
Local Abbreviation Quantifier_Expr_new :=
  (Quantifier_Expr_new use_enter use_exit scope_parent ComputingExpr_init).
Local Abbreviation Contains_construct :=
  (Contains_construct construct construct_var rtype destructure_entity
     get_scope new_child_enter new_child_exit use_enter use_exit
     AbstractVariable set_type create_local_variable add_to_scope
     ctx_root_grammar_class scope_parent ComputingExpr_init is_keyword).
Local Abbreviation Quantifier_construct :=
  (Quantifier_construct construct construct_var rtype destructure_entity
     get_scope new_child_enter new_child_exit use_enter use_exit
     AbstractVariable set_type create_local_variable add_to_scope
     ctx_root_grammar_class scope_parent ComputingExpr_init is_keyword).

(** The state after an error message was printed. *)
Definition printed_error (message : string) (s : State) : State :=
  mkState (set_diag (Diag.print_diag Diag.error message (diag (world s)))
                    (world s))
          (others s).

Lemma type_obj_some (t : ident) o (s : State) :
  objects (world s) !! t = Some o -> type_obj t s = (Returns o, s).
Proof.
  intros Ho. unfold type_obj, lift_world, get_obj. rewrite Ho. simpl.
  by destruct s.
Qed.

Lemma type_obj_inv (t : ident) o (s s' : State) :
  type_obj t s = (Returns o, s') ->
  s' = s /\ objects (world s) !! t = Some o.
Proof.
  unfold type_obj, lift_world, get_obj.
  destruct (objects (world s) !! t) as [o'|]; simpl; [|done].
  intros [= <- <-]. by destruct s.
Qed.

Lemma check_true msg (s : State) :
  Diag.ctx_emitter (diag (world s)) = false ->
  check true msg s = (Returns tt, s).
Proof.
  intros Hem. unfold check, lift_world, lift_diag. simpl.
  rewrite DiagProps.check_true_noop by (by right). simpl.
  by destruct s as [[]].
Qed.

Lemma check_false msg (s : State) :
  Diag.ctx_emitter (diag (world s)) = false ->
  check false msg s = (Raises DiagnosticError, printed_error msg s).
Proof.
  intros Hem. unfold check, lift_world, lift_diag. simpl.
  rewrite ChecksProps.check_error_raises by (by right). done.
Qed.

Lemma check_inv p msg (s s' : State) :
  check p msg s = (Returns tt, s') -> s' = s /\ p = true.
Proof.
  unfold check, lift_world, lift_diag, Diag.check_source_language. simpl.
  destruct (Diag.ctx_emitter (diag (world s))); simpl; [done|].
  destruct p; simpl; [|done]. intros [= <-]. by destruct s as [[]].
Qed.

(** [Concat.construct] accepts two operands exactly when both have array
    types and the two types are one and the same object: it then returns
    the call of [Concat] on the two operands, typed with that array type,
    and adds nothing to the diagnostics.  In every other case it prints one
    error and raises [DiagnosticError]: about the first operand when it is
    no array, else about the second, else about the differing element
    types; a subtype relation between the element types plays no role. *)
Theorem concat_requires_identical_array_types array_1 array_2
    (s s1 s2 : State) r1 r2 o1 o2 :
  construct array_1 None s = (Returns r1, s1) ->
  construct array_2 None s1 = (Returns r2, s2) ->
  objects (world s2) !! rtype r1 = Some o1 ->
  objects (world s2) !! rtype r2 = Some o2 ->
  Diag.ctx_emitter (diag (world s2)) = false ->
  (is_array_type o1 = false ->
   Concat_construct array_1 array_2 s
   = (Raises DiagnosticError,
      printed_error ("Expected array type, got " +:+ dsl_name o1) s2))
  /\ (is_array_type o1 = true -> is_array_type o2 = false ->
      Concat_construct array_1 array_2 s
      = (Raises DiagnosticError,
         printed_error ("Expected array type, got " +:+ dsl_name o2) s2))
  /\ (forall e1 e2 eo1 eo2,
        is_array_type o1 = true -> is_array_type o2 = true ->
        _element_type o1 = Some e1 -> _element_type o2 = Some e2 ->
        objects (world s2) !! e1 = Some eo1 ->
        objects (world s2) !! e2 = Some eo2 ->
        Concat_construct array_1 array_2 s
        = if decide (rtype r1 = rtype r2)
          then (Returns (CallExpr "Concat_Result" "Concat"
                                  (Resolved (rtype r1)) [r1; r2]), s2)
          else (Raises DiagnosticError,
                printed_error
                  ("Got different array element types in concat: "
                   +:+ dsl_name eo1 +:+ " and " +:+ dsl_name eo2) s2)).
Proof.
  intros Hc1 Hc2 Ho1 Ho2 Hem.
  assert (Concat_construct array_1 array_2 s
            = (let* _ := check_array (rtype r1) in
               let* _ := check_array (rtype r2) in
               let* t1 := type_obj (rtype r1) in
               let* t2 := type_obj (rtype r2) in
               let* e1 := element_type t1 in
               let* e2 := element_type t2 in
               let* eo1 := type_obj e1 in
               let* eo2 := type_obj e2 in
               lift_world (lift_diag (Diag.check_multiple
                 [(bool_decide (rtype r1 = rtype r2),
                   "Got different array element types in concat: "
                   +:+ dsl_name eo1 +:+ " and " +:+ dsl_name eo2)]
                 Diag.error));;
               ret (CallExpr "Concat_Result" "Concat" (Resolved (rtype r1))
                             [r1; r2])) s2) as Hstart.
  { unfold Collections.Concat_construct.
    erewrite bind_returns; [|exact Hc1].
    erewrite bind_returns; [|exact Hc2]. done. }
  rewrite Hstart. clear Hstart.
  assert (forall (t : ident) o,
            objects (world s2) !! t = Some o ->
            check_array t s2
            = if is_array_type o then (Returns tt, s2)
              else (Raises DiagnosticError,
                    printed_error ("Expected array type, got "
                                   +:+ dsl_name o) s2)) as Hcheck.
  { intros t o Ho. unfold check_array.
    erewrite bind_returns; [|by apply type_obj_some].
    destruct (is_array_type o); [by apply check_true|by apply check_false]. }
  split_and!.
  - intros Ha1. erewrite bind_raises; [done|].
    by rewrite (Hcheck _ o1 Ho1), Ha1.
  - intros Ha1 Ha2.
    erewrite bind_returns; [|by rewrite (Hcheck _ o1 Ho1), Ha1].
    erewrite bind_raises; [done|]. by rewrite (Hcheck _ o2 Ho2), Ha2.
  - intros e1 e2 eo1 eo2 Ha1 Ha2 He1 He2 Heo1 Heo2.
    erewrite bind_returns; [|by rewrite (Hcheck _ o1 Ho1), Ha1].
    erewrite bind_returns; [|by rewrite (Hcheck _ o2 Ho2), Ha2].
    erewrite bind_returns; [|by apply type_obj_some].
    erewrite bind_returns; [|by apply type_obj_some].
    unfold element_type at 1. rewrite He1.
    erewrite bind_returns; [|reflexivity].
    unfold element_type at 1. rewrite He2.
    erewrite bind_returns; [|reflexivity].
    erewrite bind_returns; [|by apply type_obj_some].
    erewrite bind_returns; [|by apply type_obj_some].
    unfold Diag.check_multiple. simpl for_each.
    destruct (decide (rtype r1 = rtype r2)) as [Heq|Hne].
    + rewrite bool_decide_eq_true_2 by done.
      erewrite bind_returns; [done|].
      unfold lift_world, lift_diag. simpl.
      erewrite bind_returns;
        [|apply DiagProps.check_true_noop; by right].
      simpl. by destruct s2 as [[]].
    + rewrite bool_decide_eq_false_2 by done.
      erewrite bind_raises; [done|].
      unfold lift_world, lift_diag. simpl.
      erewrite bind_raises;
        [|apply ChecksProps.check_error_raises; by right].
      done.
Qed.

Lemma T_inv type_name r (s s' : State) :
  T_ type_name s = (Returns r, s') -> s' = s.
Proof.
  unfold T_, lift_world, TypeRepo_getattr, bind, get_state.
  destruct (dicts (world s) !! type_dict (repo (world s))) as [d|]; [|done].
  destruct (d !! type_name) as [t|].
  - unfold get_obj. destruct (objects (world s) !! t) as [o|]; [|done].
    destruct (isinstance_ASTNodeType (cls o)); simpl; intros [= _ <-];
      by destruct s.
  - simpl. intros [= _ <-]. by destruct s.
Qed.

Lemma matches_ref_inv t ref b (s s' : State) :
  matches_ref t ref s = (Returns b, s') -> s' = s.
Proof.
  unfold matches_ref. destruct ref as [t'|d]; [|by intros [= _ <-]].
  destruct (Subtyping.matches (objects (world s)) t t'); [|done].
  by intros [= _ <-].
Qed.

(** [Contains.construct] is the construction of the [ANY] quantifier
    without the check of the predicate's type: whenever
    [Quantifier.construct] with kind [ANY] returns for a collection
    expression without index variable, [Contains.construct] returns the same
    expression and leaves the same state; and whatever [Contains.construct]
    returns is a [Quantifier.Expr] of kind [ANY] without index variable,
    built from the result of [construct_common]. *)
Theorem contains_is_any_quantifier (self : CollectionExpression)
    (s : State) :
  index_var_ self = None ->
  (forall e s',
     Quantifier_construct self ANY s = (Returns e, s') ->
     Contains_construct self s = (Returns e, s'))
  /\ (forall e s',
        Contains_construct self s = (Returns e, s') ->
        exists r s1,
          construct_common self s = (Returns r, s1)
          /\ index_var r = None
          /\ Quantifier_Expr_new ANY (collection_expr r) (inner_expr r)
                (element_vars r) None (inner_scope r) s1 = (Returns e, s')
          /\ e = Quantifier_Expr ANY (collection_expr r) (inner_expr r)
                                 (element_vars r) None (inner_scope r)).
Proof.
  intros Hidx. split.
  - intros e s' Hq. unfold Collections.Quantifier_construct in Hq.
    apply bind_inv_returns in Hq as (r & s1 & Hcommon & Hq).
    apply bind_inv_returns in Hq as (b & s2 & ->%T_inv & Hq).
    apply bind_inv_returns in Hq as (it & s3 & [-> _]%type_obj_inv & Hq).
    apply bind_inv_returns in Hq as (ok & s4 & ->%matches_ref_inv & Hq).
    apply bind_inv_returns in Hq as ([] & s5 & [-> _]%check_inv & Hq).
    unfold Collections.Contains_construct.
    erewrite bind_returns; [|exact Hcommon].
    destruct (index_var r) as [i|] eqn:Hi; [|done].
    exfalso. clear Hq. revert Hcommon Hi.
    unfold Collections.construct_common. rewrite Hidx.
    intros Hcommon Hi.
    repeat (apply bind_inv_returns in Hcommon as (? & ? & ? & Hcommon);
            repeat match type of Hcommon with
                   | (let '(_, _) := ?x in _) _ = _ => destruct x
                   end).
    injection Hcommon as <- _. simpl in Hi.
    match goal with
    | H : ret None _ = (Returns _, _) |- _ => injection H as <- _
    end.
    done.
  - intros e s' Hc. unfold Collections.Contains_construct in Hc.
    apply bind_inv_returns in Hc as (r & s1 & Hcommon & Hc).
    exists r, s1. destruct (index_var r) as [i|] eqn:Hi; [done|].
    split_and!; [done|done|done|].
    unfold Collections.Quantifier_Expr_new in Hc.
    apply bind_inv_returns in Hc as ([] & s2 & _ & Hc).
    by injection Hc as <- _.
Qed.

(** [Map.kind] depends on which function objects were passed, not on how
    the expression was made: it is [map] or [mapcat] exactly for a function
    of the user without filter, [filter_map] exactly for a function of the
    user with a filter (also when the results are concatenated), [filter]
    exactly for the built-in identity with a filter, and [take_while] for
    the built-in identity without filter, whether or not there is a
    [take_while] predicate: the expression [as_array] makes reports
    [take_while]. *)
Theorem map_kind_classification (m : @Map AbstractExpression) :
  (Map_kind m = "map"
   <-> expr_fn m <> collection_expr_identity
       /\ filter_fn m = collection_expr_none /\ do_concat_ m = false)
  /\ (Map_kind m = "mapcat"
      <-> expr_fn m <> collection_expr_identity
          /\ filter_fn m = collection_expr_none /\ do_concat_ m = true)
  /\ (Map_kind m = "filter_map"
      <-> expr_fn m <> collection_expr_identity
          /\ filter_fn m <> collection_expr_none)
  /\ (Map_kind m = "filter"
      <-> expr_fn m = collection_expr_identity
          /\ filter_fn m <> collection_expr_none)
  /\ (Map_kind m = "take_while"
      <-> expr_fn m = collection_expr_identity
          /\ filter_fn m = collection_expr_none)
  /\ (forall (base : @CollectionExpression AbstractExpression) fe te p,
        Map_kind (Map_new as_array_args base fe te)
        = Map_kind (Map_new (take_while p) base fe te)).
Proof.
  unfold Map_kind.
  destruct (decide (expr_fn m = collection_expr_identity)) as [He|He];
    destruct (decide (filter_fn m = collection_expr_none)) as [Hf|Hf];
    try destruct (decide (filter_fn m <> collection_expr_none)) as [Hf'|Hf'];
    try destruct (do_concat_ m); split_and!; try done;
    split; try done; intros; try tauto; try (by destruct_and?).
Qed.


Local Abbreviation canonicalize_list :=
  (canonicalize_list rtype ctx_generic_list_type).

Lemma is_root_list_type_spec (d : ident) o (s : State) :
  Subtyping.links_ok (objects (world s)) ->
  objects (world s) !! d = Some o ->
  exists b, is_root_list_type o s = (Returns b, s)
            /\ (b = true <-> root_list (objects (world s)) d).
Proof.
  intros Hlinks Ho. unfold is_root_list_type.
  destruct (_base o) as [b|] eqn:Hb.
  - destruct (Hlinks d o Ho) as [Hbase _].
    destruct (Hbase b Hb) as [_ [bo Hbo]].
    exists (is_generic_list_type bo). split.
    + erewrite bind_returns; [|by apply type_obj_some]. done.
    + split.
      * intros Hg. by exists o, b, bo.
      * intros (o' & b' & bo' & Ho' & Hb' & Hbo' & Hg). congruence.
  - exists false. split; [done|]. split; [done|].
    intros (o' & b' & bo' & Ho' & Hb' & _). congruence.
Qed.

(** The loop of [canonicalize_list] ends, at the nearest root list type. *)
Lemma root_list_loop_returns (s : State) :
  Subtyping.links_ok (objects (world s)) ->
  forall fuel (t : ident) c,
    t < fuel ->
    Subtyping.get_inheritance_chain (objects (world s)) t = Some c ->
    (exists d, d ∈ c /\ root_list (objects (world s)) d) ->
    exists d,
      root_list_loop fuel (Some t) s = (Returns (Some d), s)
      /\ d ∈ c /\ root_list (objects (world s)) d
      /\ (forall x, x ∈ c -> Subtyping.is_ancestor (objects (world s)) x d ->
                    x <> d -> ~ root_list (objects (world s)) x).
Proof.
  intros Hlinks fuel. induction fuel as [|fuel IH];
    intros t c Hfuel Hc (d0 & Hd0 & Hroot0); [lia|].
  destruct (objects (world s) !! (t : ident)) as [o|] eqn:Ho;
    [|by rewrite SubtypingProps.get_inheritance_chain_None in Hc].
  destruct (is_root_list_type_spec t o s Hlinks Ho) as (b & Hb & Hbroot).
  assert (root_list_loop (S fuel) (Some t) s
          = if b then (Returns (Some t), s)
            else root_list_loop fuel (_base o) s) as Hstep.
  { simpl. erewrite bind_returns; [|by apply type_obj_some].
    erewrite bind_returns; [|exact Hb]. by destruct b. }
  rewrite Hstep.
  destruct (SubtypingProps.get_inheritance_chain_spec _ Hlinks t c Hc)
    as (Hlast & Hle & Hnd & Hpre).
  assert (t ∈ c) as Htc.
  { apply last_Some in Hlast as [l ->]. apply elem_of_app. right. by left. }
  destruct b.
  - exists t. split_and!; [done|done|by apply Hbroot|].
    intros x Hx (cx & Hcx & Htx) Hne.
    destruct (SubtypingProps.get_inheritance_chain_spec _ Hlinks x cx Hcx)
      as (_ & Hlex & _).
    destruct (Hle x Hx), (Hlex t Htx). exfalso. apply Hne. lia.
  - assert (~ root_list (objects (world s)) t) as Hnot.
    { intros Hr. apply Hbroot in Hr. done. }
    rewrite (SubtypingProps.get_inheritance_chain_unfold _ Hlinks t o Ho)
      in Hc.
    destruct (_base o) as [bs|] eqn:Hbase.
    + destruct (Subtyping.get_inheritance_chain (objects (world s)) bs)
        as [cb|] eqn:Hcb; [|done].
      injection Hc as <-.
      destruct (Hlinks t o Ho) as [Hbs _].
      destruct (Hbs bs Hbase) as [Hlt _].
      destruct (IH bs cb) as (d & Hrun & Hd & Hroot & Hmin);
        [lia|done| |].
      { exists d0. split; [|done].
        apply elem_of_app in Hd0 as [?|Hd0]; [done|].
        apply list_elem_of_singleton in Hd0. by subst d0. }
      exists d. split_and!; [done| |done|].
      * apply elem_of_app. by left.
      * intros x [Hx|Hx]%elem_of_app Hanc Hne; [by apply Hmin|].
        apply list_elem_of_singleton in Hx. by subst x.
    + injection Hc as <-.
      apply list_elem_of_singleton in Hd0. by subst d0.
Qed.

(** [canonicalize_list] with [to_root_list=True] on a node-typed collection
    returns: the loop over the bases ends.  The collection is converted to
    the nearest root list type among the type and its bases, and the
    element type returned is the one of the original type.  A collection
    that has no node type is returned as it is.  Nothing is changed. *)
Theorem canonicalize_list_nearest_root_list (coll_expr : ResolvedExpression)
    (s : State) o elt :
  Subtyping.links_ok (objects (world s)) ->
  objects (world s) !! rtype coll_expr = Some o ->
  _element_type o = Some elt ->
  (is_ast_node o = false ->
   forall to_root_list,
     canonicalize_list coll_expr to_root_list s
     = (Returns (Some (coll_expr, elt)), s))
  /\ (is_ast_node o = true ->
      (exists d, Subtyping.is_ancestor (objects (world s)) (rtype coll_expr) d
                 /\ root_list (objects (world s)) d) ->
      exists d,
        canonicalize_list coll_expr true s
        = (Returns (Some (convert_node coll_expr d, elt)), s)
        /\ Subtyping.is_ancestor (objects (world s)) (rtype coll_expr) d
        /\ root_list (objects (world s)) d
        /\ (forall x,
              Subtyping.is_ancestor (objects (world s)) (rtype coll_expr) x ->
              Subtyping.is_ancestor (objects (world s)) x d ->
              x <> d -> ~ root_list (objects (world s)) x)).
Proof.
  intros Hlinks Ho Helt. split.
  - intros Hnode to_root. unfold Collections.canonicalize_list.
    erewrite bind_returns; [|by apply type_obj_some].
    unfold element_type. rewrite Helt.
    erewrite bind_returns; [|reflexivity]. by rewrite Hnode.
  - intros Hnode (d0 & (c & Hc & Hd0) & Hroot0).
    destruct (root_list_loop_returns s Hlinks
                (S (rtype coll_expr)) (rtype coll_expr) c)
      as (d & Hrun & Hd & Hroot & Hmin);
      [lia|done|by exists d0|].
    exists d. split_and!; [|by exists c|done|].
    + unfold Collections.canonicalize_list.
      erewrite bind_returns; [|by apply type_obj_some].
      unfold element_type. rewrite Helt.
      erewrite bind_returns; [|reflexivity]. rewrite Hnode.
      erewrite bind_returns; [|exact Hrun]. done.
    + intros x (c' & Hc' & Hx) Hanc Hne.
      assert (c' = c) as -> by congruence. by apply Hmin.
Qed.

Local Abbreviation collection_get :=
  (collection_get construct rtype destructure_entity ctx_generic_list_type).
Local Abbreviation Map_construct :=
  (Map_construct construct construct_var rtype destructure_entity
     get_scope new_child_enter new_child_exit use_enter use_exit
     AbstractVariable set_type create_local_variable add_to_scope
     ctx_root_grammar_class scope_parent ComputingExpr_init is_keyword).


Lemma with_block_inv {A B} (enter : M State A) (exit : A -> M State unit)
    (body : A -> M State B) (s s' : State) b :
  with_block enter exit body s = (Returns b, s') ->
  exists a s1 s2,
    enter s = (Returns a, s1) /\ body a s1 = (Returns b, s2)
    /\ exit a s2 = (Returns tt, s').
Proof.
  unfold with_block. intros (a & s1 & Henter & Hrun)%bind_inv_returns.
  exists a, s1. destruct (body a s1) as [[b'|e] s2].
  - apply bind_inv_returns in Hrun as ([] & s3 & Hexit & [= <- <-]).
    by exists s2.
  - by apply bind_inv_returns in Hrun as (? & ? & _ & [=]).
Qed.


Local Abbreviation length :=
  (length construct rtype ctx_generic_list_type).


End Expressions.

Import CollectionsSample.

Lemma concat_requires_identical_array_types_witness :
  Collections.Concat_construct construct rtype 26 26 sample_state
  = (Returns (CallExpr "Concat_Result" "Concat" (Resolved 26)
                       [Constructed 26; Constructed 26]), sample_state).
Proof.
  destruct (concat_requires_identical_array_types construct rtype 26 26
              sample_state sample_state sample_state
              (Constructed 26) (Constructed 26)
              (sample_type 26) (sample_type 26))
    as (_ & _ & H);
    [reflexivity|reflexivity|by vm_compute|by vm_compute|reflexivity|].
  rewrite (H 1 1 (sample_type 1) (sample_type 1));
    [done|by vm_compute..].
Defined.

Lemma contains_is_any_quantifier_witness :
  exists r s1,
    sample_construct_common over_list sample_state = (Returns r, s1)
    /\ index_var r = None
    /\ Quantifier_Expr ANY (Constructed 27) (Constructed 25)
         [(Constructed 13, Some (UncheckedCastExpr (Constructed 1) 13));
          (Constructed 1, None)] None 1
       = Quantifier_Expr ANY (collection_expr r) (inner_expr r)
                         (element_vars r) None (inner_scope r).
Proof.
  destruct (contains_is_any_quantifier construct construct_var rtype
              destructure_entity get_scope new_child_enter scope_noop
              scope_noop scope_noop AbstractVariable set_type
              create_local_variable add_to_scope ctx_root_grammar_class pred
              ComputingExpr_init is_keyword over_list sample_state)
    as [_ H]; [reflexivity|].
  destruct (H (Quantifier_Expr ANY (Constructed 27) (Constructed 25)
                 [(Constructed 13,
                   Some (UncheckedCastExpr (Constructed 1) 13));
                  (Constructed 1, None)] None 1)
              sample_state)
    as (r & s1 & Hcommon & Hidx & _ & He); [by vm_compute|].
  exists r, s1. split; [exact Hcommon|]. split; [exact Hidx|exact He].
Defined.


Lemma canonicalize_list_nearest_root_list_witness :
  exists d,
    Collections.canonicalize_list rtype ctx_generic_list_type
      (Constructed 27) true sample_state
    = (Returns (Some (convert_node (Constructed 27) d, 13)), sample_state)
    /\ Subtyping.is_ancestor (objects (world sample_state)) 27 d
    /\ root_list (objects (world sample_state)) d.
Proof.
  destruct (canonicalize_list_nearest_root_list rtype ctx_generic_list_type
              (Constructed 27) sample_state (sample_type 27) 13
              SubtypingProps.sample_links_ok)
    as [_ H]; [by vm_compute|by vm_compute|].
  destruct H as (d & Hrun & Hanc & Hroot & _); [by vm_compute| |].
  - exists 27. split.
    + apply (SubtypingProps.is_ancestor_compute _ 27 27 [1; 2; 27]);
        [by vm_compute|]. right. right. by left.
    + exists (sample_type 27), 2, (sample_type 2). split_and!; by vm_compute.
  - exists d. by split_and!.
Defined.




End CollectionsProps.

Module ReachableProps.
Import Repo Subtyping Reachable RepoProps.

(** [inv K n]: the heap is well formed, the objects of [K] exist and the
    identities below [n] have been allocated. *)
Definition inv (K : ident -> Prop) (n : ident) (w : World) : Prop :=
  heap_ok w /\ (forall t, K t -> is_Some (objects w !! t)) /\ n <= next_ident w.

Lemma inv_weaken (K K' : ident -> Prop) n n' w :
  (forall t, K t -> K' t) -> n <= n' -> inv K' n' w -> inv K n w.
Proof.
  intros HK Hn (Hok & Hex & Hle). split_and!; [done| |lia].
  intros t Ht. apply Hex, HK, Ht.
Qed.

Lemma inv_snapshot K n w :
  inv K n w -> inv (fun t => is_Some (objects w !! t)) (next_ident w) w.
Proof. intros (Hok & _ & _). by split_and!. Qed.

Lemma inv_restore K n w w' :
  inv K n w -> inv (fun t => is_Some (objects w !! t)) (next_ident w) w' ->
  inv K n w'.
Proof.
  intros (_ & Hex & Hle). apply inv_weaken; [|done].
  intros t Ht. by apply Hex.
Qed.

(** The state right after an allocation: what follows may rely on the
    objects that exist now, all older than the new identity. *)
Lemma inv_after_alloc {B} K n w (m : M World B) :
  inv K n w ->
  preserves (inv (fun t => is_Some (objects w !! t)) (S (next_ident w))) m ->
  inv K n (m (set_next_ident (S (next_ident w)) w)).2.
Proof.
  intros Hw Hp. apply (inv_restore K n w _ Hw).
  apply (inv_weaken _ (fun t => is_Some (objects w !! t)) _ (S (next_ident w)));
    [done|lia|].
  apply Hp. destruct Hw as ((Hl & Hb) & _ & _).
  split; [split|split]; simpl.
  - exact Hl.
  - intros t Ht. specialize (Hb t Ht). simpl. lia.
  - by intros t Ht.
  - lia.
Qed.

Lemma bind_alloc_eq {B} (k : ident -> M World B) w :
  bind alloc k w = k (next_ident w) (set_next_ident (S (next_ident w)) w).
Proof. reflexivity. Qed.

Lemma bind_get_obj_eq {B} t (k : Obj -> M World B) w :
  bind (get_obj t) k w
  = match objects w !! t with
    | Some o => k o w
    | None => (Raises AttributeError, w)
    end.
Proof. unfold bind, get_obj. by destruct (objects w !! t). Qed.

Lemma bind_assoc_eq {A B C} (m : M World A) (f : A -> M World B)
    (g : B -> M World C) w :
  bind (bind m f) g w = bind m (fun a => bind (f a) g) w.
Proof. unfold bind. by destruct (m w) as [[a|e] w']. Qed.

Lemma bind_ret_eq {A B} (a : A) (k : A -> M World B) w :
  bind (ret a) k w = k a w.
Proof. reflexivity. Qed.

Lemma bind_raise_eq {A B} e (k : A -> M World B) w :
  bind (raise e) k w = (Raises e, w).
Proof. reflexivity. Qed.

Section Kept.
Context (K : ident -> Prop) (n : ident).

Let P := inv K n.

Lemma inv_frame (f : World -> World) :
  (forall w, next_ident (f w) = next_ident w) ->
  (forall w, objects (f w) = objects w) ->
  preserves P (modify f).
Proof.
  intros Hn Ho. apply preserves_modify. unfold P, inv, heap_ok, bounded.
  intros w. by rewrite Hn, Ho.
Qed.

Lemma inv_lift_diag {A} (m : M Diag.World A) : preserves P (lift_diag m).
Proof. by intros w Hw. Qed.

Lemma inv_get_obj t : preserves P (get_obj t).
Proof. intros w Hw. unfold get_obj. by destruct (objects w !! t). Qed.

Lemma inv_alloc : preserves P alloc.
Proof.
  intros w ((Hl & Hb) & Hex & Hle). split; [split|split]; simpl.
  - exact Hl.
  - intros t Ht. specialize (Hb t Ht). simpl. lia.
  - exact Hex.
  - lia.
Qed.

(** Writing attributes of an object: each link it has afterwards is one it
    had, or one to an older object that exists. *)
Lemma inv_update_obj_links t f :
  (forall o b, _base (f o) = Some b -> _base o = Some b \/ (b < t /\ K b)) ->
  (forall o e, _element_type (f o) = Some e ->
               _element_type o = Some e \/ (e < t /\ K e)) ->
  preserves P (update_obj t f).
Proof.
  intros Hbase Helt. apply preserves_modify. unfold P.
  intros w ((Hl & Hb) & Hex & Hle). split_and!; simpl; [split| |done].
  - intros t' o' Ho'. simpl in *. apply lookup_alter_Some in Ho'.
    destruct Ho' as [(<- & o & Ho & ->)|(Hne & Ho')].
    + destruct (Hl t o Ho) as [H1 H2]. split; intros x Hx.
      * rewrite lookup_alter_is_Some.
        destruct (Hbase o x Hx) as [Hold|[? ?]]; [by apply H1|].
        split; [done|by apply Hex].
      * rewrite lookup_alter_is_Some.
        destruct (Helt o x Hx) as [Hold|[? ?]]; [by apply H2|].
        split; [done|by apply Hex].
    + destruct (Hl t' o' Ho') as [H1 H2].
      split; intros x Hx; rewrite lookup_alter_is_Some; [by apply H1|by apply H2].
  - intros t' Ht'. simpl in Ht'. rewrite lookup_alter_is_Some in Ht'.
    by apply Hb.
  - intros t' Ht'. rewrite lookup_alter_is_Some. by apply Hex.
Qed.

Lemma inv_update_obj t f :
  (forall o, _base (f o) = _base o) ->
  (forall o, _element_type (f o) = _element_type o) ->
  preserves P (update_obj t f).
Proof.
  intros Hbase Helt. apply inv_update_obj_links.
  - intros o b. rewrite Hbase. by left.
  - intros o e. rewrite Helt. by left.
Qed.

Lemma inv_set_entity self astnode dsl :
  astnode < self -> K astnode ->
  preserves P (update_obj self (set_entity astnode dsl)).
Proof.
  intros Hlt HK. apply inv_update_obj_links.
  - intros o b. simpl. by left.
  - intros o e. simpl. intros [= <-]. by right.
Qed.

(** Storing a new object under an allocated identity: its links are to
    older objects that exist. *)
Lemma inv_insert self o :
  self < n ->
  (forall b, _base o = Some b -> b < self /\ K b) ->
  (forall e, _element_type o = Some e -> e < self /\ K e) ->
  preserves P (modify (set_objects (insert self o))).
Proof.
  intros Hlt Hbase Helt. apply preserves_modify. unfold P.
  intros w ((Hl & Hb) & Hex & Hle). split_and!; simpl; [split| |done].
  - intros t o' Ho'. simpl in *. destruct (decide (t = self)) as [->|Hne].
    + rewrite lookup_insert_eq in Ho'. injection Ho' as <-.
      split; intros x Hx; rewrite lookup_insert_is_Some'.
      * destruct (Hbase x Hx) as [? ?]. split; [done|]. right. by apply Hex.
      * destruct (Helt x Hx) as [? ?]. split; [done|]. right. by apply Hex.
    + rewrite lookup_insert_ne in Ho' by done.
      destruct (Hl t o' Ho') as [H1 H2].
      split; intros x Hx; rewrite lookup_insert_is_Some'.
      * destruct (H1 x Hx). split; [done|by right].
      * destruct (H2 x Hx). split; [done|by right].
  - intros t. simpl. rewrite lookup_insert_is_Some'.
    intros [<-|Ht]; [lia|by apply Hb].
  - intros t Ht. rewrite lookup_insert_is_Some'. right. by apply Hex.
Qed.

End Kept.

Create HintDb heapkept discriminated.
#[local] Hint Extern 1 (_ < _) => lia : heapkept.
#[local] Hint Extern 1 (_ <= _) => lia : heapkept.
#[local] Hint Extern 1 (forall o, _base _ = _base o) => (intros; reflexivity)
  : heapkept.
#[local] Hint Extern 1 (forall o, _element_type _ = _element_type o) =>
  (intros; reflexivity) : heapkept.
#[local] Hint Resolve inv_update_obj : heapkept.

Ltac heap_step :=
  first
    [ solve [auto 3 with heapkept nocore]
    | apply preserves_ret | apply preserves_raise | apply preserves_get_state
    | apply inv_alloc | apply inv_get_obj | apply inv_lift_diag
    | apply inv_frame; intros; reflexivity
    | apply preserves_for_each; intros
    | apply preserves_bind; [|intros] ].

Ltac heap_auto :=
  repeat first
    [ heap_step
    | match goal with
      | |- preserves _ (match ?x with _ => _ end) => destruct x
      | |- preserves _ (if ?x then _ else _) => destruct x
      end ].

Section Constructors.
Variable is_keyword : Name -> bool.
Variable builtin_properties : list (string * FieldDecl).

Lemma inv_CompiledType_init K n self o trn dsl :
  self < n ->
  (forall b, _base o = Some b -> b < self /\ K b) ->
  (forall e, _element_type o = Some e -> e < self /\ K e) ->
  preserves (inv K n) (CompiledType_init self o trn dsl).
Proof.
  intros Hlt Hb He. unfold CompiledType_init.
  apply preserves_bind; [by apply inv_insert|intros _]. heap_auto.
Qed.

Lemma inv_init_fields K n self fields :
  preserves (inv K n) (_init_fields self fields).
Proof. unfold _init_fields. heap_auto. Qed.
#[local] Hint Resolve inv_init_fields : heapkept.

Lemma inv_StructType_init K n self c nm fields :
  self < n ->
  preserves (inv K n) (StructType_init is_keyword self c nm fields).
Proof.
  intros Hlt. unfold StructType_init.
  apply preserves_bind; [|intros _; heap_auto].
  apply inv_CompiledType_init; [done|done|done].
Qed.

(** After an allocation the new identity is below the counter. *)
Lemma inv_bind_alloc {B} K n (k : ident -> M World B) :
  (forall self, n <= self -> preserves (inv K (S self)) (k self)) ->
  preserves (inv K n) (bind alloc k).
Proof.
  intros Hk w Hw. rewrite bind_alloc_eq.
  assert (n <= next_ident w) as Hle by apply Hw.
  apply (inv_weaken K K n (S (next_ident w))); [done|lia|].
  apply (Hk _ Hle). apply (inv_alloc K n) in Hw.
  destruct Hw as (Hok & Hex & Hn). split; [done|]. split; [done|simpl; lia].
Qed.

Lemma inv_ArrayType_new K n nm element_type :
  preserves (inv K n) (ArrayType_new nm element_type).
Proof.
  intros w Hw. unfold ArrayType_new. rewrite bind_get_obj_eq.
  destruct (objects w !! element_type) as [elt|] eqn:Helt; [|done].
  rewrite bind_alloc_eq.
  assert (element_type < next_ident w) as Hlt.
  { destruct Hw as ((_ & Hb) & _). by apply Hb. }
  apply inv_after_alloc; [done|].
  apply preserves_bind; [|intros _; heap_auto].
  apply inv_CompiledType_init; [lia|done|].
  simpl. intros e [= <-]. by split.
Qed.
#[local] Hint Resolve inv_ArrayType_new : heapkept.

Lemma inv_memoized K n cache store body self :
  preserves (inv K n) (body self) ->
  preserves (inv K n) (memoized cache store body self).
Proof. intros Hbody. unfold memoized. heap_auto. Qed.

Lemma inv_array K n t : preserves (inv K n) (array t).
Proof. apply inv_memoized. heap_auto. Qed.
#[local] Hint Resolve inv_array : heapkept.

Lemma inv_entity_info K n t : preserves (inv K n) (entity_info_ is_keyword t).
Proof.
  unfold entity_info_. apply preserves_bind; [heap_auto|intros w0].
  destruct (entity_info (repo w0)); [heap_auto|].
  apply preserves_bind; [heap_auto|intros md].
  apply preserves_bind; [heap_auto|intros rb].
  apply preserves_bind; [heap_auto|intros fr].
  apply inv_bind_alloc. intros info Hinfo.
  apply preserves_bind; [apply inv_StructType_init; lia|intros _]. heap_auto.
Qed.
#[local] Hint Resolve inv_entity_info : heapkept.

Lemma inv_EntityType_new K n astnode :
  preserves (inv K n) (EntityType_new is_keyword astnode).
Proof.
  intros w Hw. unfold EntityType_new. rewrite bind_alloc_eq.
  rewrite bind_get_obj_eq. simpl objects.
  destruct (objects w !! astnode) as [node|] eqn:Hnode;
    [|by apply (inv_alloc K n w Hw)].
  assert (astnode < next_ident w) as Hlt.
  { destruct Hw as ((_ & Hb) & _). by apply Hb. }
  apply inv_after_alloc; [done|].
  apply preserves_bind; [heap_auto|intros nf].
  apply preserves_bind; [heap_auto|intros info].
  apply preserves_bind; [heap_auto|intros inf].
  apply preserves_bind; [apply inv_StructType_init; lia|intros _].
  apply preserves_bind; [|intros _; heap_auto].
  apply inv_set_entity; [done|by rewrite Hnode].
Qed.
#[local] Hint Resolve inv_EntityType_new : heapkept.

Lemma inv_entity K n t : preserves (inv K n) (entity is_keyword t).
Proof. apply inv_memoized. heap_auto. Qed.
#[local] Hint Resolve inv_entity : heapkept.

Lemma inv_ASTNodeType_init K n new_node args :
  (forall K' n' a, preserves (inv K' n') (new_node a)) ->
  preserves (inv K n)
    (ASTNodeType_init is_keyword builtin_properties new_node args).
Proof.
  intros Hnew w Hw. unfold ASTNodeType_init. rewrite bind_alloc_eq.
  pose proof (inv_alloc K n w Hw) as Hraise.
  destruct Hw as ((Hl & Hb) & HK & Hn).
  assert (inv K n w) as Hw by done.
  destruct (a_base args) as [b|] eqn:Hbase.
  - rewrite bind_assoc_eq, bind_get_obj_eq. simpl objects.
    destruct (objects w !! b) as [bo|] eqn:Hbo; [|done].
    rewrite bind_ret_eq. cbv beta iota zeta.
    assert (b < next_ident w) as Hlt by (by apply Hb).
    destruct (Hl b bo Hbo) as [_ Hbe].
    destruct (is_generic_list_type bo); simpl orb.
    + destruct (a_element_type args) as [e|]; [|done].
      rewrite bind_assoc_eq, bind_get_obj_eq. simpl objects.
      destruct (objects w !! e) as [eo|] eqn:Heo; [|done].
      destruct (isinstance_ASTNodeType (cls eo)); [|done].
      rewrite bind_ret_eq. cbv beta iota zeta.
      apply inv_after_alloc; [done|].
      apply preserves_bind;
        [|intros _; heap_auto; apply Hnew].
      apply inv_CompiledType_init; [lia| |]; simpl; intros x [= <-].
      * by split.
      * split; [by apply Hb|done].
    + destruct (a_element_type args) as [e|]; [done|].
      rewrite bind_ret_eq. cbv beta iota zeta.
      apply inv_after_alloc; [done|].
      apply preserves_bind;
        [|intros _; heap_auto; apply Hnew].
      apply inv_CompiledType_init; [lia| |]; simpl.
      * intros x [= <-]. by split.
      * intros x Hx. destruct (is_list_type bo); [|done].
        destruct (Hbe x Hx) as [? ?]. split; [lia|done].
  - rewrite bind_ret_eq. cbv beta iota zeta.
    destruct (a_element_type args) as [e|]; [done|].
    rewrite bind_ret_eq. cbv beta iota zeta.
    apply inv_after_alloc; [done|].
    apply preserves_bind;
      [|intros _; heap_auto; apply Hnew].
    apply inv_CompiledType_init; [lia|done|done].
Qed.

Lemma inv_ASTNodeType_new K n args :
  preserves (inv K n) (ASTNodeType_new is_keyword builtin_properties args).
Proof.
  unfold ASTNodeType_new.
  apply inv_ASTNodeType_init. intros K' n' a.
  apply inv_ASTNodeType_init. intros K'' n'' a'. apply preserves_raise.
Qed.
#[local] Hint Resolve inv_ASTNodeType_new : heapkept.

Lemma inv_list K n t :
  preserves (inv K n) (list_ is_keyword builtin_properties t).
Proof. apply inv_memoized. heap_auto. Qed.

Lemma inv_resolve K n td nm : preserves (inv K n) (resolve td nm).
Proof. unfold resolve. heap_auto. Qed.
#[local] Hint Resolve inv_resolve : heapkept.

Lemma inv_TypeRepo_getattr K n nm :
  preserves (inv K n) (TypeRepo_getattr nm).
Proof. unfold TypeRepo_getattr. heap_auto. Qed.

Lemma inv_reset K n : preserves (inv K n) reset.
Proof. unfold reset. heap_auto. Qed.

Lemma inv_CompiledType_new K n nm element_type trn dsl w :
  inv K n w ->
  (forall e, element_type = Some e -> is_Some (objects w !! e)) ->
  inv K n (CompiledType_new nm element_type trn dsl w).2.
Proof.
  intros Hw He. unfold CompiledType_new. rewrite bind_alloc_eq.
  assert (bounded w) as Hb by apply Hw.
  apply inv_after_alloc; [done|].
  apply preserves_bind; [|intros _; heap_auto].
  apply inv_CompiledType_init; [lia|done|].
  simpl. intros e ->. specialize (He e eq_refl). split; [by apply Hb|done].
Qed.

Local Abbreviation exec := (exec is_keyword builtin_properties).
Local Abbreviation run := (run is_keyword builtin_properties).
Local Abbreviation ops_ok := (ops_ok is_keyword builtin_properties).

Lemma then_ret_state {A} (m : M World A) w : ((m;; ret tt) w).2 = (m w).2.
Proof. unfold bind. by destruct (m w) as [[a|e] w']. Qed.

Lemma inv_exec K n o w :
  inv K n w -> op_ok w o = true -> inv K n (exec o w).2.
Proof.
  intros Hw Hok.
  destruct o as [t|t|t|t|nm e trn dsl|nm fields|args|tn|td tn|];
    unfold Repo.exec; rewrite ?then_ret_state.
  - by apply inv_array.
  - by apply inv_list.
  - by apply inv_entity.
  - by apply inv_entity_info.
  - apply inv_CompiledType_new; [done|].
    intros e' ->. simpl in Hok. by apply bool_decide_eq_true in Hok.
  - refine (inv_bind_alloc K n _ _ w Hw). intros self Hself.
    apply inv_StructType_init. lia.
  - by apply inv_ASTNodeType_new.
  - by apply inv_TypeRepo_getattr.
  - by apply inv_resolve.
  - by apply inv_reset.
Qed.

Lemma inv_run K n ops : forall w,
  inv K n w -> ops_ok w ops = true -> inv K n (run ops w).
Proof.
  induction ops as [|o ops IH]; intros w Hw Hok; [done|].
  simpl in Hok. apply andb_true_iff in Hok as [Ho Hops].
  simpl. apply IH; [by apply inv_exec|done].
Qed.

(** Whatever sequence of constructors and look-ups built the repository, the
    base and the element type of every type are older types that exist and
    no type was lost on the way; hence the loop of [get_inheritance_chain],
    which follows [_base] until it is [None], ends on every type. *)
Theorem constructed_repository_is_well_founded ops w :
  heap_ok w -> ops_ok w ops = true ->
  heap_ok (run ops w)
  /\ (forall t, is_Some (objects w !! t) ->
                is_Some (objects (run ops w) !! t))
  /\ (forall t, is_Some (objects (run ops w) !! t) ->
                is_Some (get_inheritance_chain (objects (run ops w)) t)).
Proof.
  intros Hw Hok.
  assert (inv (fun t => is_Some (objects w !! t)) 0 (run ops w))
    as (Hok' & Hex & _).
  { apply inv_run; [|done]. split; [done|]. split; [done|lia]. }
  split; [done|]. split; [done|].
  intros t Ht.
  apply SubtypingProps.get_inheritance_chain_returns; [apply Hok'|done].
Qed.

End Constructors.

Lemma initial_heap_ok : heap_ok initial.
Proof.
  split.
  - intros t o Ho. simpl in Ho. by rewrite lookup_empty in Ho.
  - intros t [o Ho]. simpl in Ho. by rewrite lookup_empty in Ho.
Qed.

Lemma constructed_repository_is_well_founded_witness :
  let ops :=
    [OpNewNode (mkNodeArgs "Root" None [] None false true false None None);
     OpNewNode (mkNodeArgs "Expr" (Some 1) [] None false true false None None);
     OpNewType "Int" None None None;
     OpNewType "IntBox" (Some 17) None None;
     OpList 13;
     OpArray 13;
     OpReset;
     OpList 40] in
  let w := run (fun _ => false) [] ops initial in
  heap_ok w
  /\ (forall t, is_Some (objects initial !! t) -> is_Some (objects w !! t))
  /\ (forall t, is_Some (objects w !! t) ->
                is_Some (get_inheritance_chain (objects w) t)).
Proof.
  apply (constructed_repository_is_well_founded (fun _ => false) []);
    [exact initial_heap_ok|by vm_compute].
Defined.

End ReachableProps.
